(** * MotorControl: command-to-duty-cycle pipeline of the rover firmware

    Shallow embedding of [MotorControl.h] / [MotorControl.cpp]
    (goat_gps_tracking_no_imu_raw_cmd_power_sensor_v2).

    - [int], [long] (32 bits on the ESP32), [uint8_t], [uint16_t] and
      [uint32_t] are integers in [Z] with the wrap-around of every
      conversion and operation written out.
    - [double] is an abstract arithmetic (class [Double]) with two
      interpretations: [binary64], IEEE 754 doubles as the compiled
      program computes them (the primitive floats, reasoned about
      through their specification on [spec_float]), and [exact], the
      rational numbers, which is the real-valued reading of the commands.
      Facts that do not depend on the arithmetic are proved for every
      interpretation; the symmetry of the mix, the monotonicity of the
      pipeline and the passing through of commands within [-1, 1] are
      proved for [binary64] and for [exact]; the algebra of the
      normalization is proved for [exact], and shown to fail under
      rounding; concrete runs are evaluated in both.
    - The PWM peripheral is the trace of the driver calls ([ledcSetup],
      [ledcAttachPin], [ledcWrite]) in program order. *)

From Stdlib Require Import ZArith QArith Qround Qabs Qminmax Lia Lqa List Bool.
From Stdlib Require Import Floats Uint63.
Import ListNotations.

Local Open Scope Z_scope.

(** ** Fixed-width integers *)

Definition uint8_t (z : Z) : Z := z mod 2 ^ 8.
Definition uint16_t (z : Z) : Z := z mod 2 ^ 16.
Definition uint32_t (z : Z) : Z := z mod 2 ^ 32.

Definition LONG_MIN : Z := - 2 ^ 31.
Definition LONG_MAX : Z := 2 ^ 31 - 1.

(** Two's complement wrap-around of a 32-bit signed result ([int] and
    [long] have the same width on the target). *)
Definition long (z : Z) : Z := (z + 2 ^ 31) mod 2 ^ 32 - 2 ^ 31.

(** ** The arithmetic of [double] *)

Class Double (D : Type) : Type := {
  dadd : D -> D -> D;
  dsub : D -> D -> D;
  dmul : D -> D -> D;
  ddiv : D -> D -> D;
  dneg : D -> D;
  dlt : D -> D -> bool;
  (** conversion of an integer value (an [int] operand or a literal with
      an integral value such as [1000], [1.0], [1e6]) to [double] *)
  double_of_int : Z -> D;
  (** conversion of a [double] argument to a [long] parameter *)
  long_of_double : D -> Z
}.

Declare Scope double_scope.
Delimit Scope double_scope with dbl.
Infix "+" := dadd : double_scope.
Infix "-" := dsub : double_scope.
Infix "*" := dmul : double_scope.
Infix "/" := ddiv : double_scope.
Notation "- x" := (dneg x) : double_scope.

(** A value already truncated to an integer, brought into the range of
    [long].  Out of range the conversion is undefined in C++; the
    software conversion of the target saturates. *)
Definition saturate_long (z : Z) : Z := Z.max LONG_MIN (Z.min LONG_MAX z).

(** *** Exact interpretation *)

(** Truncation toward zero of a rational. *)
Definition Qtruncate (q : Q) : Z := Z.quot (Qnum q) (Zpos (Qden q)).

Definition Qltb (a b : Q) : bool :=
  match Qcompare a b with Lt => true | _ => false end.

#[export] Instance exact : Double Q := {
  dadd := Qplus;
  dsub := Qminus;
  dmul := Qmult;
  ddiv := Qdiv;
  dneg := Qopp;
  dlt := Qltb;
  double_of_int := inject_Z;
  long_of_double := fun q => saturate_long (Qtruncate q)
}.

(** *** IEEE 754 binary64 interpretation *)

(** Integer part of a binary64 value given by sign, mantissa and
    exponent; NaN and the infinities go to the ends of the range. *)
Definition SFtruncate (x : spec_float) : Z :=
  match x with
  | S754_zero _ => 0
  | S754_infinity s => if s then LONG_MIN else LONG_MAX
  | S754_nan => LONG_MAX
  | S754_finite s m e =>
      let a := match e with
               | Z0 => Zpos m
               | Zpos p => Z.shiftl (Zpos m) (Zpos p)
               | Zneg p => Z.shiftr (Zpos m) (Zpos p)
               end in
      if s then - a else a
  end.

Definition float_of_int (z : Z) : float :=
  if z <? 0 then PrimFloat.opp (PrimFloat.of_uint63 (Uint63.of_Z (- z)))
  else PrimFloat.of_uint63 (Uint63.of_Z z).

#[export] Instance binary64 : Double float := {
  dadd := PrimFloat.add;
  dsub := PrimFloat.sub;
  dmul := PrimFloat.mul;
  ddiv := PrimFloat.div;
  dneg := PrimFloat.opp;
  dlt := PrimFloat.ltb;
  double_of_int := float_of_int;
  long_of_double := fun x => saturate_long (SFtruncate (Prim2SF x))
}.

(** ** Arduino core functions used by the class *)

Module Arduino.

Section OnDouble.
Context {D : Type} `{Double D}.

(** [#define abs(x) ((x)>0?(x):-(x))] *)
Definition abs (x : D) : D :=
  if dlt (double_of_int 0) x then x else (- x)%dbl.

(** [std::max(a, b)], which is [(a < b) ? b : a] *)
Definition max (a b : D) : D := if dlt a b then b else a.

End OnDouble.

(** [std::min(a, b)] on [uint32_t], which is [(b < a) ? b : a] *)
Definition min (a b : Z) : Z := if b <? a then b else a.

(** [long map(long x, long in_min, long in_max, long out_min, long out_max)]:
    [(x - in_min) * (out_max - out_min) / (in_max - in_min) + out_min]
    in [long] arithmetic, the division truncating toward zero; [-1] when
    the input range is empty. *)
Definition map (x in_min in_max out_min out_max : Z) : Z :=
  let run := long (in_max - in_min) in
  if run =? 0 then -1
  else
    let rise := long (out_max - out_min) in
    let delta := long (x - in_min) in
    long (long (Z.quot (long (delta * rise)) run) + out_min).

End Arduino.

(** ** The PWM driver *)

Inductive LedcCall : Type :=
| ledcSetup (chan freq bits : Z)
| ledcAttachPin (pin chan : Z)
| ledcWrite (chan duty : Z).

(** The peripheral, as the calls it has received, oldest first. *)
Definition Ledc : Type := list LedcCall.

Definition call (c : LedcCall) (hw : Ledc) : Ledc := hw ++ [c].

(** ** class MotorControl *)

Definition SERVO_MIN : Z := 500.
Definition SERVO_MAX : Z := 2500.
Definition PWM_TIMER_12_BIT : Z := 12.
Definition PWM_BASE_FREQ : Z := 333.

Record MotorControl : Type := {
  PWM_LEFT_CHANNEL : Z;
  PWM_RIGHT_CHANNEL : Z;
  WINCH_CHANNEL : Z
}.

(** The constructor. *)
Definition MotorControl_init
  (leftChannelFront rightChannelFront leftChannelBack rightChannelBack
   winchChannel : Z) : MotorControl :=
  {| PWM_LEFT_CHANNEL := leftChannelFront;
     PWM_RIGHT_CHANNEL := rightChannelBack;
     WINCH_CHANNEL := winchChannel |}.

Definition begin (mc : MotorControl)
  (leftPinFront rightPinFront leftPinBack rightPinBack winchPin : Z)
  (hw : Ledc) : Ledc :=
  let hw := call (ledcSetup (uint8_t (PWM_LEFT_CHANNEL mc)) PWM_BASE_FREQ
                            (uint8_t PWM_TIMER_12_BIT)) hw in
  let hw := call (ledcAttachPin (uint8_t leftPinFront)
                                (uint8_t (PWM_LEFT_CHANNEL mc))) hw in
  let hw := call (ledcAttachPin (uint8_t leftPinBack)
                                (uint8_t (PWM_LEFT_CHANNEL mc))) hw in
  let hw := call (ledcSetup (uint8_t (PWM_RIGHT_CHANNEL mc)) PWM_BASE_FREQ
                            (uint8_t PWM_TIMER_12_BIT)) hw in
  let hw := call (ledcAttachPin (uint8_t rightPinFront)
                                (uint8_t (PWM_RIGHT_CHANNEL mc))) hw in
  let hw := call (ledcAttachPin (uint8_t rightPinBack)
                                (uint8_t (PWM_RIGHT_CHANNEL mc))) hw in
  let hw := call (ledcSetup (uint8_t (WINCH_CHANNEL mc)) PWM_BASE_FREQ
                            (uint8_t PWM_TIMER_12_BIT)) hw in
  call (ledcAttachPin (uint8_t winchPin) (uint8_t (WINCH_CHANNEL mc))) hw.

(** [ledcAnalogWrite(uint8_t channel, uint32_t value, uint32_t valueMax)].
    The arguments are converted to the parameter types; the quotient and
    the product are [uint32_t].  [valueMax = 0] divides by zero in the
    program; every call of the class passes 4095. *)
Definition ledcAnalogWrite (channel value valueMax : Z) (hw : Ledc) : Ledc :=
  let channel := uint8_t channel in
  let value := uint32_t value in
  let valueMax := uint32_t valueMax in
  let duty := uint32_t ((4095 / valueMax) * Arduino.min value valueMax) in
  call (ledcWrite channel duty) hw.

Section Commands.
Context {D : Type} `{Double D}.

Definition update (mc : MotorControl)
  (forwardVelocityCommand steeringVelocityCommand winchCommand : D)
  (hw : Ledc) : Ledc :=
  let leftWheelCommand :=
    (forwardVelocityCommand + steeringVelocityCommand)%dbl in
  let rightWheelCommand :=
    (forwardVelocityCommand - steeringVelocityCommand)%dbl in
  let maxValue :=
    Arduino.max (Arduino.max (Arduino.abs leftWheelCommand)
                             (Arduino.abs rightWheelCommand))
                (double_of_int 1) in
  let leftWheelCommand := (leftWheelCommand / maxValue)%dbl in
  let rightWheelCommand := (rightWheelCommand / maxValue)%dbl in
  let leftMotorPulsewidth :=
    Arduino.map (long_of_double (leftWheelCommand * double_of_int 1000)%dbl)
                (-1000) 1000 SERVO_MIN SERVO_MAX in
  let rightMotorPulsewidth :=
    Arduino.map (long_of_double (rightWheelCommand * double_of_int 1000)%dbl)
                (-1000) 1000 SERVO_MIN SERVO_MAX in
  let winchMotorPulserwidth :=
    Arduino.map (long_of_double (winchCommand * double_of_int 1000)%dbl)
                (-1000) 1000 SERVO_MIN SERVO_MAX in
  let leftMotorDutyCycle :=
    uint16_t (Arduino.map leftMotorPulsewidth 0
                (long_of_double
                   (double_of_int 1000000 / double_of_int PWM_BASE_FREQ)%dbl)
                0 4095) in
  let rightMotorDutyCycle :=
    uint16_t (Arduino.map rightMotorPulsewidth 0
                (long_of_double
                   (double_of_int 1000000 / double_of_int PWM_BASE_FREQ)%dbl)
                0 4095) in
  let winchMotorDutyCycle :=
    uint16_t (Arduino.map winchMotorPulserwidth 0
                (long_of_double
                   (double_of_int 1000000 / double_of_int PWM_BASE_FREQ)%dbl)
                0 4095) in
  let hw := ledcAnalogWrite (PWM_LEFT_CHANNEL mc) leftMotorDutyCycle 4095 hw in
  let hw := ledcAnalogWrite (PWM_RIGHT_CHANNEL mc) rightMotorDutyCycle 4095 hw in
  ledcAnalogWrite (WINCH_CHANNEL mc) winchMotorDutyCycle 4095 hw.

Definition updateRightLeft (mc : MotorControl)
  (leftWheelCommand rightWheelCommand : D) (hw : Ledc) : Ledc :=
  let leftMotorPulsewidth :=
    Arduino.map (long_of_double (leftWheelCommand * double_of_int 1000)%dbl)
                (-1000) 1000 SERVO_MIN SERVO_MAX in
  let rightMotorPulsewidth :=
    Arduino.map (long_of_double (rightWheelCommand * double_of_int 1000)%dbl)
                (-1000) 1000 SERVO_MIN SERVO_MAX in
  let leftMotorDutyCycle :=
    uint16_t (Arduino.map leftMotorPulsewidth 0
                (long_of_double
                   (double_of_int 1000000 / double_of_int PWM_BASE_FREQ)%dbl)
                0 4095) in
  let rightMotorDutyCycle :=
    uint16_t (Arduino.map rightMotorPulsewidth 0
                (long_of_double
                   (double_of_int 1000000 / double_of_int PWM_BASE_FREQ)%dbl)
                0 4095) in
  let hw := ledcAnalogWrite (PWM_LEFT_CHANNEL mc) leftMotorDutyCycle 4095 hw in
  ledcAnalogWrite (PWM_RIGHT_CHANNEL mc) rightMotorDutyCycle 4095 hw.

(** *** The steps of the pipeline, named

    The intermediate values of [update] and [updateRightLeft], as
    functions of their inputs; [update_steps] and [updateRightLeft_steps]
    below show that the two methods compute exactly these. *)

(** Lines 21-22: the mix. *)
Definition mixLeft (forward steering : D) : D := (forward + steering)%dbl.
Definition mixRight (forward steering : D) : D := (forward - steering)%dbl.

(** Line 24: the divisor. *)
Definition maxValue (forward steering : D) : D :=
  Arduino.max (Arduino.max (Arduino.abs (mixLeft forward steering))
                           (Arduino.abs (mixRight forward steering)))
              (double_of_int 1).

(** Lines 26-27: the normalized wheel commands. *)
Definition normalizedLeft (forward steering : D) : D :=
  (mixLeft forward steering / maxValue forward steering)%dbl.
Definition normalizedRight (forward steering : D) : D :=
  (mixRight forward steering / maxValue forward steering)%dbl.

(** Lines 29-31: command to pulse width. *)
Definition pulsewidth (command : D) : Z :=
  Arduino.map (long_of_double (command * double_of_int 1000)%dbl)
              (-1000) 1000 SERVO_MIN SERVO_MAX.

(** The period as [map] receives it. *)
Definition period_us : Z :=
  long_of_double (double_of_int 1000000 / double_of_int PWM_BASE_FREQ)%dbl.

(** Lines 33-35: pulse width to the [uint16_t] duty cycle. *)
Definition dutyCycle (pulse : Z) : Z :=
  uint16_t (Arduino.map pulse 0 period_us 0 4095).

(** Line 61: the duty handed to [ledcWrite]. *)
Definition ledcDuty (value valueMax : Z) : Z :=
  uint32_t ((4095 / uint32_t valueMax)
            * Arduino.min (uint32_t value) (uint32_t valueMax)).

(** Steps 4 to 7 for one channel: what is written for a command. *)
Definition channelDuty (command : D) : Z :=
  ledcDuty (dutyCycle (pulsewidth command)) 4095.

End Commands.

(** ** Observing a trace *)

(** The duties of the [ledcWrite] calls of a trace, in order. *)
Definition duties (hw : Ledc) : list Z :=
  flat_map (fun c => match c with ledcWrite _ d => [d] | _ => [] end) hw.

(** The channels of the [ledcWrite] calls of a trace, in order. *)
Definition channels (hw : Ledc) : list Z :=
  flat_map (fun c => match c with ledcWrite ch _ => [ch] | _ => [] end) hw.

Section Observations.
Context {D : Type} `{Double D}.

(** The three duty cycles a call of [update] writes, in the order of
    its writes: left, right, winch. *)
Definition leftDuty (mc : MotorControl) (f s w : D) : option Z :=
  nth_error (duties (update mc f s w [])) 0.
Definition rightDuty (mc : MotorControl) (f s w : D) : option Z :=
  nth_error (duties (update mc f s w [])) 1.
Definition winchDuty (mc : MotorControl) (f s w : D) : option Z :=
  nth_error (duties (update mc f s w [])) 2.

End Observations.

(** ** Reference definitions, from the words of the specification *)

Definition clamp (lo hi v : Z) : Z := Z.max lo (Z.min hi v).

(** Linear image of [x], from [[in_min, in_max]] onto [[out_min, out_max]],
    in exact arithmetic. *)
Definition linear (x in_min in_max out_min out_max : Q) : Q :=
  (out_min + (x - in_min) * (out_max - out_min) / (in_max - in_min))%Q.

(** Floor-rounding reference: command to pulse width. *)
Definition floorPulsewidth (command : Q) : Z :=
  Qfloor (linear command (-1) 1 500 2500).

(** Floor-rounding reference: pulse width to duty, for a given period. *)
Definition floorDuty (period : Q) (pulse : Z) : Z :=
  Qfloor (linear (inject_Z pulse) 0 period 0 4095).

(** A reference for one channel: the linear image of the command,
    rounded down at each step, clamped into [[0, 4095]]. *)
Definition clampedDuty (period : Q) (command : Q) : Z :=
  clamp 0 4095 (floorDuty period (floorPulsewidth command)).

(** ** The mix on binary64 values, as sign, mantissa and exponent

    The macro [abs], [std::max] and the divisor of [update] on
    [spec_float], the form in which the library specifies the primitive
    operations. *)

Definition SFone : spec_float := S754_finite false 4503599627370496 (-52).

Definition SFabs_macro (x : spec_float) : spec_float :=
  if SFltb (S754_zero false) x then x else SFopp x.

Definition SFmax_std (a b : spec_float) : spec_float :=
  if SFltb a b then b else a.

Definition SFmaxValue (l r : spec_float) : spec_float :=
  SFmax_std (SFmax_std (SFabs_macro l) (SFabs_macro r)) SFone.

Definition nan_or_inf (x : spec_float) : Prop :=
  x = S754_nan \/ exists s, x = S754_infinity s.

Definition is_zero (x : spec_float) : Prop := exists s, x = S754_zero s.

(** ** Rounding to binary64, on integers

    What the library's [binary_round_aux] computes, in closed form:
    [rne] is the rounding to nearest, ties to even, of a quotient by a
    power of two; [milli_magnitude] is the integer part of a thousand
    times a double, the argument [update] passes to [map]. *)

Definition rne (W u : Z) : Z :=
  let q := W / 2 ^ u in
  let r := W mod 2 ^ u in
  if 2 ^ u <? 2 * r then q + 1
  else if 2 * r =? 2 ^ u then (if Z.even q then q else q + 1)
  else q.

(** The record after [k] right shifts of the exact [M]. *)
Definition shifted (M k : Z) : shr_record :=
  {| shr_m := M / 2 ^ k;
     shr_r := Z.odd (M / 2 ^ (k - 1)) && (0 <? k);
     shr_s := negb (M mod 2 ^ (k - 1) =? 0) && (0 <? k) |}.

Definition signed (s : bool) (z : Z) : Z := if s then - z else z.

(** The exponent at which a product [M * 2^E] is rounded. *)
Definition round_shift (M E : Z) : Z := fexp prec emax (Zdigits2 M + E) - E.

Definition SF1000 : spec_float := S754_finite false 8796093022208000 (-43).

Definition SFminus_one : spec_float := S754_finite true 4503599627370496 (-52).

(** The magnitude of the integer part of [m * 2^e * 1000] rounded. *)
Definition milli_magnitude (m : positive) (e : Z) : Z :=
  let M := Zpos m * 8796093022208000 in
  let E := e - 43 in
  rne M (round_shift M E) / 2 ^ (- (E + round_shift M E)).

(** The order of two non-negative finite values, on mantissa and
    exponent. *)
Definition pair_le (m1 : positive) (e1 : Z) (m2 : positive) (e2 : Z) : Prop :=
  e1 < e2 \/ (e1 = e2 /\ (m1 <= m2)%positive).

(** The exponent [u] fits [W]: at most 53 digits are kept, and exactly 53
    above the least exponent [u0]. *)
Definition fits (u0 W u : Z) : Prop :=
  u0 <= u /\ W < 2 ^ (u + 53) /\ (u0 < u -> 2 ^ (u + 52) <= W).

(** ** The quotient of two binary64 values

    The location of the quotient computed by the division, as two more
    bits, and the values of magnitude at most one. *)

Definition loc_code (l : location) : Z :=
  match l with
  | loc_Exact => 0
  | loc_Inexact Lt => 1
  | loc_Inexact Eq => 2
  | loc_Inexact Gt => 3
  end.

Definition magnitude_le_one (x : spec_float) : Prop :=
  match x with
  | S754_zero _ => True
  | S754_finite _ m t => t <= 0 /\ Zpos m <= 2 ^ (- t)
  | _ => False
  end.

(** ** Observing the configuration, and sequences of calls *)

(** The [ledcSetup] calls of a trace, in order: channel, frequency and
    resolution in bits. *)
Definition setups (hw : Ledc) : list (Z * Z * Z) :=
  flat_map (fun c => match c with
                     | ledcSetup ch freq bits => [(ch, freq, bits)]
                     | _ => []
                     end) hw.

(** The [ledcAttachPin] calls of a trace, in order: pin and channel. *)
Definition attachments (hw : Ledc) : list (Z * Z) :=
  flat_map (fun c => match c with
                     | ledcAttachPin pin ch => [(pin, ch)]
                     | _ => []
                     end) hw.

(** Every pin is attached to, and every duty is written to, a channel
    that an earlier call has set up; [seen] are the channels set up
    before the trace starts. *)
Fixpoint well_ordered (seen : list Z) (hw : Ledc) : bool :=
  match hw with
  | [] => true
  | ledcSetup ch _ _ :: tl => well_ordered (ch :: seen) tl
  | ledcAttachPin _ ch :: tl =>
      existsb (Z.eqb ch) seen && well_ordered seen tl
  | ledcWrite ch _ :: tl =>
      existsb (Z.eqb ch) seen && well_ordered seen tl
  end.

(** The duty a channel holds: that of the last [ledcWrite] to it. *)
Definition lastDuty (hw : Ledc) (chan : Z) : option Z :=
  fold_left (fun acc c => match c with
                          | ledcWrite ch d => if ch =? chan then Some d else acc
                          | _ => acc
                          end) hw None.

(** The calls a sketch makes on the object after [begin]. *)
Inductive Command (D : Type) : Type :=
| Update (forwardVelocityCommand steeringVelocityCommand winchCommand : D)
| UpdateRightLeft (leftWheelCommand rightWheelCommand : D).

Arguments Update {D} _ _ _.
Arguments UpdateRightLeft {D} _ _.

Definition step {D : Type} `{Double D} (mc : MotorControl)
  (c : Command D) (hw : Ledc) : Ledc :=
  match c with
  | Update f s w => update mc f s w hw
  | UpdateRightLeft l r => updateRightLeft mc l r hw
  end.

Definition run {D : Type} `{Double D} (mc : MotorControl)
  (cs : list (Command D)) (hw : Ledc) : Ledc :=
  fold_left (fun hw c => step mc c hw) cs hw.

(** The number of duty writes a call makes. *)
Definition writes {D : Type} (c : Command D) : nat :=
  match c with Update _ _ _ => 3%nat | UpdateRightLeft _ _ => 2%nat end.

(** ** Opposite values in binary64 *)

(** Two binary64 values that are opposite, or both zero: the relation
    between the results of an operation on opposite arguments, where the
    sign of a zero result follows the rounding direction rather than the
    arguments. *)
Definition opposite (a b : spec_float) : Prop :=
  b = SFopp a \/ (is_zero a /\ is_zero b).

(** Two binary64 values that are the same, or both zero. *)
Definition same_value (a b : spec_float) : Prop :=
  a = b \/ (is_zero a /\ is_zero b).

(** * Properties *)

(** ** Fixed-width integers and [map] *)

Definition in_long (z : Z) : Prop := LONG_MIN <= z <= LONG_MAX.

Ltac widths :=
  unfold saturate_long, in_long, long, uint8_t, uint16_t, uint32_t in *;
  unfold LONG_MIN, LONG_MAX in *;
  change (2 ^ 8) with 256 in *; change (2 ^ 16) with 65536 in *;
  change (2 ^ 31) with 2147483648 in *;
  change (2 ^ 32) with 4294967296 in *.

Lemma long_small (z : Z) : in_long z -> long z = z.
Proof. widths. intros Hz. rewrite Z.mod_small; lia. Qed.

Lemma uint16_small (z : Z) : 0 <= z < 65536 -> uint16_t z = z.
Proof. widths. intros Hz. apply Z.mod_small; lia. Qed.

Lemma uint32_small (z : Z) : 0 <= z < 4294967296 -> uint32_t z = z.
Proof. widths. intros Hz. apply Z.mod_small; lia. Qed.

Lemma uint32_range (z : Z) : 0 <= uint32_t z < 4294967296.
Proof. widths. apply Z.mod_pos_bound; lia. Qed.

Lemma saturate_small (z : Z) : in_long z -> saturate_long z = z.
Proof. widths. lia. Qed.

Lemma min_spec (a b : Z) : Arduino.min a b = Z.min a b.
Proof. unfold Arduino.min. destruct (Z.ltb_spec b a); lia. Qed.

(** When no intermediate result leaves the range of [long], [map] is the
    truncated quotient it is written as. *)
Lemma map_no_overflow (x a b c d : Z) :
  b - a <> 0 -> in_long (b - a) -> in_long (d - c) -> in_long (x - a) ->
  in_long ((x - a) * (d - c)) ->
  in_long (Z.quot ((x - a) * (d - c)) (b - a)) ->
  in_long (Z.quot ((x - a) * (d - c)) (b - a) + c) ->
  Arduino.map x a b c d = Z.quot ((x - a) * (d - c)) (b - a) + c.
Proof.
  intros Hne Hrun Hrise Hdelta Hprod Hquot Hsum. unfold Arduino.map.
  rewrite (long_small (b - a)) by assumption.
  destruct (Z.eqb_spec (b - a) 0) as [E | _]; [contradiction |].
  rewrite (long_small (d - c)), (long_small (x - a)) by assumption.
  rewrite (long_small ((x - a) * (d - c))) by assumption.
  rewrite (long_small (Z.quot _ _)) by assumption.
  now apply long_small.
Qed.

(** Command to pulse width on integers: the offset by 1500. *)
Lemma map_pulse (x : Z) :
  -1000000 <= x <= 1000000 ->
  Arduino.map x (-1000) 1000 SERVO_MIN SERVO_MAX = x + 1500.
Proof.
  intros Hx. unfold SERVO_MIN, SERVO_MAX.
  assert (Hq : Z.quot ((x - -1000) * (2500 - 500)) (1000 - -1000) = x + 1000).
  { change (2500 - 500) with 2000. change (1000 - -1000) with 2000.
    rewrite Z.quot_mul by lia. lia. }
  rewrite map_no_overflow; rewrite ?Hq; widths; lia.
Qed.

(** Pulse width to duty on integers, for a non-negative pulse width. *)
Lemma map_duty (pulse : Z) :
  0 <= pulse <= 524287 ->
  Arduino.map pulse 0 3003 0 4095 = pulse * 4095 / 3003.
Proof.
  intros Hp.
  assert (Hq : Z.quot ((pulse - 0) * (4095 - 0)) (3003 - 0)
               = pulse * 4095 / 3003).
  { rewrite Z.sub_0_r. change (4095 - 0) with 4095. change (3003 - 0) with 3003.
    apply Z.quot_div_nonneg; lia. }
  assert (Hb : 0 <= pulse * 4095 / 3003 <= pulse * 4095).
  { split; [apply Z.div_pos; lia |].
    apply Z.div_le_upper_bound; lia. }
  rewrite map_no_overflow; rewrite ?Hq; widths; lia.
Qed.

Lemma ledcDuty_4095 (value : Z) :
  ledcDuty value 4095 = Z.min (uint32_t value) 4095.
Proof.
  unfold ledcDuty. rewrite (uint32_small 4095) by lia.
  change (4095 / 4095) with 1. rewrite Z.mul_1_l, min_spec.
  pose proof (uint32_range value). apply uint32_small; lia.
Qed.

Lemma ledcDuty_range (value : Z) : 0 <= ledcDuty value 4095 <= 4095.
Proof.
  rewrite ledcDuty_4095. pose proof (uint32_range value). lia.
Qed.

(** ** The two methods, step by step (any arithmetic) *)

Section Steps.
Context {D : Type} `{Double D}.

Lemma ledcAnalogWrite_call (channel value valueMax : Z) (hw : Ledc) :
  ledcAnalogWrite channel value valueMax hw
  = hw ++ [ledcWrite (uint8_t channel) (ledcDuty value valueMax)].
Proof. unfold ledcAnalogWrite, ledcDuty, call. reflexivity. Qed.

Lemma update_steps (mc : MotorControl) (f s w : D) (hw : Ledc) :
  update mc f s w hw
  = hw ++ [ledcWrite (uint8_t (PWM_LEFT_CHANNEL mc))
                     (channelDuty (normalizedLeft f s));
           ledcWrite (uint8_t (PWM_RIGHT_CHANNEL mc))
                     (channelDuty (normalizedRight f s));
           ledcWrite (uint8_t (WINCH_CHANNEL mc)) (channelDuty w)].
Proof.
  unfold update. cbv zeta. rewrite !ledcAnalogWrite_call, <- !app_assoc.
  unfold channelDuty, dutyCycle, pulsewidth, period_us, normalizedLeft,
    normalizedRight, maxValue, mixLeft, mixRight.
  reflexivity.
Qed.

Lemma updateRightLeft_steps (mc : MotorControl) (l r : D) (hw : Ledc) :
  updateRightLeft mc l r hw
  = hw ++ [ledcWrite (uint8_t (PWM_LEFT_CHANNEL mc)) (channelDuty l);
           ledcWrite (uint8_t (PWM_RIGHT_CHANNEL mc)) (channelDuty r)].
Proof.
  unfold updateRightLeft. cbv zeta.
  rewrite !ledcAnalogWrite_call, <- !app_assoc.
  unfold channelDuty, dutyCycle, pulsewidth, period_us.
  reflexivity.
Qed.

Lemma channelDuty_range (c : D) : 0 <= channelDuty c <= 4095.
Proof. apply ledcDuty_range. Qed.

Lemma leftDuty_steps (mc : MotorControl) (f s w : D) :
  leftDuty mc f s w = Some (channelDuty (normalizedLeft f s)).
Proof. unfold leftDuty. rewrite update_steps. reflexivity. Qed.

Lemma rightDuty_steps (mc : MotorControl) (f s w : D) :
  rightDuty mc f s w = Some (channelDuty (normalizedRight f s)).
Proof. unfold rightDuty. rewrite update_steps. reflexivity. Qed.

Lemma winchDuty_steps (mc : MotorControl) (f s w : D) :
  winchDuty mc f s w = Some (channelDuty w).
Proof. unfold winchDuty. rewrite update_steps. reflexivity. Qed.

End Steps.

(** Every duty cycle [update] writes lies in the 12-bit range, whatever
    the commands and the arithmetic. *)
Lemma update_duties_in_range {D : Type} `{Double D}
  (mc : MotorControl) (f s w : D) (d : Z) :
  In d (duties (update mc f s w [])) -> 0 <= d <= 4095.
Proof.
  rewrite update_steps. cbn.
  intros [E | [E | [E | []]]]; subst d; apply channelDuty_range.
Qed.

Lemma period_us_exact : period_us (D := Q) = 3003.
Proof. vm_compute. reflexivity. Qed.

Lemma period_us_binary64 : period_us (D := float) = 3003.
Proof. vm_compute. reflexivity. Qed.

(** Evaluation of a concrete run: the trace of the method, call by call. *)
Ltac run_trace :=
  rewrite ?update_steps, ?updateRightLeft_steps;
  repeat f_equal; vm_compute; reflexivity.

(** ** The write primitive *)

(** C4. [ledcAnalogWrite] writes [floor(4095 / valueMax) * min(value, valueMax)]
    to the channel, and for every value and every [valueMax >= 1] that
    duty is at most 4095. *)
Theorem ledcAnalogWrite_duty_bound (channel value valueMax : Z) (hw : Ledc)
  (Hmax : 1 <= valueMax < 2 ^ 32) :
  ledcAnalogWrite channel value valueMax hw
  = hw ++ [ledcWrite (uint8_t channel)
                     (4095 / valueMax * Z.min (uint32_t value) valueMax)]
  /\ 0 <= 4095 / valueMax * Z.min (uint32_t value) valueMax <= 4095.
Proof.
  change (2 ^ 32) with 4294967296 in Hmax.
  pose proof (uint32_range value) as Hv.
  assert (Hq : 0 <= 4095 / valueMax) by (apply Z.div_pos; lia).
  assert (Hm : valueMax * (4095 / valueMax) <= 4095)
    by (apply Z.mul_div_le; lia).
  assert (Hb : 0 <= 4095 / valueMax * Z.min (uint32_t value) valueMax <= 4095)
    by nia.
  split; [| exact Hb].
  rewrite ledcAnalogWrite_call. unfold ledcDuty.
  rewrite (uint32_small valueMax) by lia.
  rewrite min_spec, uint32_small by lia. reflexivity.
Qed.

Lemma ledcAnalogWrite_duty_bound_witness :
  ledcAnalogWrite 7 5000 4095 []
  = [] ++ [ledcWrite (uint8_t 7) (4095 / 4095 * Z.min (uint32_t 5000) 4095)]
  /\ 0 <= 4095 / 4095 * Z.min (uint32_t 5000) 4095 <= 4095.
Proof. apply (ledcAnalogWrite_duty_bound 7 5000 4095 []). vm_compute. split; [discriminate | reflexivity]. Defined.

(** ** The constructor *)

(** C10. The constructor keeps [leftChannelFront] as the left channel and
    [rightChannelBack] as the right channel and ignores [rightChannelFront]
    and [leftChannelBack]: two constructions that differ only there give
    the same object, so [update] and [updateRightLeft] make the same
    calls on the same channels. *)
Theorem constructor_ignores_unused_channels
  (lf rf lb rb wc rf' lb' : Z) :
  PWM_LEFT_CHANNEL (MotorControl_init lf rf lb rb wc) = lf
  /\ PWM_RIGHT_CHANNEL (MotorControl_init lf rf lb rb wc) = rb
  /\ MotorControl_init lf rf lb rb wc = MotorControl_init lf rf' lb' rb wc
  /\ (forall (D : Type) (A : Double D) (f s w : D) (hw : Ledc),
        update (MotorControl_init lf rf lb rb wc) f s w hw
        = update (MotorControl_init lf rf' lb' rb wc) f s w hw
        /\ channels (update (MotorControl_init lf rf lb rb wc) f s w [])
           = [uint8_t lf; uint8_t rb; uint8_t wc])
  /\ (forall (D : Type) (A : Double D) (l r : D) (hw : Ledc),
        updateRightLeft (MotorControl_init lf rf lb rb wc) l r hw
        = updateRightLeft (MotorControl_init lf rf' lb' rb wc) l r hw
        /\ channels (updateRightLeft (MotorControl_init lf rf lb rb wc) l r [])
           = [uint8_t lf; uint8_t rb]).
Proof.
  split; [reflexivity | split; [reflexivity | split; [reflexivity |]]].
  split; intros D A x y.
  - intros w hw. split; [reflexivity |]. rewrite update_steps. reflexivity.
  - intros hw. split; [reflexivity |].
    rewrite updateRightLeft_steps. reflexivity.
Qed.

(** ** Winch and drive are independent *)

(** C5. In any arithmetic, two runs of [update] with the same forward and
    steering commands write the same left and right duty cycles whatever
    the winch commands, and the winch duty is the pipeline applied to the
    raw winch command: it does not depend on forward and steering, hence
    not on the divisor. *)
Theorem winch_independence {D : Type} `{Double D}
  (mc : MotorControl) (f s w1 w2 : D) :
  leftDuty mc f s w1 = leftDuty mc f s w2
  /\ rightDuty mc f s w1 = rightDuty mc f s w2
  /\ winchDuty mc f s w1 = Some (channelDuty w1)
  /\ (forall f' s' : D, winchDuty mc f' s' w1 = winchDuty mc f s w1).
Proof.
  rewrite (leftDuty_steps mc f s w1), (leftDuty_steps mc f s w2).
  rewrite (rightDuty_steps mc f s w1), (rightDuty_steps mc f s w2).
  rewrite (winchDuty_steps mc f s w1).
  split; [reflexivity | split; [reflexivity | split; [reflexivity |]]].
  intros f' s'. apply winchDuty_steps.
Qed.

(** ** Concrete runs *)

(** C9. [update(0, 0, 0)] writes 2045 to the left, the right and the winch
    channel, which is the duty the pipeline gives for the pulse width
    1500 of the command 0; in both arithmetics. *)
Theorem update_neutral (mc : MotorControl) (hw : Ledc) :
  update mc 0%float 0%float 0%float hw
  = hw ++ [ledcWrite (uint8_t (PWM_LEFT_CHANNEL mc)) 2045;
           ledcWrite (uint8_t (PWM_RIGHT_CHANNEL mc)) 2045;
           ledcWrite (uint8_t (WINCH_CHANNEL mc)) 2045]
  /\ update mc 0%Q 0%Q 0%Q hw
     = hw ++ [ledcWrite (uint8_t (PWM_LEFT_CHANNEL mc)) 2045;
              ledcWrite (uint8_t (PWM_RIGHT_CHANNEL mc)) 2045;
              ledcWrite (uint8_t (WINCH_CHANNEL mc)) 2045]
  /\ pulsewidth 0%float = 1500 /\ pulsewidth 0%Q = 1500
  /\ ledcDuty (dutyCycle (D := float) 1500) 4095 = 2045
  /\ ledcDuty (dutyCycle (D := Q) 1500) 4095 = 2045.
Proof.
  split; [run_trace | split; [run_trace |]].
  repeat split; vm_compute; reflexivity.
Qed.

(** ** Exact arithmetic: truncation *)

Lemma Qtruncate_nonneg (q : Q) : (0 <= q)%Q -> Qtruncate q = Qfloor q.
Proof.
  destruct q as [n d]. unfold Qle, Qtruncate, Qfloor. simpl. intros Hn.
  apply Z.quot_div_nonneg; lia.
Qed.

Lemma Qtruncate_nonpos (q : Q) : (q <= 0)%Q -> Qtruncate q = Qceiling q.
Proof.
  destruct q as [n d]. unfold Qle, Qtruncate, Qceiling, Qfloor. simpl.
  intros Hn. rewrite <- (Z.opp_involutive n) at 1.
  rewrite Z.quot_opp_l by lia. rewrite Z.quot_div_nonneg by lia. reflexivity.
Qed.

Lemma Qtruncate_comp (a b : Q) : (a == b)%Q -> Qtruncate a = Qtruncate b.
Proof.
  intros E. destruct (Qlt_le_dec a 0) as [Ha | Ha].
  - rewrite !Qtruncate_nonpos; [now rewrite E | rewrite <- E |]; lra.
  - rewrite !Qtruncate_nonneg; [now rewrite E | rewrite <- E |]; lra.
Qed.

Lemma Qtruncate_le (a b : Q) : (a <= b)%Q -> Qtruncate a <= Qtruncate b.
Proof.
  intros Hab. destruct (Qlt_le_dec a 0) as [Ha | Ha].
  - destruct (Qlt_le_dec 0 b) as [Hb | Hb].
    + rewrite (Qtruncate_nonpos a), (Qtruncate_nonneg b) by lra.
      assert (Qceiling a <= Qceiling 0) by (apply Qceiling_resp_le; lra).
      assert (Qfloor 0 <= Qfloor b) by (apply Qfloor_resp_le; lra).
      change (Qceiling 0) with 0 in *. change (Qfloor 0) with 0 in *. lia.
    + rewrite !Qtruncate_nonpos by lra. now apply Qceiling_resp_le.
  - rewrite !Qtruncate_nonneg by lra. now apply Qfloor_resp_le.
Qed.

Lemma Qtruncate_Z (z : Z) : Qtruncate (inject_Z z) = z.
Proof. unfold Qtruncate. simpl. apply Z.quot_1_r. Qed.

Lemma Qfloor_unique (q : Q) (k : Z) :
  (inject_Z k <= q)%Q -> (q < inject_Z (k + 1))%Q -> Qfloor q = k.
Proof.
  intros Hlo Hhi.
  assert (H1 : k <= Qfloor q).
  { rewrite <- (Qfloor_Z k). now apply Qfloor_resp_le. }
  assert (H2 : Qfloor q < k + 1).
  { rewrite Zlt_Qlt. apply Qle_lt_trans with q; [apply Qfloor_le | exact Hhi]. }
  lia.
Qed.

Lemma Qceiling_unique (q : Q) (k : Z) :
  (inject_Z (k - 1) < q)%Q -> (q <= inject_Z k)%Q -> Qceiling q = k.
Proof.
  intros Hlo Hhi.
  assert (H1 : Qceiling q <= k).
  { rewrite <- (Qceiling_Z k). now apply Qceiling_resp_le. }
  assert (H2 : k - 1 < Qceiling q).
  { rewrite Zlt_Qlt. apply Qlt_le_trans with q; [exact Hlo | apply Qle_ceiling]. }
  lia.
Qed.

(** An integer offset moves through the two roundings. *)
Lemma Qfloor_shift (k : Z) (q : Q) :
  Qfloor (inject_Z k + q) = k + Qfloor q.
Proof.
  apply Qfloor_unique.
  - rewrite inject_Z_plus. pose proof (Qfloor_le q). lra.
  - rewrite <- Z.add_assoc, inject_Z_plus. pose proof (Qlt_floor q). lra.
Qed.

Lemma Qceiling_shift (k : Z) (q : Q) :
  Qceiling (inject_Z k + q) = k + Qceiling q.
Proof.
  apply Qceiling_unique.
  - replace (k + Qceiling q - 1) with (k + (Qceiling q - 1)) by lia.
    rewrite inject_Z_plus. pose proof (Qceiling_lt q). lra.
  - rewrite inject_Z_plus. pose proof (Qle_ceiling q). lra.
Qed.

(** ** Exact arithmetic: the pipeline in closed form *)

Lemma pulsewidth_exact_unfold (c : Q) :
  pulsewidth c
  = Arduino.map (saturate_long (Qtruncate (c * inject_Z 1000)))
                (-1000) 1000 SERVO_MIN SERVO_MAX.
Proof. unfold pulsewidth. reflexivity. Qed.

Lemma milli_bounds (c : Q) :
  (-1 <= c)%Q -> (c <= 1)%Q -> -1000 <= Qtruncate (c * inject_Z 1000) <= 1000.
Proof.
  intros Hlo Hhi. split.
  - rewrite <- (Qtruncate_Z (-1000)). apply Qtruncate_le.
    change (inject_Z (-1000)) with (-1000 # 1)%Q.
    change (inject_Z 1000) with (1000 # 1)%Q. lra.
  - rewrite <- (Qtruncate_Z 1000) at 2. apply Qtruncate_le.
    change (inject_Z 1000) with (1000 # 1)%Q. lra.
Qed.

(** For a normalized command the pulse width is 1500 plus the command in
    thousandths, truncated toward zero. *)
Lemma pulsewidth_exact (c : Q) :
  (-1 <= c)%Q -> (c <= 1)%Q ->
  pulsewidth c = Qtruncate (c * inject_Z 1000) + 1500.
Proof.
  intros Hlo Hhi. pose proof (milli_bounds c Hlo Hhi) as Hb.
  rewrite pulsewidth_exact_unfold, saturate_small by (widths; lia).
  apply map_pulse. lia.
Qed.

Lemma dutyCycle_of_period `{Double} (pulse : Z) :
  period_us = 3003 -> 0 <= pulse <= 48059 ->
  dutyCycle pulse = pulse * 4095 / 3003.
Proof.
  intros Hper Hp. unfold dutyCycle. rewrite Hper, map_duty by lia.
  apply uint16_small. split; [apply Z.div_pos; lia |].
  apply Z.div_lt_upper_bound; lia.
Qed.

Lemma dutyCycle_exact (pulse : Z) :
  0 <= pulse <= 48059 -> dutyCycle (D := Q) pulse = pulse * 4095 / 3003.
Proof. apply dutyCycle_of_period, period_us_exact. Qed.

Lemma dutyCycle_binary64 (pulse : Z) :
  0 <= pulse <= 48059 -> dutyCycle (D := float) pulse = pulse * 4095 / 3003.
Proof. apply dutyCycle_of_period, period_us_binary64. Qed.

Lemma channelDuty_exact (c : Q) :
  (-1 <= c)%Q -> (c <= 1)%Q ->
  channelDuty c = (Qtruncate (c * inject_Z 1000) + 1500) * 4095 / 3003.
Proof.
  intros Hlo Hhi. pose proof (milli_bounds c Hlo Hhi) as Hb.
  unfold channelDuty. rewrite pulsewidth_exact by assumption.
  rewrite dutyCycle_exact by lia.
  set (p := Qtruncate (c * inject_Z 1000) + 1500) in *.
  assert (0 <= p * 4095 / 3003 <= 3409).
  { split; [apply Z.div_pos; lia |].
    apply Z.lt_succ_r, Z.div_lt_upper_bound; lia. }
  rewrite ledcDuty_4095, uint32_small by lia. lia.
Qed.

Lemma channelDuty_comp (a b : Q) : (a == b)%Q -> channelDuty a = channelDuty b.
Proof.
  intros E. unfold channelDuty. rewrite !pulsewidth_exact_unfold.
  rewrite (Qtruncate_comp (a * inject_Z 1000) (b * inject_Z 1000)).
  - reflexivity.
  - now rewrite E.
Qed.

(** ** Exact arithmetic: the mix *)

Lemma exact_abs (x : Q) : (Arduino.abs x == Qabs x)%Q.
Proof.
  unfold Arduino.abs. cbn [dlt exact double_of_int dneg]. unfold Qltb.
  change (inject_Z 0) with 0%Q.
  destruct (Qcompare 0 x) eqn:E.
  - apply Qeq_alt in E. symmetry. rewrite Qabs_neg; lra.
  - apply Qlt_alt in E. symmetry. apply Qabs_pos. lra.
  - apply Qgt_alt in E. symmetry. apply Qabs_neg. lra.
Qed.

Lemma exact_max (a b : Q) : Arduino.max a b = Qmax a b.
Proof.
  unfold Arduino.max. cbn [dlt exact]. unfold Qltb, Qmax, GenericMinMax.gmax.
  destruct (Qcompare a b); reflexivity.
Qed.

Lemma maxValue_exact (f s : Q) :
  (maxValue f s == Qmax (Qmax (Qabs (f + s)) (Qabs (f - s))) 1)%Q.
Proof.
  unfold maxValue, mixLeft, mixRight. cbn [dadd dsub double_of_int exact].
  rewrite !exact_max. change (inject_Z 1) with 1%Q.
  apply Q.max_compat; [| reflexivity].
  apply Q.max_compat; apply exact_abs.
Qed.

Lemma maxValue_bounds (f s : Q) :
  (1 <= maxValue f s)%Q
  /\ (- maxValue f s <= f + s)%Q /\ (f + s <= maxValue f s)%Q
  /\ (- maxValue f s <= f - s)%Q /\ (f - s <= maxValue f s)%Q.
Proof.
  pose proof (maxValue_exact f s) as E.
  pose proof (Q.le_max_r (Qmax (Qabs (f + s)) (Qabs (f - s))) 1) as H1.
  pose proof (Q.le_max_l (Qmax (Qabs (f + s)) (Qabs (f - s))) 1) as H2.
  pose proof (Q.le_max_l (Qabs (f + s)) (Qabs (f - s))) as H3.
  pose proof (Q.le_max_r (Qabs (f + s)) (Qabs (f - s))) as H4.
  assert (Hl : (Qabs (f + s) <= maxValue f s)%Q) by (rewrite E; lra).
  assert (Hr : (Qabs (f - s) <= maxValue f s)%Q) by (rewrite E; lra).
  apply Qabs_Qle_condition in Hl. apply Qabs_Qle_condition in Hr.
  rewrite E at 1. lra.
Qed.

Lemma maxValue_steering_opp (f s : Q) :
  (maxValue f (- s) == maxValue f s)%Q.
Proof.
  rewrite !maxValue_exact. apply Q.max_compat; [| reflexivity].
  rewrite Q.max_comm. apply Q.max_compat; apply Qabs_wd; ring.
Qed.

Lemma normalized_exact_unfold (f s : Q) :
  normalizedLeft f s = ((f + s) / maxValue f s)%Q
  /\ normalizedRight f s = ((f - s) / maxValue f s)%Q.
Proof. split; reflexivity. Qed.

Lemma normalized_steering_opp (f s : Q) :
  (normalizedLeft f s == normalizedRight f (- s))%Q
  /\ (normalizedRight f s == normalizedLeft f (- s))%Q.
Proof.
  destruct (normalized_exact_unfold f s) as [-> ->].
  destruct (normalized_exact_unfold f (- s)) as [-> ->].
  pose proof (maxValue_bounds f s) as [Hm _].
  rewrite !maxValue_steering_opp.
  split; field; lra.
Qed.

(** ** binary64: the mix under a change of sign of the steering *)

Lemma SFadd_opp_r (x y : spec_float) :
  SF64add x (SFopp y) = SF64sub x y.
Proof.
  unfold SF64add, SF64sub.
  destruct x as [sx | sx | | sx mx ex], y as [sy | sy | | sy my ey];
    try reflexivity;
    destruct sx, sy; reflexivity.
Qed.

Lemma SFsub_opp_r (x y : spec_float) :
  SF64sub x (SFopp y) = SF64add x y.
Proof.
  unfold SF64add, SF64sub.
  destruct x as [sx | sx | | sx mx ex], y as [sy | sy | | sy my ey];
    try reflexivity;
    destruct sx, sy; reflexivity.
Qed.


(** Rounding never produces NaN. *)

Lemma shr_1_nonneg (mrs : shr_record) : 0 <= shr_m mrs -> 0 <= shr_m (shr_1 mrs).
Proof.
  destruct mrs as [m r s]. simpl. intros Hm.
  destruct m as [| [p | p |] | p]; simpl; lia.
Qed.

Lemma iter_shr_1_nonneg (p : positive) (mrs : shr_record) :
  0 <= shr_m mrs -> 0 <= shr_m (iter_pos shr_1 p mrs).
Proof.
  revert mrs. induction p as [p IH | p IH |]; intros mrs Hm; simpl.
  - apply IH, IH, shr_1_nonneg, Hm.
  - apply IH, IH, Hm.
  - apply shr_1_nonneg, Hm.
Qed.

Lemma shr_fexp_nonneg (m e : Z) (l : location) :
  0 <= m -> 0 <= shr_m (fst (shr_fexp prec emax m e l)).
Proof.
  intros Hm. unfold shr_fexp, shr.
  assert (H0 : 0 <= shr_m (shr_record_of_loc m l)).
  { destruct l as [| []]; simpl; exact Hm. }
  destruct (fexp prec emax (Zdigits2 m + e) - e); simpl;
    [exact H0 | apply iter_shr_1_nonneg, H0 | exact H0].
Qed.

Lemma round_nearest_even_nonneg (m : Z) (l : location) :
  0 <= m -> 0 <= round_nearest_even m l.
Proof.
  intros Hm. destruct l as [| []]; simpl; try lia.
  destruct (Z.even m); lia.
Qed.

Lemma binary_round_aux_not_nan (sx : bool) (mx ex : Z) (lx : location) :
  0 <= mx -> binary_round_aux prec emax sx mx ex lx <> S754_nan.
Proof.
  intros Hm. unfold binary_round_aux.
  pose proof (shr_fexp_nonneg mx ex lx Hm) as H1.
  destruct (shr_fexp prec emax mx ex lx) as [mrs1 e1]. simpl in H1.
  pose proof (shr_fexp_nonneg
                (round_nearest_even (shr_m mrs1) (loc_of_shr_record mrs1))
                e1 loc_Exact
                (round_nearest_even_nonneg _ _ H1)) as H2.
  destruct (shr_fexp prec emax _ e1 loc_Exact) as [mrs2 e2]. simpl in H2.
  destruct (shr_m mrs2) as [| m | m]; try discriminate; try lia.
  destruct (e2 <=? emax - prec); discriminate.
Qed.

Lemma binary_normalize_not_nan (m e : Z) (sz : bool) :
  binary_normalize prec emax m e sz <> S754_nan.
Proof.
  unfold binary_normalize, binary_round.
  destruct m as [| p | p]; [discriminate | |];
    destruct (shl_align _ _ _) as [mz ez]; apply binary_round_aux_not_nan; lia.
Qed.

Lemma SFsub_nan_SFadd (x y : spec_float) :
  SF64sub x y = S754_nan -> nan_or_inf (SF64add x y).
Proof.
  unfold SF64add, SF64sub, nan_or_inf.
  destruct x as [sx | sx | | sx mx ex], y as [sy | sy | | sy my ey];
    try (destruct sx; discriminate); try (destruct sy; discriminate);
    try (intros _; left; reflexivity);
    try (destruct sx, sy; simpl; try discriminate; intros _; right; eexists; reflexivity).
  unfold SFsub. intros E. now apply binary_normalize_not_nan in E.
Qed.

Lemma SFadd_nan_SFsub (x y : spec_float) :
  SF64add x y = S754_nan -> nan_or_inf (SF64sub x y).
Proof.
  unfold SF64add, SF64sub, nan_or_inf.
  destruct x as [sx | sx | | sx mx ex], y as [sy | sy | | sy my ey];
    try (destruct sx; discriminate); try (destruct sy; discriminate);
    try (intros _; left; reflexivity);
    try (destruct sx, sy; simpl; try discriminate; intros _; right; eexists; reflexivity).
  unfold SFadd. intros E. now apply binary_normalize_not_nan in E.
Qed.

(** Comparison. *)

Lemma SFcompare_antisym (p q : spec_float) :
  SFcompare q p = option_map CompOpp (SFcompare p q).
Proof.
  destruct p as [sp | sp | | sp mp ep], q as [sq | sq | | sq mq eq];
    try reflexivity; try (destruct sp; reflexivity);
    try (destruct sq; reflexivity); try (destruct sp, sq; reflexivity).
  simpl. rewrite (Z.compare_antisym ep eq).
  destruct sp, sq; try reflexivity;
    destruct (ep ?= eq); simpl; try reflexivity;
    rewrite (Pos.compare_cont_antisym mp mq Eq); reflexivity.
Qed.

Lemma SFcompare_Eq (p q : spec_float) :
  SFcompare p q = Some Eq -> p = q \/ (is_zero p /\ is_zero q).
Proof.
  unfold is_zero.
  destruct p as [sp | sp | | sp mp ep], q as [sq | sq | | sq mq eq]; simpl;
    try discriminate;
    try (destruct sp; discriminate); try (destruct sq; discriminate).
  - intros _. right. split; eexists; reflexivity.
  - destruct sp, sq; try discriminate; intros _; left; reflexivity.
  - intros E. left.
    assert (Hc : (ep ?= eq) = Eq /\ Pos.compare_cont Eq mp mq = Eq /\ sp = sq).
    { destruct sp, sq; try discriminate; destruct (ep ?= eq); try discriminate;
        repeat split; try reflexivity.
      - destruct (Pos.compare_cont Eq mp mq); try discriminate; reflexivity.
      - injection E as E. exact E. }
    destruct Hc as (He & Hm & Hs).
    apply Z.compare_eq in He. apply Pos.compare_eq in Hm. congruence.
Qed.

Lemma SFcompare_None (p q : spec_float) :
  SFcompare p q = None -> p = S754_nan \/ q = S754_nan.
Proof.
  destruct p as [sp | sp | | sp mp ep], q as [sq | sq | | sq mq eq]; simpl;
    try discriminate; auto.
Qed.

Lemma SFabs_macro_nan (x : spec_float) : SFabs_macro x = S754_nan -> x = S754_nan.
Proof.
  destruct x as [s | s | | s m e]; try reflexivity; destruct s; discriminate.
Qed.

Lemma SFmax_std_zero_one (x : spec_float) : is_zero x -> SFmax_std x SFone = SFone.
Proof. intros [s ->]. reflexivity. Qed.

(** The divisor does not depend on the order of the two wheel commands,
    as far as the quotient is concerned. *)
Lemma SFdiv_maxValue_swap (x y z : spec_float) :
  (y = S754_nan -> nan_or_inf x) -> (x = S754_nan -> nan_or_inf y) ->
  z = x \/ z = y ->
  SF64div z (SFmaxValue x y) = SF64div z (SFmaxValue y x).
Proof.
  intros Hy Hx Hz. unfold SFmaxValue.
  destruct (SFcompare (SFabs_macro x) (SFabs_macro y)) as [c |] eqn:Ec.
  - pose proof (SFcompare_antisym (SFabs_macro x) (SFabs_macro y)) as Ea.
    rewrite Ec in Ea. simpl in Ea.
    unfold SFmax_std at 2 4. unfold SFltb. rewrite Ec, Ea.
    destruct c; simpl; try reflexivity.
    destruct (SFcompare_Eq _ _ Ec) as [E | [Zx Zy]].
    + now rewrite E.
    + now rewrite !SFmax_std_zero_one.
  - apply SFcompare_None in Ec. destruct Ec as [E | E];
      apply SFabs_macro_nan in E.
    + subst x. destruct (Hx eq_refl) as [-> | [s ->]];
        destruct Hz as [-> | ->]; try reflexivity; destruct s; reflexivity.
    + subst y. destruct (Hy eq_refl) as [-> | [s ->]];
        destruct Hz as [-> | ->]; try reflexivity; destruct s; reflexivity.
Qed.

(** From the primitive operations to their specification. *)

Lemma Prim2SF_abs (x : float) :
  Prim2SF (Arduino.abs x) = SFabs_macro (Prim2SF x).
Proof.
  unfold Arduino.abs, SFabs_macro. cbn [dlt dneg double_of_int binary64].
  rewrite FloatAxioms.ltb_spec.
  change (Prim2SF (float_of_int 0)) with (S754_zero false).
  destruct (SFltb (S754_zero false) (Prim2SF x)); [reflexivity |].
  apply FloatAxioms.opp_spec.
Qed.

Lemma Prim2SF_max (a b : float) :
  Prim2SF (Arduino.max a b) = SFmax_std (Prim2SF a) (Prim2SF b).
Proof.
  unfold Arduino.max, SFmax_std. cbn [dlt binary64]. rewrite FloatAxioms.ltb_spec.
  destruct (SFltb (Prim2SF a) (Prim2SF b)); reflexivity.
Qed.

Lemma Prim2SF_maxValue (f s : float) :
  Prim2SF (maxValue f s)
  = SFmaxValue (SF64add (Prim2SF f) (Prim2SF s))
               (SF64sub (Prim2SF f) (Prim2SF s)).
Proof.
  unfold maxValue, SFmaxValue, mixLeft, mixRight.
  rewrite !Prim2SF_max, !Prim2SF_abs. cbn [dadd dsub double_of_int binary64].
  rewrite FloatAxioms.add_spec, FloatAxioms.sub_spec. reflexivity.
Qed.

Lemma Prim2SF_normalized (f s : float) :
  Prim2SF (normalizedLeft f s)
  = SF64div (SF64add (Prim2SF f) (Prim2SF s))
            (SFmaxValue (SF64add (Prim2SF f) (Prim2SF s))
                        (SF64sub (Prim2SF f) (Prim2SF s)))
  /\ Prim2SF (normalizedRight f s)
     = SF64div (SF64sub (Prim2SF f) (Prim2SF s))
               (SFmaxValue (SF64add (Prim2SF f) (Prim2SF s))
                           (SF64sub (Prim2SF f) (Prim2SF s))).
Proof.
  unfold normalizedLeft, normalizedRight. cbn [ddiv binary64].
  rewrite !FloatAxioms.div_spec, !Prim2SF_maxValue. unfold mixLeft, mixRight.
  cbn [dadd dsub binary64]. rewrite FloatAxioms.add_spec, FloatAxioms.sub_spec. split; reflexivity.
Qed.

(** In binary64, for all doubles, NaN and the infinities included:
    changing the sign of the steering exchanges the two normalized
    commands. *)
Lemma normalized_steering_opp_binary64 (f s : float) :
  normalizedLeft f s = normalizedRight f (- s)%float
  /\ normalizedRight f s = normalizedLeft f (- s)%float.
Proof.
  destruct (Prim2SF_normalized f s) as [El Er].
  destruct (Prim2SF_normalized f (- s)%float) as [El' Er'].
  rewrite FloatAxioms.opp_spec, SFadd_opp_r, SFsub_opp_r in El', Er'.
  split; apply Prim2SF_inj.
  - rewrite El, Er'. apply SFdiv_maxValue_swap;
      [apply SFsub_nan_SFadd | apply SFadd_nan_SFsub | left; reflexivity].
  - rewrite Er, El'. apply SFdiv_maxValue_swap;
      [apply SFsub_nan_SFadd | apply SFadd_nan_SFsub | right; reflexivity].
Qed.

(** ** binary64: division by 1.0 *)

Lemma fexp_eq (e : Z) : fexp prec emax e = Z.max (e - 53) (-1074).
Proof. reflexivity. Qed.

Lemma div_eucl_exact (k : Z) (b : positive) :
  Z.div_eucl (k * Zpos b) (Zpos b) = (k, 0).
Proof.
  pose proof (Z.div_mul k (Zpos b)) as Hq.
  pose proof (Z.mod_mul k (Zpos b)) as Hr.
  unfold Z.div, Z.modulo in Hq, Hr.
  destruct (Z.div_eucl (k * Zpos b) (Zpos b)) as [q r].
  rewrite Hq, Hr by discriminate. reflexivity.
Qed.

(** A canonical mantissa is left as it is by rounding. *)
Lemma binary_round_aux_canonical (sx : bool) (mx : positive) (ex : Z) :
  bounded prec emax mx ex = true ->
  binary_round_aux prec emax sx (Zpos mx) ex loc_Exact = S754_finite sx mx ex.
Proof.
  unfold bounded, canonical_mantissa. intros Hb.
  apply andb_prop in Hb. destruct Hb as [Hc He].
  apply Z.eqb_eq in Hc.
  unfold binary_round_aux, shr_fexp. cbn [Zdigits2 shr_record_of_loc].
  rewrite Hc, Z.sub_diag. cbn [shr shr_m loc_of_shr_record round_nearest_even].
  cbn [Zdigits2 shr_record_of_loc]. rewrite Hc, Z.sub_diag.
  cbn [shr shr_m]. rewrite He. reflexivity.
Qed.

(** So is its double, one exponent lower. *)
Lemma binary_round_aux_double (sx : bool) (mx : positive) (ex : Z) :
  bounded prec emax mx ex = true ->
  binary_round_aux prec emax sx (Zpos (xO mx)) (ex - 1) loc_Exact
  = S754_finite sx mx ex.
Proof.
  unfold bounded, canonical_mantissa. intros Hb.
  apply andb_prop in Hb. destruct Hb as [Hc He].
  apply Z.eqb_eq in Hc.
  unfold binary_round_aux, shr_fexp.
  cbn [Zdigits2 shr_record_of_loc digits2_pos].
  replace (Zpos (Pos.succ (digits2_pos mx)) + (ex - 1))
    with (Zpos (digits2_pos mx) + ex) by lia.
  rewrite Hc. replace (ex - (ex - 1)) with 1 by lia.
  cbn [shr iter_pos shr_1 shr_m shr_r shr_s orb loc_of_shr_record
       round_nearest_even].
  replace (ex - 1 + 1) with ex by lia.
  cbn [Zdigits2 shr_record_of_loc]. rewrite Hc, Z.sub_diag.
  cbn [shr shr_m]. rewrite He. reflexivity.
Qed.

Lemma SFdiv_one (x : spec_float) :
  valid_binary x = true -> SF64div x SFone = x.
Proof.
  destruct x as [sx | sx | | sx mx ex]; try (intros _; destruct sx; reflexivity);
    try reflexivity.
  unfold valid_binary. cbn [SpecFloat.valid_binary]. intros Hb.
  unfold SF64div, SFone, SFdiv. rewrite xorb_false_r.
  assert (Hc : fexp prec emax (Zpos (digits2_pos mx) + ex) = ex).
  { unfold bounded, canonical_mantissa in Hb.
    apply andb_prop in Hb. apply Z.eqb_eq, Hb. }
  rewrite fexp_eq in Hc.
  unfold SFdiv_core_binary.
  change (Zdigits2 4503599627370496) with 53.
  cbn [Zdigits2]. rewrite fexp_eq.
  destruct (Z.eq_dec ex (-1074)) as [Emin | Enorm].
  - (* the least exponent *)
    replace (Z.min (Z.max (Zpos (digits2_pos mx) + ex - (53 + -52) - 53) (-1074))
                   (ex - -52)) with ex by lia.
    replace (ex - -52 - ex) with 52 by lia.
    rewrite Z.shiftl_mul_pow2 by lia.
    change (2 ^ 52) with 4503599627370496.
    rewrite div_eucl_exact. cbv iota beta.
    change (new_location 4503599627370496 0) with loc_Exact.
    now apply binary_round_aux_canonical.
  - replace (Z.min (Z.max (Zpos (digits2_pos mx) + ex - (53 + -52) - 53) (-1074))
                   (ex - -52)) with (ex - 1) by lia.
    replace (ex - -52 - (ex - 1)) with 53 by lia.
    rewrite Z.shiftl_mul_pow2 by lia.
    replace (Zpos mx * 2 ^ 53) with (Zpos (xO mx) * 4503599627370496) by lia.
    rewrite div_eucl_exact. cbv iota beta.
    change (new_location 4503599627370496 0) with loc_Exact.
    now apply binary_round_aux_double.
Qed.

Lemma SFmaxValue_one (p q : spec_float) :
  SFleb p SFone = true -> SFleb q SFone = true ->
  SFmax_std (SFmax_std p q) SFone = SFone.
Proof.
  intros Hp Hq.
  assert (Hm : SFleb (SFmax_std p q) SFone = true)
    by (unfold SFmax_std; destruct (SFltb p q); assumption).
  revert Hm. generalize (SFmax_std p q). intros m Hm.
  unfold SFmax_std, SFltb. unfold SFleb in Hm.
  destruct (SFcompare m SFone) as [[| |] |] eqn:Ec; try discriminate;
    try reflexivity.
  destruct (SFcompare_Eq _ _ Ec) as [E | [_ [z Ez]]];
    [exact E | discriminate Ez].
Qed.

(** In binary64, when neither mixed command exceeds 1 in absolute value,
    the divisor is exactly 1.0 and both commands are passed on as they
    are. *)
Lemma passthrough_binary64 (f s : float) :
  PrimFloat.leb (Arduino.abs (mixLeft f s)) 1 = true ->
  PrimFloat.leb (Arduino.abs (mixRight f s)) 1 = true ->
  maxValue f s = 1%float
  /\ normalizedLeft f s = mixLeft f s
  /\ normalizedRight f s = mixRight f s.
Proof.
  intros Hl Hr. rewrite FloatAxioms.leb_spec, Prim2SF_abs in Hl, Hr.
  change (Prim2SF 1) with SFone in Hl, Hr.
  assert (Em : maxValue f s = 1%float).
  { apply Prim2SF_inj. unfold maxValue.
    rewrite !Prim2SF_max, !Prim2SF_abs.
    change (Prim2SF (double_of_int 1)) with SFone.
    change (Prim2SF 1) with SFone. now apply SFmaxValue_one. }
  split; [exact Em |].
  unfold normalizedLeft, normalizedRight. rewrite Em. cbn [ddiv binary64].
  split; apply Prim2SF_inj; rewrite FloatAxioms.div_spec;
    change (Prim2SF 1) with SFone; apply SFdiv_one, Prim2SF_valid.
Qed.

(** ** binary64: the product by 1000 and its integer part *)

Lemma rne_bounds (W u : Z) : W / 2 ^ u <= rne W u <= W / 2 ^ u + 1.
Proof.
  unfold rne. destruct (2 ^ u <? 2 * (W mod 2 ^ u)); [lia |].
  destruct (2 * (W mod 2 ^ u) =? 2 ^ u); [| lia].
  destruct (Z.even (W / 2 ^ u)); lia.
Qed.

Lemma pow2_pred (k : Z) : 0 < k -> 2 ^ k = 2 ^ (k - 1) * 2.
Proof.
  intros Hk. replace k with (k - 1 + 1) at 1 by lia.
  rewrite Z.pow_add_r by lia. reflexivity.
Qed.

Lemma shr_1_spec (mrs : shr_record) :
  0 <= shr_m mrs ->
  shr_1 mrs = {| shr_m := shr_m mrs / 2;
                 shr_r := Z.odd (shr_m mrs);
                 shr_s := shr_r mrs || shr_s mrs |}.
Proof.
  destruct mrs as [m r s]. cbn [shr_m shr_r shr_s]. intros Hm.
  rewrite <- Z.div2_div.
  destruct m as [| [p | p |] | p]; try reflexivity. lia.
Qed.

Lemma shifted_0 (M : Z) :
  shifted M 0 = {| shr_m := M; shr_r := false; shr_s := false |}.
Proof.
  unfold shifted. cbn [Z.ltb Z.compare]. rewrite !andb_false_r.
  now rewrite Z.pow_0_r, Z.div_1_r.
Qed.

Lemma shr_1_shifted (M k : Z) :
  0 <= M -> 0 <= k -> shr_1 (shifted M k) = shifted M (k + 1).
Proof.
  intros HM Hk.
  assert (HP : 0 < 2 ^ k) by (apply Z.pow_pos_nonneg; lia).
  rewrite shr_1_spec by (cbn [shifted shr_m]; apply Z.div_pos; lia).
  unfold shifted. cbn [shr_m shr_r shr_s].
  replace (k + 1 - 1) with k by lia.
  assert (Hlt : (0 <? k + 1) = true) by (apply Z.ltb_lt; lia).
  rewrite Hlt, !andb_true_r. f_equal.
  - rewrite Z.div_div by lia. rewrite (Z.pow_add_r 2 k 1) by lia. reflexivity.
  - destruct (Z.eq_dec k 0) as [-> | Hk0].
    + cbn [Z.ltb Z.compare]. rewrite !andb_false_r.
      now rewrite Z.pow_0_r, Z.mod_1_r.
    + assert (Hk1 : (0 <? k) = true) by (apply Z.ltb_lt; lia).
      rewrite Hk1, !andb_true_r.
      assert (HP1 : 0 < 2 ^ (k - 1)) by (apply Z.pow_pos_nonneg; lia).
      assert (E : M mod 2 ^ k
                  = M mod 2 ^ (k - 1) + 2 ^ (k - 1) * ((M / 2 ^ (k - 1)) mod 2)).
      { rewrite (pow2_pred k) by lia. apply Z.rem_mul_r; lia. }
      pose proof (Z.mod_pos_bound M (2 ^ (k - 1)) HP1) as Hb.
      rewrite E, (Zmod_odd (M / 2 ^ (k - 1))).
      destruct (Z.odd (M / 2 ^ (k - 1))); cbn [orb].
      * symmetry. apply negb_true_iff, Z.eqb_neq. lia.
      * now rewrite Z.mul_0_r, Z.add_0_r.
Qed.

Lemma iter_shr_1_shifted (p : positive) (M k : Z) :
  0 <= M -> 0 <= k ->
  iter_pos shr_1 p (shifted M k) = shifted M (k + Zpos p).
Proof.
  intros HM. revert k. induction p as [p IH | p IH |]; intros k Hk;
    cbn [iter_pos].
  - rewrite shr_1_shifted, !IH by lia. f_equal. lia.
  - rewrite !IH by lia. f_equal. lia.
  - now apply shr_1_shifted.
Qed.

(** Rounding the shifted record to nearest even is [rne]. *)
Lemma round_shifted (M n : Z) :
  0 <= M -> 0 <= n ->
  round_nearest_even (shr_m (shifted M n)) (loc_of_shr_record (shifted M n))
  = rne M n.
Proof.
  intros HM Hn. unfold rne, shifted, loc_of_shr_record. cbn [shr_m].
  assert (HP : 0 < 2 ^ n) by (apply Z.pow_pos_nonneg; lia).
  destruct (Z.eq_dec n 0) as [-> | Hn0].
  - cbn [Z.ltb Z.compare]. rewrite !andb_false_r.
    rewrite Z.pow_0_r, Z.mod_1_r. reflexivity.
  - assert (Hlt : (0 <? n) = true) by (apply Z.ltb_lt; lia).
    rewrite Hlt, !andb_true_r.
    assert (HP1 : 0 < 2 ^ (n - 1)) by (apply Z.pow_pos_nonneg; lia).
    assert (E2 : 2 ^ n = 2 * 2 ^ (n - 1)).
    { rewrite (pow2_pred n) by lia. lia. }
    assert (E : M mod 2 ^ n
                = M mod 2 ^ (n - 1) + 2 ^ (n - 1) * ((M / 2 ^ (n - 1)) mod 2)).
    { rewrite E2, (Z.mul_comm 2). apply Z.rem_mul_r; lia. }
    pose proof (Z.mod_pos_bound M (2 ^ (n - 1)) HP1) as Hb.
    rewrite E, (Zmod_odd (M / 2 ^ (n - 1))).
    destruct (Z.odd (M / 2 ^ (n - 1)));
      destruct (Z.eqb_spec (M mod 2 ^ (n - 1)) 0) as [Z0 | NZ]; cbn [negb];
      cbn [round_nearest_even].
    + rewrite Z0.
      destruct (Z.ltb_spec (2 ^ n) (2 * (0 + 2 ^ (n - 1) * 1))); [lia |].
      destruct (Z.eqb_spec (2 * (0 + 2 ^ (n - 1) * 1)) (2 ^ n)); [| lia].
      reflexivity.
    + destruct (Z.ltb_spec (2 ^ n)
                  (2 * (M mod 2 ^ (n - 1) + 2 ^ (n - 1) * 1))); [| lia].
      reflexivity.
    + rewrite Z0.
      destruct (Z.ltb_spec (2 ^ n) (2 * (0 + 2 ^ (n - 1) * 0))); [lia |].
      destruct (Z.eqb_spec (2 * (0 + 2 ^ (n - 1) * 0)) (2 ^ n)); [lia |].
      reflexivity.
    + destruct (Z.ltb_spec (2 ^ n)
                  (2 * (M mod 2 ^ (n - 1) + 2 ^ (n - 1) * 0))); [lia |].
      destruct (Z.eqb_spec (2 * (M mod 2 ^ (n - 1) + 2 ^ (n - 1) * 0)) (2 ^ n));
        [lia |].
      reflexivity.
Qed.

Lemma shr_shifted (M e n : Z) :
  0 <= M -> 0 <= n ->
  shr {| shr_m := M; shr_r := false; shr_s := false |} e n
  = (shifted M n, e + n).
Proof.
  intros HM Hn. rewrite <- shifted_0. unfold shr.
  destruct n as [| p | p]; [| | lia].
  - now rewrite Z.add_0_r.
  - rewrite iter_shr_1_shifted by lia. reflexivity.
Qed.

Lemma digits2_pos_bounds (p : positive) :
  2 ^ (Zpos (digits2_pos p) - 1) <= Zpos p < 2 ^ Zpos (digits2_pos p).
Proof.
  induction p as [p IH | p IH |]; cbn [digits2_pos].
  - rewrite Pos2Z.inj_succ, Z.pow_succ_r, Pos2Z.inj_xI by lia.
    replace (Z.succ (Zpos (digits2_pos p)) - 1) with (Zpos (digits2_pos p)) by lia.
    pose proof (pow2_pred (Zpos (digits2_pos p)) ltac:(lia)). lia.
  - rewrite Pos2Z.inj_succ, Z.pow_succ_r by lia.
    replace (Z.succ (Zpos (digits2_pos p)) - 1) with (Zpos (digits2_pos p)) by lia.
    pose proof (pow2_pred (Zpos (digits2_pos p)) ltac:(lia)). lia.
  - cbn. lia.
Qed.

Lemma SFtruncate_finite (s : bool) (m : positive) (t : Z) :
  t < 0 -> SFtruncate (S754_finite s m t) = signed s (Zpos m / 2 ^ (- t)).
Proof.
  intros Ht. destruct t as [| p | p]; try lia.
  cbn [SFtruncate]. rewrite Z.shiftr_div_pow2 by lia. reflexivity.
Qed.

Lemma round_shift_facts (M E : Z) :
  2 ^ 52 <= M -> M < 2 ^ 106 ->
  let n := round_shift M E in
  0 <= n /\ - 1074 - E <= n /\ M < 2 ^ (n + 53)
  /\ (- 1074 - E < n -> 2 ^ (n + 52) <= M)
  /\ E + n <= Z.max (E + 53) (-1074).
Proof.
  intros Hlo Hhi n. unfold n, round_shift. rewrite fexp_eq.
  destruct M as [| p | p]; try lia. cbn [Zdigits2].
  pose proof (digits2_pos_bounds p) as [Dl Du].
  set (d := Zpos (digits2_pos p)) in *.
  assert (Hd53 : 53 <= d).
  { destruct (Z_lt_ge_dec d 53) as [H | H]; [| lia].
    assert (2 ^ d <= 2 ^ 52) by (apply Z.pow_le_mono_r; lia). lia. }
  assert (Hd106 : d <= 106).
  { destruct (Z_le_gt_dec d 106) as [H | H]; [lia |].
    assert (2 ^ 106 <= 2 ^ (d - 1)) by (apply Z.pow_le_mono_r; lia). lia. }
  repeat split; try lia.
  - apply Z.lt_le_trans with (2 ^ d); [exact Du |].
    apply Z.pow_le_mono_r; lia.
  - intros Hn. apply Z.le_trans with (2 ^ (d - 1)); [| exact Dl].
    apply Z.pow_le_mono_r; lia.
Qed.

(** The integer part of a product rounded to binary64. *)
Lemma round_aux_truncate (s : bool) (M E : Z) :
  2 ^ 52 <= M -> M < 2 ^ 106 -> E <= -95 ->
  SFtruncate (binary_round_aux prec emax s M E loc_Exact)
  = signed s (rne M (round_shift M E) / 2 ^ (- (E + round_shift M E))).
Proof.
  intros Hlo Hhi HE.
  pose proof (round_shift_facts M E Hlo Hhi) as (Hn0 & Hn1 & Hn2 & _ & Hn4).
  cbv zeta in *. set (n := round_shift M E) in *.
  assert (HM : 0 <= M) by lia.
  unfold binary_round_aux, shr_fexp. fold (round_shift M E). fold n.
  cbn [shr_record_of_loc]. rewrite (shr_shifted M E n HM Hn0).
  rewrite (round_shifted M n HM Hn0).
  set (t := E + n) in *. assert (Ht : -1074 <= t <= -42) by lia.
  assert (HP : 0 < 2 ^ n) by (apply Z.pow_pos_nonneg; lia).
  assert (Hq : 0 <= M / 2 ^ n < 2 ^ 53).
  { split; [apply Z.div_pos; lia |].
    apply Z.div_lt_upper_bound; [exact HP |].
    rewrite <- Z.pow_add_r by lia. exact Hn2. }
  pose proof (rne_bounds M n) as Hr.
  set (m2 := rne M n) in *.
  cbn [shr_record_of_loc]. rewrite fexp_eq.
  destruct m2 as [| p | p] eqn:Em2; try lia.
  - (* rounded to zero *)
    cbn [Zdigits2]. rewrite Z.add_0_l.
    destruct (Z.max (t - 53) (-1074) - t) as [| q | q] eqn:En2; try lia;
      cbn [shr shr_m SFtruncate]; destruct s; reflexivity.
  - cbn [Zdigits2].
    pose proof (digits2_pos_bounds p) as [Dl Du].
    set (d := Zpos (digits2_pos p)) in *.
    destruct (Z.eq_dec (Zpos p) (2 ^ 53)) as [Etop | Ntop].
    + (* rounded up to the next binade *)
      assert (Hd : d = 54).
      { assert (Ha : ~ d <= 53).
        { intros Hc. assert (2 ^ d <= 2 ^ 53) by (apply Z.pow_le_mono_r; lia).
          lia. }
        assert (Hb : ~ 55 <= d).
        { intros Hc. assert (2 ^ 54 <= 2 ^ (d - 1))
            by (apply Z.pow_le_mono_r; lia). lia. }
        lia. }
      rewrite Hd. replace (Z.max (54 + t - 53) (-1074) - t) with 1 by lia.
      rewrite shr_shifted by lia. cbn [fst snd shifted shr_m].
      rewrite Etop. change (2 ^ 53 / 2 ^ 1) with (Zpos 4503599627370496).
      cbv iota beta.
      assert (Hle : (t + 1 <=? emax - prec) = true)
        by (apply Z.leb_le; change (emax - prec) with 971; lia).
      rewrite Hle, SFtruncate_finite by lia. f_equal.
      replace (- t) with (1 + - (t + 1)) by lia.
      rewrite Z.pow_add_r by lia.
      change (2 ^ 53) with (2 ^ 1 * 4503599627370496).
      rewrite Z.div_mul_cancel_l; [reflexivity | | lia].
      apply Z.pow_nonzero; lia.
    + assert (Hd : d <= 53).
      { destruct (Z_le_gt_dec d 53) as [H | H]; [exact H |].
        assert (2 ^ 53 <= 2 ^ (d - 1)) by (apply Z.pow_le_mono_r; lia). lia. }
      destruct (Z.max (d + t - 53) (-1074) - t) as [| q | q] eqn:En2;
        try lia; cbn [shr shr_m]; cbv iota beta.
      all: assert (Hle : (t <=? emax - prec) = true)
        by (apply Z.leb_le; change (emax - prec) with 971; lia).
      all: rewrite Hle, SFtruncate_finite by lia; reflexivity.
Qed.
Lemma rne_mono (u W1 W2 : Z) :
  0 <= u -> W1 <= W2 -> rne W1 u <= rne W2 u.
Proof.
  intros Hu HW.
  assert (HP : 0 < 2 ^ u) by (apply Z.pow_pos_nonneg; lia).
  pose proof (Z.div_le_mono W1 W2 (2 ^ u) HP HW) as Hq.
  destruct (Z.eq_dec (W1 / 2 ^ u) (W2 / 2 ^ u)) as [E | N].
  - pose proof (Z.div_mod W1 (2 ^ u)) as D1.
    pose proof (Z.div_mod W2 (2 ^ u)) as D2.
    assert (Hr : W1 mod 2 ^ u <= W2 mod 2 ^ u) by (rewrite E in D1; lia).
    unfold rne. rewrite E.
    destruct (Z.ltb_spec (2 ^ u) (2 * (W1 mod 2 ^ u)));
      destruct (Z.ltb_spec (2 ^ u) (2 * (W2 mod 2 ^ u))); try lia;
      destruct (Z.eqb_spec (2 * (W1 mod 2 ^ u)) (2 ^ u));
      destruct (Z.eqb_spec (2 * (W2 mod 2 ^ u)) (2 ^ u)); try lia;
      destruct (Z.even (W2 / 2 ^ u)); lia.
  - pose proof (rne_bounds W1 u). pose proof (rne_bounds W2 u). lia.
Qed.
Lemma rounded_mono (u0 W1 u1 W2 u2 : Z) :
  0 <= u0 -> 0 <= W1 <= W2 -> fits u0 W1 u1 -> fits u0 W2 u2 ->
  rne W1 u1 * 2 ^ u1 <= rne W2 u2 * 2 ^ u2.
Proof.
  intros H0 HW (L1 & U1 & N1) (L2 & U2 & N2).
  assert (Hle : u1 <= u2).
  { destruct (Z_le_gt_dec u1 u2) as [H | H]; [exact H |].
    assert (2 ^ (u2 + 53) <= 2 ^ (u1 + 52)) by (apply Z.pow_le_mono_r; lia).
    specialize (N1 ltac:(lia)). lia. }
  destruct (Z.eq_dec u1 u2) as [E | N].
  - subst u2. apply Z.mul_le_mono_nonneg_r; [apply Z.pow_nonneg; lia |].
    apply rne_mono; lia.
  - assert (P1 : 0 < 2 ^ u1) by (apply Z.pow_pos_nonneg; lia).
    assert (P2 : 0 < 2 ^ u2) by (apply Z.pow_pos_nonneg; lia).
    specialize (N2 ltac:(lia)).
    (* the first is at most 2^(u1+53), the second at least 2^(u2+52) *)
    assert (Q1 : W1 / 2 ^ u1 < 2 ^ 53).
    { apply Z.div_lt_upper_bound; [exact P1 |].
      rewrite <- Z.pow_add_r by lia. now rewrite Z.add_comm in U1 |- *. }
    assert (Q2 : 2 ^ 52 <= W2 / 2 ^ u2).
    { apply Z.div_le_lower_bound; [exact P2 |].
      rewrite <- Z.pow_add_r by lia. now rewrite Z.add_comm in N2 |- *. }
    pose proof (rne_bounds W1 u1) as B1. pose proof (rne_bounds W2 u2) as B2.
    apply Z.le_trans with (2 ^ 53 * 2 ^ u1).
    + apply Z.mul_le_mono_nonneg_r; lia.
    + apply Z.le_trans with (2 ^ 52 * 2 ^ u2).
      * rewrite <- !Z.pow_add_r by lia. apply Z.pow_le_mono_r; lia.
      * apply Z.mul_le_mono_nonneg_r; lia.
Qed.

(** Scaling numerator and divisor by a power of two does not change the
    rounding. *)
Lemma rne_scale (M n k : Z) :
  0 <= n -> 0 <= k -> rne (M * 2 ^ k) (n + k) = rne M n.
Proof.
  intros Hn Hk. unfold rne.
  assert (Pn : 0 < 2 ^ n) by (apply Z.pow_pos_nonneg; lia).
  assert (Pk : 0 < 2 ^ k) by (apply Z.pow_pos_nonneg; lia).
  rewrite Z.pow_add_r by lia.
  rewrite Z.div_mul_cancel_r by lia.
  rewrite Z.mul_mod_distr_r by lia.
  set (q := M / 2 ^ n). set (r := M mod 2 ^ n).
  replace (2 * (r * 2 ^ k)) with (2 * r * 2 ^ k) by lia.
  assert (E1 : (2 ^ n * 2 ^ k <? 2 * r * 2 ^ k) = (2 ^ n <? 2 * r)).
  { destruct (Z.ltb_spec (2 ^ n) (2 * r));
      [apply Z.ltb_lt | apply Z.ltb_ge]; nia. }
  assert (E2 : (2 * r * 2 ^ k =? 2 ^ n * 2 ^ k) = (2 * r =? 2 ^ n)).
  { destruct (Z.eqb_spec (2 * r) (2 ^ n));
      [apply Z.eqb_eq | apply Z.eqb_neq]; nia. }
  now rewrite E1, E2.
Qed.

Lemma bounded_facts (m : positive) (e : Z) :
  bounded prec emax m e = true ->
  -1074 <= e /\ Zpos m < 2 ^ 53 /\ (-1074 < e -> 2 ^ 52 <= Zpos m).
Proof.
  unfold bounded, canonical_mantissa. intros Hb.
  apply andb_prop in Hb. destruct Hb as [Hc _]. apply Z.eqb_eq in Hc.
  rewrite fexp_eq in Hc.
  pose proof (digits2_pos_bounds m) as [Dl Du].
  set (d := Zpos (digits2_pos m)) in *.
  assert (Hd : d <= 53) by lia.
  split; [lia | split].
  - apply Z.lt_le_trans with (2 ^ d); [exact Du |].
    apply Z.pow_le_mono_r; lia.
  - intros He. replace d with 53 in Dl by lia. exact Dl.
Qed.

Lemma SFmul_1000_truncate (s : bool) (m : positive) (e : Z) :
  bounded prec emax m e = true -> e <= -52 ->
  SFtruncate (SF64mul (S754_finite s m e) SF1000)
  = signed s (milli_magnitude m e).
Proof.
  intros Hb He. destruct (bounded_facts m e Hb) as (He0 & Hm & _).
  unfold SF64mul, SFmul, SF1000. rewrite xorb_false_r.
  change (Zpos (m * 8796093022208000)) with (Zpos m * 8796093022208000).
  change (e + -43) with (e - 43).
  apply round_aux_truncate; lia.
Qed.

Lemma milli_magnitude_nonneg (m : positive) (e : Z) :
  0 <= milli_magnitude m e.
Proof.
  unfold milli_magnitude.
  set (M := Zpos m * 8796093022208000). set (E := e - 43).
  pose proof (rne_bounds M (round_shift M E)) as Hr.
  apply Z_div_nonneg_nonneg; [| apply Z.pow_nonneg; lia].
  assert (0 <= M / 2 ^ round_shift M E); [| lia].
  apply Z_div_nonneg_nonneg; [lia | apply Z.pow_nonneg; lia].
Qed.

Lemma pair_le_value (m1 : positive) (e1 : Z) (m2 : positive) (e2 : Z) :
  bounded prec emax m1 e1 = true -> bounded prec emax m2 e2 = true ->
  pair_le m1 e1 m2 e2 ->
  Zpos m1 * 2 ^ (e1 + 1074) <= Zpos m2 * 2 ^ (e2 + 1074).
Proof.
  intros B1 B2 Hle.
  destruct (bounded_facts m1 e1 B1) as (L1 & U1 & _).
  destruct (bounded_facts m2 e2 B2) as (L2 & _ & N2).
  destruct Hle as [Hlt | [-> Hm]].
  - specialize (N2 ltac:(lia)).
    assert (P1 : 0 < 2 ^ (e1 + 1074)) by (apply Z.pow_pos_nonneg; lia).
    assert (P2 : 0 < 2 ^ (e2 + 1074)) by (apply Z.pow_pos_nonneg; lia).
    apply Z.le_trans with (2 ^ 53 * 2 ^ (e1 + 1074)).
    + apply Z.mul_le_mono_nonneg_r; lia.
    + apply Z.le_trans with (2 ^ 52 * 2 ^ (e2 + 1074)).
      * rewrite <- !Z.pow_add_r by lia. apply Z.pow_le_mono_r; lia.
      * apply Z.mul_le_mono_nonneg_r; lia.
  - apply Z.mul_le_mono_nonneg_r; [apply Z.pow_nonneg; lia | lia].
Qed.

(** The integer part of a thousand times a value is monotone on the
    non-negative doubles up to 1. *)
Lemma milli_magnitude_mono (m1 : positive) (e1 : Z) (m2 : positive) (e2 : Z) :
  bounded prec emax m1 e1 = true -> bounded prec emax m2 e2 = true ->
  pair_le m1 e1 m2 e2 -> e2 <= -52 ->
  milli_magnitude m1 e1 <= milli_magnitude m2 e2.
Proof.
  intros B1 B2 Hle He2.
  pose proof (pair_le_value m1 e1 m2 e2 B1 B2 Hle) as HV.
  destruct (bounded_facts m1 e1 B1) as (L1 & U1 & _).
  destruct (bounded_facts m2 e2 B2) as (L2 & U2 & _).
  assert (He1 : e1 <= -52) by (destruct Hle as [? | [? _]]; lia).
  unfold milli_magnitude.
  set (M1 := Zpos m1 * 8796093022208000). set (E1 := e1 - 43).
  set (M2 := Zpos m2 * 8796093022208000). set (E2 := e2 - 43).
  assert (R1 : 2 ^ 52 <= M1 < 2 ^ 106) by (unfold M1; lia).
  assert (R2 : 2 ^ 52 <= M2 < 2 ^ 106) by (unfold M2; lia).
  destruct (round_shift_facts M1 E1 (proj1 R1) (proj2 R1))
    as (A1 & A2 & A3 & A4 & A5).
  destruct (round_shift_facts M2 E2 (proj1 R2) (proj2 R2))
    as (C1 & C2 & C3 & C4 & C5).
  cbv zeta in *.
  set (n1 := round_shift M1 E1) in *. set (n2 := round_shift M2 E2) in *.
  set (k1 := E1 + 1117). set (k2 := E2 + 1117).
  assert (Hk1 : 0 <= k1) by (unfold k1, E1; lia).
  assert (Hk2 : 0 <= k2) by (unfold k2, E2; lia).
  assert (Pk1 : 0 < 2 ^ k1) by (apply Z.pow_pos_nonneg; lia).
  assert (Pk2 : 0 < 2 ^ k2) by (apply Z.pow_pos_nonneg; lia).
  (* both roundings on the common scale 2^-1117 *)
  assert (HO : rne (M1 * 2 ^ k1) (n1 + k1) * 2 ^ (n1 + k1)
               <= rne (M2 * 2 ^ k2) (n2 + k2) * 2 ^ (n2 + k2)).
  { apply (rounded_mono 43); try lia.
    - split; [apply Z.mul_nonneg_nonneg; lia |]. unfold M1, M2, k1, k2, E1, E2.
      replace (e1 - 43 + 1117) with (e1 + 1074) by lia.
      replace (e2 - 43 + 1117) with (e2 + 1074) by lia.
      replace (Zpos m1 * 8796093022208000 * 2 ^ (e1 + 1074))
        with (8796093022208000 * (Zpos m1 * 2 ^ (e1 + 1074))) by ring.
      replace (Zpos m2 * 8796093022208000 * 2 ^ (e2 + 1074))
        with (8796093022208000 * (Zpos m2 * 2 ^ (e2 + 1074))) by ring.
      apply Z.mul_le_mono_nonneg_l; [lia | exact HV].
    - unfold fits. split; [unfold k1, E1; lia | split].
      + replace (n1 + k1 + 53) with (n1 + 53 + k1) by lia.
        rewrite Z.pow_add_r by lia. apply Z.mul_lt_mono_pos_r; lia.
      + intros Hu. replace (n1 + k1 + 52) with (n1 + 52 + k1) by lia.
        rewrite Z.pow_add_r by lia. apply Z.mul_le_mono_nonneg_r; [lia |].
        apply A4. unfold k1, E1 in Hu. unfold E1. lia.
    - unfold fits. split; [unfold k2, E2; lia | split].
      + replace (n2 + k2 + 53) with (n2 + 53 + k2) by lia.
        rewrite Z.pow_add_r by lia. apply Z.mul_lt_mono_pos_r; lia.
      + intros Hu. replace (n2 + k2 + 52) with (n2 + 52 + k2) by lia.
        rewrite Z.pow_add_r by lia. apply Z.mul_le_mono_nonneg_r; [lia |].
        apply C4. unfold k2, E2 in Hu. unfold E2. lia. }
  rewrite !rne_scale in HO by lia.
  (* back to the integer parts *)
  assert (T1 : E1 + n1 <= 0) by (unfold E1 in *; lia).
  assert (T2 : E2 + n2 <= 0) by (unfold E2 in *; lia).
  assert (D : forall r t k, 0 <= k -> t <= 0 -> 0 <= t + 1117 ->
              r / 2 ^ (- t) = r * 2 ^ (t + 1117) / 2 ^ 1117).
  { intros r t k Hk Ht Ht'.
    replace 1117 with (- t + (t + 1117)) at 2 by lia.
    rewrite (Z.pow_add_r 2 (- t) (t + 1117)) by lia.
    rewrite Z.div_mul_cancel_r; [reflexivity | |];
      apply Z.pow_nonzero; lia. }
  rewrite (D _ (E1 + n1) 0), (D _ (E2 + n2) 0) by (unfold E1, E2 in *; lia).
  replace (E1 + n1 + 1117) with (n1 + k1) by (unfold k1; lia).
  replace (E2 + n2 + 1117) with (n2 + k2) by (unfold k2; lia).
  apply Z.div_le_mono; [apply Z.pow_pos_nonneg; lia | exact HO].
Qed.

Ltac leb_false H :=
  solve [unfold SFleb, SFminus_one, SFone in H; cbn [SFcompare] in H;
         discriminate H].

Lemma SFleb_nonneg_pair (m1 : positive) (e1 : Z) (m2 : positive) (e2 : Z) :
  SFleb (S754_finite false m1 e1) (S754_finite false m2 e2) = true ->
  pair_le m1 e1 m2 e2.
Proof.
  unfold SFleb, SFcompare, pair_le.
  destruct (e1 ?= e2) eqn:Ee.
  - apply Z.compare_eq in Ee. intros Hc. right. split; [exact Ee |].
    unfold Pos.le. change (m1 ?= m2)%positive with (Pos.compare_cont Eq m1 m2).
    destruct (Pos.compare_cont Eq m1 m2); discriminate.
  - intros _. left. now apply Z.compare_lt_iff.
  - discriminate.
Qed.

Lemma SFleb_neg_pair (m1 : positive) (e1 : Z) (m2 : positive) (e2 : Z) :
  SFleb (S754_finite true m1 e1) (S754_finite true m2 e2) = true ->
  pair_le m2 e2 m1 e1.
Proof.
  unfold SFleb, SFcompare, pair_le.
  destruct (e1 ?= e2) eqn:Ee.
  - apply Z.compare_eq in Ee. intros Hc. right. split; [now symmetry |].
    unfold Pos.le. rewrite Pos.compare_antisym.
    change (m1 ?= m2)%positive with (Pos.compare_cont Eq m1 m2).
    destruct (Pos.compare_cont Eq m1 m2); discriminate.
  - discriminate.
  - intros _. left. now apply Z.compare_gt_iff.
Qed.

(** On the doubles from -1 to 1 the integer part of a thousand times the
    value is a non-decreasing function of the value. *)
Lemma SFmul_1000_truncate_mono (x y : spec_float) :
  valid_binary x = true -> valid_binary y = true ->
  SFleb SFminus_one x = true -> SFleb x y = true -> SFleb y SFone = true ->
  SFtruncate (SF64mul x SF1000) <= SFtruncate (SF64mul y SF1000).
Proof.
  intros Vx Vy Hx Hxy Hy.
  unfold valid_binary in Vx, Vy.
  destruct x as [sx | sx | | sx mx ex].
  - (* x is a zero *)
    destruct y as [sy | sy | | sy my ey].
    + destruct sx, sy; cbn; lia.
    + destruct sy; [leb_false Hxy | leb_false Hy].
    + leb_false Hy.
    + destruct sy; [leb_false Hxy |].
      cbn [SpecFloat.valid_binary] in Vy. apply SFleb_nonneg_pair in Hy.
      assert (ey <= -52) by (destruct Hy as [? | [? _]]; lia).
      rewrite (SFmul_1000_truncate false my ey) by assumption.
      pose proof (milli_magnitude_nonneg my ey). destruct sx; cbn; lia.
  - (* x is infinite *)
    destruct sx; [leb_false Hx |].
    destruct y as [sy | sy | | sy my ey];
      [leb_false Hxy | destruct sy; [leb_false Hxy | leb_false Hy]
       | leb_false Hy | leb_false Hxy].
  - leb_false Hx.
  - (* x is finite *)
    cbn [SpecFloat.valid_binary] in Vx.
    destruct y as [sy | sy | | sy my ey].
    + destruct sx; [| leb_false Hxy].
      apply SFleb_neg_pair in Hx.
      assert (ex <= -52) by (destruct Hx as [? | [? _]]; lia).
      rewrite (SFmul_1000_truncate true mx ex) by assumption.
      pose proof (milli_magnitude_nonneg mx ex). destruct sy; cbn; lia.
    + destruct sy; [leb_false Hxy | leb_false Hy].
    + leb_false Hy.
    + cbn [SpecFloat.valid_binary] in Vy.
      destruct sx, sy; [| | leb_false Hxy |].
      * apply SFleb_neg_pair in Hx, Hxy.
        assert (ex <= -52) by (destruct Hx as [? | [? _]]; lia).
        assert (ey <= -52) by (destruct Hxy as [? | [? _]]; lia).
        rewrite !SFmul_1000_truncate by assumption.
        pose proof (milli_magnitude_mono my ey mx ex Vy Vx Hxy ltac:(lia)).
        cbn [signed]. lia.
      * apply SFleb_neg_pair in Hx. apply SFleb_nonneg_pair in Hy.
        assert (ex <= -52) by (destruct Hx as [? | [? _]]; lia).
        assert (ey <= -52) by (destruct Hy as [? | [? _]]; lia).
        rewrite !SFmul_1000_truncate by assumption.
        pose proof (milli_magnitude_nonneg mx ex).
        pose proof (milli_magnitude_nonneg my ey). cbn [signed]. lia.
      * apply SFleb_nonneg_pair in Hy, Hxy.
        assert (ey <= -52) by (destruct Hy as [? | [? _]]; lia).
        assert (ex <= -52) by (destruct Hxy as [? | [? _]]; lia).
        rewrite !SFmul_1000_truncate by assumption.
        pose proof (milli_magnitude_mono mx ex my ey Vx Vy Hxy ltac:(lia)).
        cbn [signed]. lia.
Qed.

(** The argument [update] passes to [map] for a command, in binary64. *)
Lemma milli_binary64 (c : float) :
  long_of_double (c * double_of_int 1000)%dbl
  = saturate_long (SFtruncate (SF64mul (Prim2SF c) SF1000)).
Proof.
  cbn [long_of_double dmul double_of_int binary64].
  rewrite FloatAxioms.mul_spec. reflexivity.
Qed.

Lemma milli_mono_binary64 (c1 c2 : float) :
  PrimFloat.leb (-1) c1 = true -> PrimFloat.leb c1 c2 = true ->
  PrimFloat.leb c2 1 = true ->
  long_of_double (c1 * double_of_int 1000)%dbl
  <= long_of_double (c2 * double_of_int 1000)%dbl.
Proof.
  intros H1 H12 H2. rewrite FloatAxioms.leb_spec in H1, H12, H2.
  rewrite !milli_binary64.
  pose proof (SFmul_1000_truncate_mono (Prim2SF c1) (Prim2SF c2)
                (Prim2SF_valid c1) (Prim2SF_valid c2) H1 H12 H2) as Hm.
  unfold saturate_long. lia.
Qed.

Lemma pair_le_trans (a : positive) (ea : Z) (b : positive) (eb : Z)
  (c : positive) (ec : Z) :
  pair_le a ea b eb -> pair_le b eb c ec -> pair_le a ea c ec.
Proof.
  unfold pair_le. intros [H1 | [H1 H1']] [H2 | [H2 H2']].
  - left. eapply Z.lt_trans; eassumption.
  - left. now rewrite <- H2.
  - left. now rewrite H1.
  - right. split; [now rewrite H1 | eapply Pos.le_trans; eassumption].
Qed.

Lemma pair_le_SFleb_nonneg (m1 : positive) (e1 : Z) (m2 : positive) (e2 : Z) :
  pair_le m1 e1 m2 e2 ->
  SFleb (S754_finite false m1 e1) (S754_finite false m2 e2) = true.
Proof.
  unfold SFleb, SFcompare, pair_le. intros [H | [-> H]].
  - apply Z.compare_lt_iff in H. now rewrite H.
  - rewrite Z.compare_refl. unfold Pos.le in H.
    change (m1 ?= m2)%positive with (Pos.compare_cont Eq m1 m2) in H.
    destruct (Pos.compare_cont Eq m1 m2); try reflexivity.
    now contradiction H.
Qed.

Lemma pair_le_SFleb_neg (m1 : positive) (e1 : Z) (m2 : positive) (e2 : Z) :
  pair_le m2 e2 m1 e1 ->
  SFleb (S754_finite true m1 e1) (S754_finite true m2 e2) = true.
Proof.
  unfold SFleb, SFcompare, pair_le. intros [H | [-> H]].
  - apply Z.compare_gt_iff in H. now rewrite H.
  - rewrite Z.compare_refl. unfold Pos.le in H.
    rewrite Pos.compare_antisym in H.
    change (m1 ?= m2)%positive with (Pos.compare_cont Eq m1 m2) in H.
    destruct (Pos.compare_cont Eq m1 m2); try reflexivity.
    now contradiction H.
Qed.

Lemma SFleb_ends (x y : spec_float) :
  SFleb SFminus_one x = true -> SFleb x y = true -> SFleb y SFone = true ->
  SFleb SFminus_one y = true /\ SFleb x SFone = true.
Proof.
  intros H1 H12 H2.
  destruct x as [s1 | s1 | | s1 m1 e1].
  - destruct y as [s2 | s2 | | s2 m2 e2].
    + split; reflexivity.
    + destruct s2; [leb_false H12 | leb_false H2].
    + leb_false H2.
    + destruct s2; [leb_false H12 | split; reflexivity].
  - destruct s1; [leb_false H1 |].
    destruct y as [s2 | s2 | | s2 m2 e2];
      [leb_false H12 | destruct s2; [leb_false H12 | leb_false H2]
       | leb_false H2 | leb_false H12].
  - leb_false H1.
  - destruct y as [s2 | s2 | | s2 m2 e2].
    + destruct s1; [split; reflexivity | leb_false H12].
    + destruct s2; [leb_false H12 | leb_false H2].
    + leb_false H2.
    + destruct s1, s2; [| split; reflexivity | leb_false H12 |].
      * split; [| reflexivity].
        apply SFleb_neg_pair in H1, H12.
        apply pair_le_SFleb_neg. eapply pair_le_trans; eassumption.
      * split; [reflexivity |].
        apply SFleb_nonneg_pair in H2, H12.
        apply pair_le_SFleb_nonneg. eapply pair_le_trans; eassumption.
Qed.

Lemma leb_trans_binary64_ends (c1 c2 : float) :
  PrimFloat.leb (-1) c1 = true -> PrimFloat.leb c1 c2 = true ->
  PrimFloat.leb c2 1 = true ->
  PrimFloat.leb (-1) c2 = true /\ PrimFloat.leb c1 1 = true.
Proof.
  rewrite !FloatAxioms.leb_spec. apply SFleb_ends.
Qed.

(** For a double in [-1, 1] the thousandths passed to [map] are in
    [-1000, 1000], and they grow with the double. *)
Lemma milli_bounds_binary64 (c : float) :
  PrimFloat.leb (-1) c = true -> PrimFloat.leb c 1 = true ->
  -1000 <= long_of_double (c * double_of_int 1000)%dbl <= 1000.
Proof.
  intros Hlo Hhi. split.
  - change (-1000) with (long_of_double ((-1)%float * double_of_int 1000)%dbl).
    now apply milli_mono_binary64.
  - change 1000 with (long_of_double (1%float * double_of_int 1000)%dbl) at 2.
    now apply milli_mono_binary64.
Qed.

Lemma pulsewidth_binary64 (c : float) :
  PrimFloat.leb (-1) c = true -> PrimFloat.leb c 1 = true ->
  pulsewidth c = long_of_double (c * double_of_int 1000)%dbl + 1500.
Proof.
  intros Hlo Hhi. pose proof (milli_bounds_binary64 c Hlo Hhi) as Hb.
  unfold pulsewidth. apply map_pulse. lia.
Qed.

(** Monotonicity of the whole pipeline on the doubles in [-1, 1]. *)
Lemma channelDuty_mono_binary64 (c1 c2 : float) :
  PrimFloat.leb (-1) c1 = true -> PrimFloat.leb c1 c2 = true ->
  PrimFloat.leb c2 1 = true ->
  pulsewidth c1 <= pulsewidth c2
  /\ dutyCycle (D := float) (pulsewidth c1)
     <= dutyCycle (D := float) (pulsewidth c2)
  /\ channelDuty c1 <= channelDuty c2.
Proof.
  intros H1 H12 H2.
  destruct (leb_trans_binary64_ends c1 c2 H1 H12 H2) as [H1' H2'].
  pose proof (milli_bounds_binary64 c1 H1 H2') as B1.
  pose proof (milli_bounds_binary64 c2 H1' H2) as B2.
  pose proof (milli_mono_binary64 c1 c2 H1 H12 H2) as Hm.
  unfold channelDuty. rewrite !pulsewidth_binary64 by assumption.
  rewrite !dutyCycle_binary64 by lia.
  set (x1 := long_of_double (c1 * double_of_int 1000)%dbl) in *.
  set (x2 := long_of_double (c2 * double_of_int 1000)%dbl) in *.
  assert (Hd : (x1 + 1500) * 4095 / 3003 <= (x2 + 1500) * 4095 / 3003)
    by (apply Z.div_le_mono; lia).
  assert (0 <= (x1 + 1500) * 4095 / 3003) by (apply Z.div_pos; lia).
  assert ((x2 + 1500) * 4095 / 3003 < 3410)
    by (apply Z.div_lt_upper_bound; lia).
  rewrite !ledcDuty_4095, !uint32_small by lia. lia.
Qed.

(** A double in [-1, 1] gives a pulse width in [500, 2500] and a duty
    that the narrowing to [uint16_t] and the clamp leave unchanged. *)
Lemma channelDuty_binary64 (c : float) :
  PrimFloat.leb (-1) c = true -> PrimFloat.leb c 1 = true ->
  500 <= pulsewidth c <= 2500
  /\ channelDuty c = pulsewidth c * 4095 / 3003
  /\ 681 <= channelDuty c <= 3409.
Proof.
  intros Hlo Hhi. pose proof (milli_bounds_binary64 c Hlo Hhi) as Hb.
  unfold channelDuty. rewrite !pulsewidth_binary64 by assumption.
  rewrite !dutyCycle_binary64 by lia.
  set (x := long_of_double (c * double_of_int 1000)%dbl) in *.
  assert (H1 : 681 <= (x + 1500) * 4095 / 3003)
    by (apply Z.div_le_lower_bound; lia).
  assert (H2 : (x + 1500) * 4095 / 3003 < 3410)
    by (apply Z.div_lt_upper_bound; lia).
  rewrite !ledcDuty_4095, !uint32_small by lia. lia.
Qed.

(** ** binary64: the quotient by the divisor *)

(** The location of a quotient as two more bits of the mantissa. *)
Lemma shr_record_of_loc_shifted (q : Z) (l : location) :
  0 <= q ->
  shr_record_of_loc q l = shifted (4 * q + loc_code l) 2.
Proof.
  intros Hq. unfold shifted.
  change (2 ^ 2) with 4. change (2 ^ (2 - 1)) with 2.
  change (0 <? 2) with true. rewrite !andb_true_r.
  assert (D4 : forall c, 0 <= c < 4 -> (4 * q + c) / 4 = q).
  { intros c Hc. symmetry. apply (Z.div_unique _ 4 q c); lia. }
  assert (D2 : forall c h r, 0 <= r < 2 -> c = 2 * h + r ->
                 (4 * q + c) / 2 = 2 * q + h /\ (4 * q + c) mod 2 = r).
  { intros c h r Hr Hc. split; symmetry.
    - apply (Z.div_unique _ 2 _ r); lia.
    - apply (Z.mod_unique _ 2 (2 * q + h) r); lia. }
  destruct l as [| []]; cbn [loc_code shr_record_of_loc].
  - rewrite D4 by lia. destruct (D2 0 0 0) as [-> ->]; try lia.
    rewrite Z.add_0_r, Z.odd_mul. reflexivity.
  - rewrite D4 by lia. destruct (D2 2 1 0) as [-> ->]; try lia.
    rewrite Z.odd_add, Z.odd_mul. reflexivity.
  - rewrite D4 by lia. destruct (D2 1 0 1) as [-> ->]; try lia.
    rewrite Z.add_0_r, Z.odd_mul. reflexivity.
  - rewrite D4 by lia. destruct (D2 3 1 1) as [-> ->]; try lia.
    rewrite Z.odd_add, Z.odd_mul. reflexivity.
Qed.

Lemma shr_loc_shifted (q e n : Z) (l : location) :
  0 <= q ->
  shr (shr_record_of_loc q l) e n
  = (shifted (4 * q + loc_code l) (2 + Z.max n 0), e + Z.max n 0).
Proof.
  intros Hq. rewrite shr_record_of_loc_shifted by exact Hq.
  assert (HN : 0 <= 4 * q + loc_code l)
    by (destruct l as [| []]; cbn [loc_code]; lia).
  unfold shr. destruct n as [| p | p].
  - now rewrite Z.add_0_r, Z.add_0_r.
  - rewrite iter_shr_1_shifted by lia.
    now replace (Z.max (Zpos p) 0) with (Zpos p) by lia.
  - replace (Z.max (Zneg p) 0) with 0 by lia. now rewrite !Z.add_0_r.
Qed.

Lemma rne_exact (a u : Z) : 0 <= u -> rne (a * 2 ^ u) u = a.
Proof.
  intros Hu. unfold rne.
  assert (P : 0 < 2 ^ u) by (apply Z.pow_pos_nonneg; lia).
  rewrite Z.div_mul, Z.mod_mul by lia.
  destruct (Z.ltb_spec (2 ^ u) (2 * 0)); [lia |].
  destruct (Z.eqb_spec (2 * 0) (2 ^ u)); [lia | reflexivity].
Qed.

Lemma digits_le_pow (p : positive) (k : Z) :
  0 <= k -> Zpos p <= 2 ^ k -> Zpos (digits2_pos p) <= k + 1.
Proof.
  intros Hk Hp. pose proof (digits2_pos_bounds p) as [Dl _].
  destruct (Z_le_gt_dec (Zpos (digits2_pos p)) (k + 1)) as [H | H];
    [exact H |].
  assert (2 ^ (k + 1) <= 2 ^ (Zpos (digits2_pos p) - 1))
    by (apply Z.pow_le_mono_r; lia).
  rewrite Z.pow_add_r in H0 by lia. lia.
Qed.

(** A rounded value of magnitude at most one. *)
Lemma binary_round_aux_le_one (s : bool) (q e : Z) (l : location) :
  0 <= q -> e <= 0 -> 4 * q + loc_code l <= 4 * 2 ^ (- e) ->
  magnitude_le_one (binary_round_aux prec emax s q e l).
Proof.
  intros Hq He HN.
  assert (Hc : 0 <= loc_code l <= 3) by (destruct l as [| []]; cbn; lia).
  set (N := 4 * q + loc_code l) in *.
  assert (Pe : 0 < 2 ^ (- e)) by (apply Z.pow_pos_nonneg; lia).
  assert (Hq' : q <= 2 ^ (- e)) by lia.
  unfold binary_round_aux, shr_fexp.
  rewrite shr_loc_shifted by exact Hq. fold N.
  set (n := Z.max (fexp prec emax (Zdigits2 q + e) - e) 0).
  assert (Hn0 : 0 <= n) by (unfold n; lia).
  rewrite (round_shifted N (2 + n)) by lia.
  set (t := e + n).
  (* the exponent after the first shift is not positive *)
  assert (Ht : t <= 0).
  { unfold t, n. rewrite fexp_eq. destruct q as [| p | p]; [cbn; lia | | lia].
    cbn [Zdigits2]. pose proof (digits_le_pow p (- e) ltac:(lia) Hq'). lia. }
  (* the rounded mantissa is at most 2^-t *)
  assert (Hm2 : 0 <= rne N (2 + n) <= 2 ^ (- t)).
  { split.
    - pose proof (rne_bounds N (2 + n)).
      assert (0 <= N / 2 ^ (2 + n)); [| lia].
      apply Z.div_pos; [lia | apply Z.pow_pos_nonneg; lia].
    - apply Z.le_trans with (rne (2 ^ (- t) * 2 ^ (2 + n)) (2 + n));
        [| rewrite rne_exact by lia; lia].
      apply rne_mono; [lia |].
      rewrite <- Z.pow_add_r by lia.
      replace (- t + (2 + n)) with (2 + - e) by (unfold t; lia).
      rewrite Z.pow_add_r by lia. exact HN. }
  set (m2 := rne N (2 + n)) in *.
  rewrite (shr_loc_shifted m2 t) by lia. cbn [loc_code].
  set (k := Z.max (fexp prec emax (Zdigits2 m2 + t) - t) 0).
  assert (Hk0 : 0 <= k) by (unfold k; lia).
  assert (Pt : 0 < 2 ^ (- t)) by (apply Z.pow_pos_nonneg; lia).
  assert (Ht3 : t + k <= 0).
  { unfold k. rewrite fexp_eq. destruct m2 as [| p | p]; [cbn; lia | | lia].
    cbn [Zdigits2].
    pose proof (digits_le_pow p (- t) ltac:(lia) (proj2 Hm2)). lia. }
  assert (Em3 : shr_m (shifted (4 * m2 + 0) (2 + k)) = m2 / 2 ^ k).
  { cbn [shifted shr_m]. rewrite Z.add_0_r, Z.pow_add_r by lia.
    change (2 ^ 2) with 4.
    assert (2 ^ k <> 0) by (apply Z.pow_nonzero; lia).
    rewrite Z.div_mul_cancel_l by lia. reflexivity. }
  rewrite Em3.
  assert (Hm3 : 0 <= m2 / 2 ^ k <= 2 ^ (- (t + k))).
  { assert (Pk : 0 < 2 ^ k) by (apply Z.pow_pos_nonneg; lia).
    split; [apply Z.div_pos; lia |].
    replace (- (t + k)) with (- t - k) by lia.
    rewrite Z.pow_sub_r by lia.
    apply Z.div_le_mono; lia. }
  destruct (m2 / 2 ^ k) as [| p | p]; [exact I | | lia].
  assert (Hle : (t + k <=? emax - prec) = true)
    by (apply Z.leb_le; change (emax - prec) with 971; lia).
  rewrite Hle. cbn [magnitude_le_one]. lia.
Qed.

Lemma new_location_0 (b : Z) : new_location b 0 = loc_Exact.
Proof.
  unfold new_location, new_location_even, new_location_odd.
  destruct (Z.even b); reflexivity.
Qed.

Lemma loc_code_range (l : location) : 0 <= loc_code l <= 3.
Proof. destruct l as [| []]; cbn; lia. Qed.

(** The quotient of a smaller by a larger magnitude. *)
Lemma SFdiv_le_one (sx sy : bool) (mx my : positive) (ex ey : Z) :
  bounded prec emax mx ex = true -> bounded prec emax my ey = true ->
  pair_le mx ex my ey ->
  magnitude_le_one (SF64div (S754_finite sx mx ex) (S754_finite sy my ey)).
Proof.
  intros Bx By Hle.
  pose proof (pair_le_value mx ex my ey Bx By Hle) as HV.
  destruct (bounded_facts mx ex Bx) as (Lx & _ & _).
  destruct (bounded_facts my ey By) as (Ly & _ & _).
  assert (Hexy : ex <= ey) by (destruct Hle as [? | [? _]]; lia).
  unfold SF64div, SFdiv, SFdiv_core_binary.
  set (e' := Z.min (fexp prec emax (Zdigits2 (Zpos mx) + ex
                                     - (Zdigits2 (Zpos my) + ey)))
                   (ex - ey)).
  assert (He' : e' <= ex - ey) by (unfold e'; lia).
  set (s := ex - ey - e').
  assert (Hs : 0 <= s) by (unfold s; lia).
  set (m' := match s with
             | 0 => Zpos mx
             | Zpos _ => Z.shiftl (Zpos mx) s
             | Zneg _ => 0
             end).
  assert (Em' : m' = Zpos mx * 2 ^ s).
  { unfold m'. destruct s as [| p | p]; [lia | | lia].
    now rewrite Z.shiftl_mul_pow2 by lia. }
  (* the scaled dividend is at most the divisor times 2^-e' *)
  assert (Ps : 0 < 2 ^ s) by (apply Z.pow_pos_nonneg; lia).
  assert (Pe : 0 < 2 ^ (- e')) by (apply Z.pow_pos_nonneg; lia).
  assert (Hm' : m' <= Zpos my * 2 ^ (- e')).
  { rewrite Em'.
    assert (Pa : 0 < 2 ^ (ex + 1074)) by (apply Z.pow_pos_nonneg; lia).
    assert (H1 : Zpos mx <= Zpos my * 2 ^ (ey - ex)).
    { apply (Z.mul_le_mono_pos_r _ _ (2 ^ (ex + 1074)) Pa).
      rewrite <- Z.mul_assoc, <- Z.pow_add_r by lia.
      now replace (ey - ex + (ex + 1074)) with (ey + 1074) by lia. }
    replace (- e') with (ey - ex + s) by (unfold s; lia).
    rewrite Z.pow_add_r, Z.mul_assoc by lia.
    apply Z.mul_le_mono_nonneg_r; lia. }
  pose proof (Z_div_mod m' (Zpos my) ltac:(lia)) as Hdm.
  destruct (Z.div_eucl m' (Zpos my)) as [q r]. destruct Hdm as [Eq Hr].
  assert (Hq0 : 0 <= q) by nia.
  assert (HqP : q <= 2 ^ (- e')) by nia.
  apply binary_round_aux_le_one; [exact Hq0 | lia |].
  destruct (Z.eq_dec q (2 ^ (- e'))) as [Etop | Ntop].
  - assert (r = 0) by nia. subst r. rewrite new_location_0. cbn [loc_code]. lia.
  - pose proof (loc_code_range (new_location (Zpos my) r)). lia.
Qed.

Lemma SFltb_nonneg_pair (m1 : positive) (e1 : Z) (m2 : positive) (e2 : Z) :
  SFltb (S754_finite false m1 e1) (S754_finite false m2 e2) = true ->
  pair_le m1 e1 m2 e2.
Proof.
  intros H. apply SFleb_nonneg_pair. unfold SFleb, SFltb in *.
  destruct (SFcompare _ _) as [[| |] |]; try discriminate; reflexivity.
Qed.

Lemma not_SFltb_nonneg_pair (m1 : positive) (e1 : Z) (m2 : positive) (e2 : Z) :
  SFltb (S754_finite false m1 e1) (S754_finite false m2 e2) = false ->
  pair_le m2 e2 m1 e1.
Proof.
  unfold SFltb, SFcompare, pair_le.
  destruct (e1 ?= e2) eqn:Ee.
  - apply Z.compare_eq in Ee. intros Hc. right. split; [now symmetry |].
    unfold Pos.le. rewrite Pos.compare_antisym.
    change (m1 ?= m2)%positive with (Pos.compare_cont Eq m1 m2).
    destruct (Pos.compare_cont Eq m1 m2); discriminate.
  - discriminate.
  - intros _. left. now apply Z.compare_gt_iff.
Qed.

Lemma pair_le_refl (m : positive) (e : Z) : pair_le m e m e.
Proof. right. split; [reflexivity | apply Pos.le_refl]. Qed.

Lemma SFabs_macro_finite (s : bool) (m : positive) (e : Z) :
  SFabs_macro (S754_finite s m e) = S754_finite false m e.
Proof. destruct s; reflexivity. Qed.

Lemma bounded_one : bounded prec emax 4503599627370496 (-52) = true.
Proof. vm_compute. reflexivity. Qed.

(** The divisor of a finite command: infinite, or finite, positive and at
    least the magnitude of the command. *)
Lemma SFmaxValue_finite (sx : bool) (mx : positive) (ex : Z) (y : spec_float) :
  bounded prec emax mx ex = true -> valid_binary y = true ->
  SFmaxValue (S754_finite sx mx ex) y = S754_infinity false
  \/ exists my ey,
       SFmaxValue (S754_finite sx mx ex) y = S754_finite false my ey
       /\ bounded prec emax my ey = true /\ pair_le mx ex my ey.
Proof.
  intros Bx Vy. unfold SFmaxValue. rewrite SFabs_macro_finite.
  assert (Hin : SFmax_std (S754_finite false mx ex) (SFabs_macro y)
                = S754_infinity false
                \/ exists a ea,
                     SFmax_std (S754_finite false mx ex) (SFabs_macro y)
                     = S754_finite false a ea
                     /\ bounded prec emax a ea = true /\ pair_le mx ex a ea).
  { destruct y as [sy | sy | | sy my ey].
    - right. exists mx, ex. destruct sy; cbn; auto using pair_le_refl.
    - left. destruct sy; reflexivity.
    - right. exists mx, ex. cbn. auto using pair_le_refl.
    - rewrite SFabs_macro_finite. unfold SFmax_std.
      destruct (SFltb (S754_finite false mx ex) (S754_finite false my ey))
        eqn:El.
      + right. exists my, ey. apply SFltb_nonneg_pair in El. auto.
      + right. exists mx, ex. auto using pair_le_refl. }
  destruct Hin as [-> | (a & ea & -> & Ba & Ha)].
  - left. reflexivity.
  - right. unfold SFmax_std.
    destruct (SFltb (S754_finite false a ea) SFone) eqn:El.
    + exists 4503599627370496%positive, (-52). split; [reflexivity |].
      split; [exact bounded_one |].
      apply SFltb_nonneg_pair in El. eapply pair_le_trans; eassumption.
    + exists a, ea. auto.
Qed.

Lemma SFmaxValue_zero (sx : bool) (y : spec_float) :
  SFmaxValue (S754_zero sx) y = S754_infinity false
  \/ exists my ey, SFmaxValue (S754_zero sx) y = S754_finite false my ey.
Proof.
  unfold SFmaxValue.
  assert (Hin : SFmax_std (SFabs_macro (S754_zero sx)) (SFabs_macro y)
                = S754_infinity false
                \/ (exists s, SFmax_std (SFabs_macro (S754_zero sx))
                                        (SFabs_macro y) = S754_zero s)
                \/ exists a ea,
                     SFmax_std (SFabs_macro (S754_zero sx)) (SFabs_macro y)
                     = S754_finite false a ea).
  { destruct y as [sy | sy | | sy my ey].
    - right. left. exists (negb sx). destruct sx, sy; reflexivity.
    - left. destruct sx, sy; reflexivity.
    - right. left. exists (negb sx). destruct sx; reflexivity.
    - right. right. exists my, ey. rewrite SFabs_macro_finite.
      destruct sx; reflexivity. }
  destruct Hin as [-> | [[s ->] | (a & ea & ->)]].
  - left. reflexivity.
  - right. exists 4503599627370496%positive, (-52). reflexivity.
  - right. unfold SFmax_std.
    destruct (SFltb (S754_finite false a ea) SFone);
      [exists 4503599627370496%positive, (-52) | exists a, ea]; reflexivity.
Qed.

Lemma magnitude_le_one_bounds (x : spec_float) :
  valid_binary x = true -> magnitude_le_one x ->
  SFleb SFminus_one x = true /\ SFleb x SFone = true.
Proof.
  intros Vx Hx. destruct x as [s | s | | s m t]; try contradiction.
  - destruct s; split; reflexivity.
  - unfold valid_binary in Vx. cbn [SpecFloat.valid_binary] in Vx.
    cbn [magnitude_le_one] in Hx. destruct Hx as [Ht Hm].
    destruct (bounded_facts m t Vx) as (Lt0 & Um & Nm).
    assert (Hp : pair_le m t 4503599627370496 (-52)).
    { unfold pair_le.
      destruct (Z_lt_le_dec t (-52)) as [H | H]; [left; exact H |].
      right.
      assert (Hpow : 2 ^ (- t) <= 2 ^ 52) by (apply Z.pow_le_mono_r; lia).
      assert (Hm52 : 2 ^ 52 <= Zpos m) by (apply Nm; lia).
      assert (Et : t = -52).
      { destruct (Z.eq_dec t (-52)) as [E | N]; [exact E |].
        assert (2 ^ (- t) <= 2 ^ 51) by (apply Z.pow_le_mono_r; lia). lia. }
      split; [exact Et |].
      rewrite Et in Hm.
      change (2 ^ (- -52)) with (Zpos 4503599627370496) in Hm.
      apply Pos.leb_le. rewrite Pos2Z.inj_leb. apply Z.leb_le. exact Hm. }
    destruct s.
    + split; [now apply pair_le_SFleb_neg | reflexivity].
    + split; [reflexivity | now apply pair_le_SFleb_nonneg].
Qed.

(** A finite command divided by the divisor lies between -1 and 1. *)
Lemma SFdiv_maxValue_bounds (x y : spec_float) :
  valid_binary x = true -> valid_binary y = true ->
  SFltb (SFabs_macro x) (S754_infinity false) = true ->
  valid_binary (SF64div x (SFmaxValue x y)) = true ->
  SFleb SFminus_one (SF64div x (SFmaxValue x y)) = true
  /\ SFleb (SF64div x (SFmaxValue x y)) SFone = true.
Proof.
  intros Vx Vy Hfin Vr.
  destruct x as [sx | sx | | sx mx ex];
    [| destruct sx; discriminate Hfin | discriminate Hfin |].
  - destruct (SFmaxValue_zero sx y) as [E | (my & ey & E)]; rewrite E;
      destruct sx; split; reflexivity.
  - unfold valid_binary in Vx. cbn [SpecFloat.valid_binary] in Vx.
    destruct (SFmaxValue_finite sx mx ex y Vx Vy)
      as [E | (my & ey & E & By & Hle)]; rewrite E in *.
    + destruct sx; split; reflexivity.
    + apply magnitude_le_one_bounds; [exact Vr |].
      now apply SFdiv_le_one.
Qed.

(** In binary64: when a mixed command is finite, the normalized command
    is between -1 and 1. *)
Lemma normalized_bounds_binary64 (f s : float) :
  (PrimFloat.ltb (Arduino.abs (f + s)%float) infinity = true ->
   PrimFloat.leb (-1) (normalizedLeft f s) = true
   /\ PrimFloat.leb (normalizedLeft f s) 1 = true)
  /\ (PrimFloat.ltb (Arduino.abs (f - s)%float) infinity = true ->
      PrimFloat.leb (-1) (normalizedRight f s) = true
      /\ PrimFloat.leb (normalizedRight f s) 1 = true).
Proof.
  destruct (Prim2SF_normalized f s) as [El Er].
  pose proof (Prim2SF_valid (f + s)%float) as Vl.
  pose proof (Prim2SF_valid (f - s)%float) as Vr.
  pose proof (Prim2SF_valid (normalizedLeft f s)) as Vnl.
  pose proof (Prim2SF_valid (normalizedRight f s)) as Vnr.
  rewrite FloatAxioms.add_spec in Vl. rewrite FloatAxioms.sub_spec in Vr.
  rewrite !FloatAxioms.ltb_spec, !FloatAxioms.leb_spec, !Prim2SF_abs.
  rewrite FloatAxioms.add_spec, FloatAxioms.sub_spec.
  change (Prim2SF (-1)%float) with SFminus_one.
  change (Prim2SF 1%float) with SFone.
  change (Prim2SF infinity) with (S754_infinity false).
  split; intros Hfin.
  - rewrite El in *. now apply SFdiv_maxValue_bounds.
  - rewrite Er in *.
    rewrite (SFdiv_maxValue_swap _ _ (SF64sub (Prim2SF f) (Prim2SF s)))
      in Vnr |- *;
      [| apply SFsub_nan_SFadd | apply SFadd_nan_SFsub | right; reflexivity
       | apply SFsub_nan_SFadd | apply SFadd_nan_SFsub | right; reflexivity].
    now apply SFdiv_maxValue_bounds.
Qed.

(** ** Clamping *)

(** C1. The duty written is not always the clamped linear image: the
    value of [map] is narrowed to [uint16_t] before [ledcAnalogWrite]
    clamps it.  For the winch command -2.0 the image is negative (clamped:
    0) and wraps to 64855, so 4095 is written; for 47.0 the image 66136
    (clamped: 4095) wraps to 600.  What is written does stay within
    [[0, 4095]], for all commands and in any arithmetic; and in binary64
    a drive channel whose mixed command is finite has a pulse width in
    [[500, 2500]] and receives the clamped image of it, which no
    narrowing changes. *)
Theorem update_winch_duty_wraps (mc : MotorControl) (hw : Ledc) :
  update mc 0%float 0%float (-2)%float hw
  = hw ++ [ledcWrite (uint8_t (PWM_LEFT_CHANNEL mc)) 2045;
           ledcWrite (uint8_t (PWM_RIGHT_CHANNEL mc)) 2045;
           ledcWrite (uint8_t (WINCH_CHANNEL mc)) 4095]
  /\ dutyCycle (D := float) (pulsewidth (-2)%float) = 64855
  /\ clampedDuty (1000000 # 333) (-2) = 0
  /\ update mc 0%float 0%float 47%float hw
     = hw ++ [ledcWrite (uint8_t (PWM_LEFT_CHANNEL mc)) 2045;
              ledcWrite (uint8_t (PWM_RIGHT_CHANNEL mc)) 2045;
              ledcWrite (uint8_t (WINCH_CHANNEL mc)) 600]
  /\ clampedDuty (1000000 # 333) 47 = 4095
  /\ (forall (D : Type) (A : Double D) (f s w : D) (d : Z),
        In d (duties (update mc f s w [])) -> 0 <= d <= 4095)
  /\ (forall f s w : float,
        PrimFloat.ltb (Arduino.abs (f + s)%float) infinity = true ->
        500 <= pulsewidth (normalizedLeft f s) <= 2500
        /\ leftDuty mc f s w
           = Some (clamp 0 4095
                     (pulsewidth (normalizedLeft f s) * 4095 / 3003)))
  /\ (forall f s w : float,
        PrimFloat.ltb (Arduino.abs (f - s)%float) infinity = true ->
        500 <= pulsewidth (normalizedRight f s) <= 2500
        /\ rightDuty mc f s w
           = Some (clamp 0 4095
                     (pulsewidth (normalizedRight f s) * 4095 / 3003))).
Proof.
  split; [run_trace | split; [vm_compute; reflexivity |]].
  split; [vm_compute; reflexivity |].
  split; [run_trace | split; [vm_compute; reflexivity |]].
  split; [intros D A f s w d; now apply update_duties_in_range |].
  split; intros f s w Hfin.
  - destruct (normalized_bounds_binary64 f s) as [Hl _].
    destruct (Hl Hfin) as [Hlo Hhi].
    destruct (channelDuty_binary64 _ Hlo Hhi) as (Hp & Ed & Hd).
    split; [exact Hp |]. rewrite (leftDuty_steps mc f s w). f_equal.
    unfold clamp. rewrite <- Ed. lia.
  - destruct (normalized_bounds_binary64 f s) as [_ Hr].
    destruct (Hr Hfin) as [Hlo Hhi].
    destruct (channelDuty_binary64 _ Hlo Hhi) as (Hp & Ed & Hd).
    split; [exact Hp |]. rewrite (rightDuty_steps mc f s w). f_equal.
    unfold clamp. rewrite <- Ed. lia.
Qed.

(** ** Normalization *)

(** C2, as the program has it.  [update] writes the pipeline of the two
    normalized commands, the mixed commands divided by
    [max(max(|f+s|, |f-s|), 1.0)].  In exact arithmetic each normalized
    command has absolute value at most 1, for [f] different from [s] the
    ratio of the normalized commands is [(f+s)/(f-s)], and commands
    within [-1, 1] pass through unchanged.  In binary64, when both mixed
    commands are within [-1, 1] the divisor is exactly 1.0, the commands
    pass through unchanged and their ratio is that of the mixed
    commands; and whenever a mixed command is finite, its normalized
    command is between -1 and 1. *)
Theorem normalization_scaling (f s : Q) :
  (forall (mc : MotorControl) (w : Q) (hw : Ledc),
     update mc f s w hw
     = hw ++ [ledcWrite (uint8_t (PWM_LEFT_CHANNEL mc))
                        (channelDuty (normalizedLeft f s));
              ledcWrite (uint8_t (PWM_RIGHT_CHANNEL mc))
                        (channelDuty (normalizedRight f s));
              ledcWrite (uint8_t (WINCH_CHANNEL mc)) (channelDuty w)])
  /\ (maxValue f s == Qmax 1 (Qmax (Qabs (f + s)) (Qabs (f - s))))%Q
  /\ (normalizedLeft f s == (f + s) / maxValue f s)%Q
  /\ (normalizedRight f s == (f - s) / maxValue f s)%Q
  /\ (Qabs (normalizedLeft f s) <= 1)%Q
  /\ (Qabs (normalizedRight f s) <= 1)%Q
  /\ (~ (f == s)%Q ->
      (normalizedLeft f s / normalizedRight f s == (f + s) / (f - s))%Q)
  /\ ((Qabs (f + s) <= 1)%Q -> (Qabs (f - s) <= 1)%Q ->
      (normalizedLeft f s == f + s)%Q /\ (normalizedRight f s == f - s)%Q)
  /\ (forall x y : float,
        PrimFloat.leb (Arduino.abs (x + y)%float) 1 = true ->
        PrimFloat.leb (Arduino.abs (x - y)%float) 1 = true ->
        maxValue x y = 1%float
        /\ normalizedLeft x y = (x + y)%float
        /\ normalizedRight x y = (x - y)%float
        /\ (normalizedLeft x y / normalizedRight x y)%float
           = ((x + y) / (x - y))%float)
  /\ (forall x y : float,
        PrimFloat.ltb (Arduino.abs (x + y)%float) infinity = true ->
        PrimFloat.leb (-1) (normalizedLeft x y) = true
        /\ PrimFloat.leb (normalizedLeft x y) 1 = true)
  /\ (forall x y : float,
        PrimFloat.ltb (Arduino.abs (x - y)%float) infinity = true ->
        PrimFloat.leb (-1) (normalizedRight x y) = true
        /\ PrimFloat.leb (normalizedRight x y) 1 = true).
Proof.
  destruct (normalized_exact_unfold f s) as [El Er].
  pose proof (maxValue_bounds f s) as (Hm & Hl1 & Hl2 & Hr1 & Hr2).
  split; [intros mc w hw; apply update_steps |].
  split; [rewrite maxValue_exact; apply Q.max_comm |].
  split; [rewrite El; reflexivity |].
  split; [rewrite Er; reflexivity |].
  rewrite El, Er. set (m := maxValue f s) in *.
  assert (Hpos : (0 < m)%Q) by lra.
  split; [| split; [| split; [| split; [| split; [| split]]]]].
  - apply Qabs_Qle_condition. split.
    + apply Qle_shift_div_l; [exact Hpos | lra].
    + apply Qle_shift_div_r; [exact Hpos | lra].
  - apply Qabs_Qle_condition. split.
    + apply Qle_shift_div_l; [exact Hpos | lra].
    + apply Qle_shift_div_r; [exact Hpos | lra].
  - intros Hne. field. split; [| lra].
    intros E. apply Hne. lra.
  - intros Hl Hr.
    assert (E1 : (m == 1)%Q).
    { unfold m. rewrite maxValue_exact. apply Q.max_r.
      apply Q.max_lub; assumption. }
    rewrite E1. split; field.
  - intros x y Hx Hy.
    destruct (passthrough_binary64 x y Hx Hy) as (E1 & E2 & E3).
    rewrite E2, E3. repeat split; assumption || reflexivity.
  - intros x y. apply (normalized_bounds_binary64 x y).
  - intros x y. apply (normalized_bounds_binary64 x y).
Qed.

(** In binary64 the two quotients are rounded one by one and the ratio is
    not kept exactly: for forward 7 and steering 2 the normalized commands
    are 1 and the double nearest to 5/9, whose quotient is not the double
    9/5, and as numbers their ratio is not 9/5 either.  When the mix
    overflows (forward and steering 2^1023) the left command is infinite,
    so is the divisor, and the normalized command is NaN. *)
Lemma ratio_not_exact_binary64 :
  normalizedLeft 7%float 2%float = 1%float
  /\ Prim2SF (normalizedRight 7%float 2%float)
     = S754_finite false 5003999585967218 (-53)
  /\ (normalizedLeft 7%float 2%float / normalizedRight 7%float 2%float)%dbl
     <> ((7%float + 2%float) / (7%float - 2%float))%dbl
  /\ 9 * 5003999585967218 <> 5 * 2 ^ 53
  /\ Prim2SF (normalizedLeft 0x1p1023%float 0x1p1023%float) = S754_nan.
Proof.
  split; [vm_compute; reflexivity | split; [vm_compute; reflexivity |]].
  split; [| split].
  - intros E. apply (f_equal Prim2SF) in E. vm_compute in E. discriminate E.
  - vm_compute. discriminate.
  - vm_compute. reflexivity.
Qed.

(** ** Mix symmetry *)

(** C6. The left duty of [update(f, s, w)] is the right duty of
    [update(f, -s, w)], and the other way round: in binary64 for all
    doubles, and in exact arithmetic.  [update(0, 1, 0)] writes 3409 left
    and 681 right, [update(0, -1, 0)] writes 681 left and 3409 right, in
    both arithmetics. *)
Theorem mix_symmetry (mc : MotorControl) :
  (forall f s w : float,
     leftDuty mc f s w = rightDuty mc f (- s)%float w
     /\ rightDuty mc f s w = leftDuty mc f (- s)%float w)
  /\ (forall f s w : Q,
        leftDuty mc f s w = rightDuty mc f (- s)%Q w
        /\ rightDuty mc f s w = leftDuty mc f (- s)%Q w)
  /\ (leftDuty mc 0%float 1%float 0%float = Some 3409
      /\ rightDuty mc 0%float 1%float 0%float = Some 681)
  /\ (leftDuty mc 0%float (-1)%float 0%float = Some 681
      /\ rightDuty mc 0%float (-1)%float 0%float = Some 3409)
  /\ (leftDuty mc 0%Q 1%Q 0%Q = Some 3409
      /\ rightDuty mc 0%Q 1%Q 0%Q = Some 681)
  /\ (leftDuty mc 0%Q (-1)%Q 0%Q = Some 681
      /\ rightDuty mc 0%Q (-1)%Q 0%Q = Some 3409)
  /\ 681 < 3409.
Proof.
  split; [| split].
  - intros f s w.
    destruct (normalized_steering_opp_binary64 f s) as [El Er].
    rewrite (leftDuty_steps mc f s w), (rightDuty_steps mc f s w).
    rewrite (leftDuty_steps mc f (- s)%float w).
    rewrite (rightDuty_steps mc f (- s)%float w).
    rewrite El, Er. split; reflexivity.
  - intros f s w. destruct (normalized_steering_opp f s) as [El Er].
    rewrite (leftDuty_steps mc f s w), (rightDuty_steps mc f s w).
    rewrite (leftDuty_steps mc f (- s)%Q w).
    rewrite (rightDuty_steps mc f (- s)%Q w).
    split; f_equal; apply channelDuty_comp; assumption.
  - repeat split; rewrite ?leftDuty_steps, ?rightDuty_steps;
      try (f_equal; vm_compute; reflexivity).
Qed.

(** ** Rounding *)

Lemma linear_pulse (c : Q) :
  (linear c (-1) 1 500 2500 == inject_Z 1500 + c * inject_Z 1000)%Q.
Proof.
  unfold linear. change (inject_Z 1500) with 1500%Q.
  change (inject_Z 1000) with 1000%Q. field.
Qed.

Lemma floorDuty_3003 (pulse : Z) : floorDuty 3003 pulse = pulse * 4095 / 3003.
Proof.
  unfold floorDuty. rewrite Zdiv_Qdiv. apply Qfloor_comp.
  unfold linear. rewrite inject_Z_mult.
  change (inject_Z 4095) with 4095%Q. change (inject_Z 3003) with 3003%Q.
  field.
Qed.

(** C7, as the program has it.  Each step rounds toward zero.  For a
    normalized command the pulse width is 1500 plus the integer part of
    the thousandths of the command: in binary64 the integer part,
    toward zero, of the double product [c * 1000]; in exact arithmetic
    the floor of the exact image for a command that is not negative and
    its ceiling for one that is not positive.  For a pulse width from 0
    to 48059 the duty is the floor of the exact image over the period
    3003, the integer [map] receives. *)
Theorem mapping_steps_truncate (c : float) (q : Q) (pulse : Z)
  (Hc1 : PrimFloat.leb (-1) c = true) (Hc2 : PrimFloat.leb c 1 = true)
  (Hlo : (-1 <= q)%Q) (Hhi : (q <= 1)%Q) (Hp : 0 <= pulse <= 48059) :
  (pulsewidth c = 1500 + SFtruncate (Prim2SF (c * 1000)%float)
   /\ -1000 <= SFtruncate (Prim2SF (c * 1000)%float) <= 1000)
  /\ pulsewidth q = 1500 + Qtruncate (q * 1000)
  /\ ((0 <= q)%Q -> pulsewidth q = floorPulsewidth q)
  /\ ((q <= 0)%Q -> pulsewidth q = Qceiling (linear q (-1) 1 500 2500))
  /\ dutyCycle (D := Q) pulse = floorDuty 3003 pulse
  /\ dutyCycle (D := float) pulse = floorDuty 3003 pulse.
Proof.
  split.
  { pose proof (milli_bounds_binary64 c Hc1 Hc2) as Hb.
    rewrite (pulsewidth_binary64 c Hc1 Hc2).
    cbn [long_of_double dmul double_of_int binary64] in *.
    change (float_of_int 1000) with 1000%float in *.
    set (t := SFtruncate (Prim2SF (c * 1000)%float)) in *.
    assert (Et : saturate_long t = t) by (widths; lia).
    rewrite Et in *. lia. }
  pose proof (pulsewidth_exact q Hlo Hhi) as E.
  change (inject_Z 1000) with 1000%Q in E.
  split; [rewrite E; lia |].
  split; [| split; [| split]].
  - intros H0. unfold floorPulsewidth.
    rewrite (Qfloor_comp _ _ (linear_pulse q)), Qfloor_shift.
    change (inject_Z 1000) with 1000%Q.
    rewrite E, Qtruncate_nonneg by lra. lia.
  - intros H0. rewrite (Qceiling_comp _ _ (linear_pulse q)), Qceiling_shift.
    change (inject_Z 1000) with 1000%Q.
    rewrite E, Qtruncate_nonpos by lra. lia.
  - rewrite floorDuty_3003. now apply dutyCycle_exact.
  - rewrite floorDuty_3003. now apply dutyCycle_binary64.
Qed.

Lemma mapping_steps_truncate_witness :
  (pulsewidth (-0.5)%float
   = 1500 + SFtruncate (Prim2SF ((-0.5) * 1000)%float)
   /\ -1000 <= SFtruncate (Prim2SF ((-0.5) * 1000)%float) <= 1000)
  /\ pulsewidth (-1 # 2)%Q = 1500 + Qtruncate ((-1 # 2) * 1000)
  /\ ((0 <= -1 # 2)%Q -> pulsewidth (-1 # 2)%Q = floorPulsewidth (-1 # 2))
  /\ ((-1 # 2 <= 0)%Q ->
      pulsewidth (-1 # 2)%Q = Qceiling (linear (-1 # 2) (-1) 1 500 2500))
  /\ dutyCycle (D := Q) 1000 = floorDuty 3003 1000
  /\ dutyCycle (D := float) 1000 = floorDuty 3003 1000.
Proof.
  apply (mapping_steps_truncate (-0.5)%float (-1 # 2) 1000).
  - vm_compute. reflexivity.
  - vm_compute. reflexivity.
  - vm_compute. discriminate.
  - vm_compute. discriminate.
  - vm_compute. split; discriminate.
Defined.

(** The steps do not round down.  The command -1/1024 is normalized and
    its exact image is 1499.02...; the program computes the pulse width
    1500 and from it the duty 2045, a floor-rounding implementation 1499
    and 2044. *)
Lemma floor_semantics_fails :
  Prim2SF (-0.0009765625)%float = S754_finite true 4503599627370496 (-62)
  /\ pulsewidth (-0.0009765625)%float = 1500
  /\ pulsewidth (-1 # 1024)%Q = 1500
  /\ floorPulsewidth (-1 # 1024) = 1499
  /\ pulsewidth (-0.0009765625)%float <> floorPulsewidth (-1 # 1024)
  /\ channelDuty (-0.0009765625)%float = 2045
  /\ floorDuty 3003 (floorPulsewidth (-1 # 1024)) = 2044
  /\ floorDuty (1000000 # 333) (floorPulsewidth (-1 # 1024)) = 2044
  /\ dutyCycle (D := float) (pulsewidth (-0.0009765625)%float)
     <> floorDuty 3003 (floorPulsewidth (-1 # 1024)).
Proof.
  repeat split; vm_compute; try reflexivity; discriminate.
Qed.

(** ** Monotonicity *)

(** C8. Over normalized commands in [-1, 1] the pulse width, the duty
    cycle and the duty written are non-decreasing functions of the
    command: in binary64 for all doubles [c1 <= c2] of that range, and in
    exact arithmetic. *)
Theorem duty_monotone (c1 c2 : float) (q1 q2 : Q)
  (Hc1 : PrimFloat.leb (-1) c1 = true) (Hc12 : PrimFloat.leb c1 c2 = true)
  (Hc2 : PrimFloat.leb c2 1 = true)
  (Hlo : (-1 <= q1)%Q) (Hle : (q1 <= q2)%Q) (Hhi : (q2 <= 1)%Q) :
  (pulsewidth c1 <= pulsewidth c2
   /\ dutyCycle (D := float) (pulsewidth c1)
      <= dutyCycle (D := float) (pulsewidth c2)
   /\ channelDuty c1 <= channelDuty c2)
  /\ (pulsewidth q1 <= pulsewidth q2
      /\ dutyCycle (D := Q) (pulsewidth q1)
         <= dutyCycle (D := Q) (pulsewidth q2)
      /\ channelDuty q1 <= channelDuty q2).
Proof.
  split; [now apply channelDuty_mono_binary64 |].
  assert (H1 : (q1 <= 1)%Q) by lra. assert (H2 : (-1 <= q2)%Q) by lra.
  pose proof (milli_bounds q1 Hlo H1) as B1.
  pose proof (milli_bounds q2 H2 Hhi) as B2.
  assert (Hx : Qtruncate (q1 * inject_Z 1000) <= Qtruncate (q2 * inject_Z 1000)).
  { apply Qtruncate_le. change (inject_Z 1000) with 1000%Q. lra. }
  assert (Hd : (Qtruncate (q1 * inject_Z 1000) + 1500) * 4095 / 3003
               <= (Qtruncate (q2 * inject_Z 1000) + 1500) * 4095 / 3003)
    by (apply Z.div_le_mono; lia).
  split; [rewrite !pulsewidth_exact by assumption; lia |].
  split; [rewrite !pulsewidth_exact, !dutyCycle_exact by (assumption || lia);
          exact Hd |].
  rewrite !channelDuty_exact by assumption. exact Hd.
Qed.

Lemma duty_monotone_witness :
  (pulsewidth (-0.5)%float <= pulsewidth 0.5%float
   /\ dutyCycle (D := float) (pulsewidth (-0.5)%float)
      <= dutyCycle (D := float) (pulsewidth 0.5%float)
   /\ channelDuty (-0.5)%float <= channelDuty 0.5%float)
  /\ (pulsewidth (-1 # 2)%Q <= pulsewidth (1 # 2)%Q
      /\ dutyCycle (D := Q) (pulsewidth (-1 # 2)%Q)
         <= dutyCycle (D := Q) (pulsewidth (1 # 2)%Q)
      /\ channelDuty (-1 # 2)%Q <= channelDuty (1 # 2)%Q).
Proof.
  apply (duty_monotone (-0.5)%float 0.5%float (-1 # 2) (1 # 2));
    vm_compute; reflexivity || discriminate.
Defined.

(** ** [begin], and the calls that follow it *)

Lemma begin_calls (mc : MotorControl) (p1 p2 p3 p4 p5 : Z) (hw : Ledc) :
  begin mc p1 p2 p3 p4 p5 hw
  = hw ++ [ledcSetup (uint8_t (PWM_LEFT_CHANNEL mc)) PWM_BASE_FREQ
                     (uint8_t PWM_TIMER_12_BIT);
           ledcAttachPin (uint8_t p1) (uint8_t (PWM_LEFT_CHANNEL mc));
           ledcAttachPin (uint8_t p3) (uint8_t (PWM_LEFT_CHANNEL mc));
           ledcSetup (uint8_t (PWM_RIGHT_CHANNEL mc)) PWM_BASE_FREQ
                     (uint8_t PWM_TIMER_12_BIT);
           ledcAttachPin (uint8_t p2) (uint8_t (PWM_RIGHT_CHANNEL mc));
           ledcAttachPin (uint8_t p4) (uint8_t (PWM_RIGHT_CHANNEL mc));
           ledcSetup (uint8_t (WINCH_CHANNEL mc)) PWM_BASE_FREQ
                     (uint8_t PWM_TIMER_12_BIT);
           ledcAttachPin (uint8_t p5) (uint8_t (WINCH_CHANNEL mc))].
Proof. unfold begin, call. cbv zeta. rewrite <- !app_assoc. reflexivity. Qed.

Lemma duties_app (a b : Ledc) : duties (a ++ b) = duties a ++ duties b.
Proof. apply flat_map_app. Qed.

Lemma setups_app (a b : Ledc) : setups (a ++ b) = setups a ++ setups b.
Proof. apply flat_map_app. Qed.

Lemma attachments_app (a b : Ledc) :
  attachments (a ++ b) = attachments a ++ attachments b.
Proof. apply flat_map_app. Qed.

Lemma existsb_eqb_refl (ch : Z) (l : list Z) : existsb (Z.eqb ch) (ch :: l) = true.
Proof. cbn. now rewrite Z.eqb_refl. Qed.

Lemma existsb_eqb_In (ch : Z) (l : list Z) :
  existsb (Z.eqb ch) l = true <-> In ch l.
Proof.
  rewrite existsb_exists. split.
  - intros (x & Hin & E). apply Z.eqb_eq in E. now subst.
  - intros Hin. exists ch. split; [exact Hin | apply Z.eqb_refl].
Qed.

(** Appending writes to channels already set up keeps a trace well
    ordered. *)
Lemma well_ordered_writes (b : Ledc) :
  forall (seen : list Z) (a : Ledc),
    well_ordered seen a = true ->
    (forall c, In c b ->
       exists ch d, c = ledcWrite ch d
                    /\ (In ch seen \/ exists fr bits, In (ch, fr, bits) (setups a))) ->
    well_ordered seen (a ++ b) = true.
Proof.
  intros seen a. revert seen. induction a as [| c a IH]; intros seen Ha Hb.
  - cbn [app]. clear Ha. induction b as [| c b IHb]; [reflexivity |].
    destruct (Hb c (or_introl eq_refl)) as (ch & d & -> & Hin).
    cbn [well_ordered]. apply andb_true_intro. split.
    + apply existsb_eqb_In. destruct Hin as [Hin | (fr & bits & [])]. exact Hin.
    + apply IHb. intros c' Hc'. apply Hb. now right.
  - cbn [app]. destruct c as [ch fr bits | pin ch | ch d]; cbn [well_ordered] in *.
    + apply IH; [exact Ha |]. intros c' Hc'.
      destruct (Hb c' Hc') as (ch' & d & -> & Hin). exists ch', d.
      split; [reflexivity |]. destruct Hin as [Hin | (fr' & bits' & Hin)].
      * left. now right.
      * cbn in Hin. destruct Hin as [E | Hin].
        -- injection E as -> _ _. left. now left.
        -- right. now exists fr', bits'.
    + apply andb_prop in Ha. destruct Ha as [H1 H2]. rewrite H1. cbn [andb].
      apply IH; [exact H2 |]. intros c' Hc'.
      destruct (Hb c' Hc') as (ch' & d & -> & Hin). exists ch', d.
      split; [reflexivity | exact Hin].
    + apply andb_prop in Ha. destruct Ha as [H1 H2]. rewrite H1. cbn [andb].
      apply IH; [exact H2 |]. intros c' Hc'.
      destruct (Hb c' Hc') as (ch' & d' & -> & Hin). exists ch', d'.
      split; [reflexivity | exact Hin].
Qed.

Lemma well_ordered_begin (mc : MotorControl) (p1 p2 p3 p4 p5 : Z) :
  well_ordered [] (begin mc p1 p2 p3 p4 p5 []) = true.
Proof.
  rewrite begin_calls. cbn [app well_ordered].
  rewrite !existsb_eqb_refl. cbn [andb].
  reflexivity.
Qed.

Lemma well_ordered_weaken (hw : Ledc) :
  forall s1 s2 : list Z,
    (forall ch, In ch s1 -> In ch s2) ->
    well_ordered s1 hw = true -> well_ordered s2 hw = true.
Proof.
  induction hw as [| c hw IH]; intros s1 s2 Hs Hw; [reflexivity |].
  destruct c as [ch fr bits | pin ch | ch d]; cbn [well_ordered] in *.
  - apply (IH (ch :: s1)); [| exact Hw].
    intros ch' [E | Hin]; [now left | right; now apply Hs].
  - apply andb_prop in Hw. destruct Hw as [H1 H2].
    apply andb_true_intro. split; [| now apply (IH s1)].
    apply existsb_eqb_In, Hs, existsb_eqb_In, H1.
  - apply andb_prop in Hw. destruct Hw as [H1 H2].
    apply andb_true_intro. split; [| now apply (IH s1)].
    apply existsb_eqb_In, Hs, existsb_eqb_In, H1.
Qed.

Lemma well_ordered_app (a : Ledc) :
  forall (seen : list Z) (b : Ledc),
    well_ordered seen a = true -> well_ordered [] b = true ->
    well_ordered seen (a ++ b) = true.
Proof.
  induction a as [| c a IH]; intros seen b Ha Hb.
  - cbn [app]. apply (well_ordered_weaken b []); [intros ch [] | exact Hb].
  - cbn [app]. destruct c as [ch fr bits | pin ch | ch d]; cbn [well_ordered] in *.
    + now apply IH.
    + apply andb_prop in Ha. destruct Ha as [H1 H2]. rewrite H1. now apply IH.
    + apply andb_prop in Ha. destruct Ha as [H1 H2]. rewrite H1. now apply IH.
Qed.

(** X1. [begin] writes no duty and keeps the calls made before it.  It
    sets up the left, the right and the winch channel, each at 333 Hz
    with 12 bits, and attaches the front and the back pin of a side to
    the one channel of that side and the winch pin to the winch channel;
    every pin is attached after the setup of its channel. *)
Theorem begin_configuration (mc : MotorControl)
  (leftPinFront rightPinFront leftPinBack rightPinBack winchPin : Z)
  (hw : Ledc) :
  duties (begin mc leftPinFront rightPinFront leftPinBack rightPinBack
                winchPin hw) = duties hw
  /\ setups (begin mc leftPinFront rightPinFront leftPinBack rightPinBack
                   winchPin hw)
     = setups hw ++ [(uint8_t (PWM_LEFT_CHANNEL mc), 333, 12);
                     (uint8_t (PWM_RIGHT_CHANNEL mc), 333, 12);
                     (uint8_t (WINCH_CHANNEL mc), 333, 12)]
  /\ attachments (begin mc leftPinFront rightPinFront leftPinBack
                        rightPinBack winchPin hw)
     = attachments hw
       ++ [(uint8_t leftPinFront, uint8_t (PWM_LEFT_CHANNEL mc));
           (uint8_t leftPinBack, uint8_t (PWM_LEFT_CHANNEL mc));
           (uint8_t rightPinFront, uint8_t (PWM_RIGHT_CHANNEL mc));
           (uint8_t rightPinBack, uint8_t (PWM_RIGHT_CHANNEL mc));
           (uint8_t winchPin, uint8_t (WINCH_CHANNEL mc))]
  /\ (exists calls : Ledc,
        begin mc leftPinFront rightPinFront leftPinBack rightPinBack
              winchPin hw = hw ++ calls
        /\ length calls = 8%nat /\ well_ordered [] calls = true)
  /\ (well_ordered [] hw = true ->
      well_ordered [] (begin mc leftPinFront rightPinFront leftPinBack
                             rightPinBack winchPin hw) = true).
Proof.
  pose proof (well_ordered_begin mc leftPinFront rightPinFront leftPinBack
                rightPinBack winchPin) as Hw.
  rewrite begin_calls in Hw. cbn [app] in Hw.
  rewrite !begin_calls, duties_app, setups_app, attachments_app.
  split; [cbn; apply app_nil_r |].
  split; [reflexivity | split; [reflexivity |]].
  split.
  - eexists. split; [reflexivity |]. split; [reflexivity | exact Hw].
  - intros Hhw. now apply well_ordered_app.
Qed.

(** *** Sequences of calls *)

Section Calls.
Context {D : Type} `{Double D}.

Lemma step_calls (mc : MotorControl) (c : Command D) (hw : Ledc) :
  step mc c hw = hw ++ step mc c [].
Proof.
  destruct c as [f s w | l r]; cbn [step].
  - now rewrite (update_steps mc f s w hw), (update_steps mc f s w []).
  - now rewrite (updateRightLeft_steps mc l r hw),
      (updateRightLeft_steps mc l r []).
Qed.

Lemma step_writes (mc : MotorControl) (c : Command D) (x : LedcCall) :
  In x (step mc c []) ->
  exists ch d, x = ledcWrite ch d
               /\ (ch = uint8_t (PWM_LEFT_CHANNEL mc)
                   \/ ch = uint8_t (PWM_RIGHT_CHANNEL mc)
                   \/ ch = uint8_t (WINCH_CHANNEL mc))
               /\ 0 <= d <= 4095.
Proof.
  destruct c as [f s w | l r]; cbn [step].
  - rewrite update_steps. cbn [app].
    intros [E | [E | [E | []]]]; subst x; eexists; eexists;
      (split; [reflexivity | split; [| apply channelDuty_range]]); auto.
  - rewrite updateRightLeft_steps. cbn [app].
    intros [E | [E | []]]; subst x; eexists; eexists;
      (split; [reflexivity | split; [| apply channelDuty_range]]); auto.
Qed.

Lemma step_setups (mc : MotorControl) (c : Command D) :
  setups (step mc c []) = [] /\ attachments (step mc c []) = []
  /\ length (duties (step mc c [])) = writes c.
Proof.
  destruct c as [f s w | l r]; cbn [step];
    rewrite ?update_steps, ?updateRightLeft_steps; repeat split.
Qed.

Lemma run_snoc (mc : MotorControl) (cs : list (Command D)) (c : Command D)
  (hw : Ledc) :
  run mc (cs ++ [c]) hw = step mc c (run mc cs hw).
Proof. unfold run. now rewrite fold_left_app. Qed.

Lemma run_invariant (mc : MotorControl) (cs : list (Command D)) :
  forall hw : Ledc,
    setups (run mc cs hw) = setups hw
    /\ attachments (run mc cs hw) = attachments hw
    /\ length (duties (run mc cs hw))
       = (length (duties hw) + list_sum (List.map writes cs))%nat
    /\ (forall x, In x (run mc cs hw) ->
          In x hw
          \/ exists ch d, x = ledcWrite ch d
                          /\ (ch = uint8_t (PWM_LEFT_CHANNEL mc)
                              \/ ch = uint8_t (PWM_RIGHT_CHANNEL mc)
                              \/ ch = uint8_t (WINCH_CHANNEL mc))
                          /\ 0 <= d <= 4095)
    /\ (well_ordered [] hw = true ->
        (forall ch, ch = uint8_t (PWM_LEFT_CHANNEL mc)
                    \/ ch = uint8_t (PWM_RIGHT_CHANNEL mc)
                    \/ ch = uint8_t (WINCH_CHANNEL mc) ->
                    exists fr bits, In (ch, fr, bits) (setups hw)) ->
        well_ordered [] (run mc cs hw) = true).
Proof.
  induction cs as [| c cs IH]; intros hw.
  - cbn. rewrite Nat.add_0_r. repeat split; auto.
  - change (run mc (c :: cs) hw) with (run mc cs (step mc c hw)).
    destruct (IH (step mc c hw)) as (Hs & Ha & Hl & Hin & Hw).
    destruct (step_setups mc c) as (Es & Ea & El).
    rewrite Hs, Ha, Hl. rewrite (step_calls mc c hw).
    rewrite setups_app, attachments_app, duties_app, length_app, Es, Ea, El.
    rewrite !app_nil_r.
    split; [reflexivity | split; [reflexivity |]].
    split; [change (list_sum (List.map writes (c :: cs)))
              with (writes c + list_sum (List.map writes cs))%nat; lia |].
    split.
    + intros x Hx. rewrite <- (step_calls mc c hw) in Hx.
      destruct (Hin x Hx) as [Hx' | Hx']; [| now right].
      rewrite (step_calls mc c hw) in Hx'. apply in_app_or in Hx'.
      destruct Hx' as [Hx' | Hx']; [now left | right].
      now apply (step_writes mc c).
    + intros Hhw Hset. rewrite <- (step_calls mc c hw). apply Hw.
      * rewrite (step_calls mc c hw). apply well_ordered_writes; [exact Hhw |].
        intros x Hx. destruct (step_writes mc c x Hx) as (ch & d & -> & Hch & _).
        exists ch, d. split; [reflexivity | right; now apply Hset].
      * intros ch Hch. rewrite (step_calls mc c hw), setups_app, Es, app_nil_r.
        now apply Hset.
Qed.

End Calls.

(** X2. After [begin] on a fresh peripheral, whatever calls of [update]
    and [updateRightLeft] follow, with whatever commands, in any
    arithmetic: the configuration stays the one [begin] made; every
    duty is written to the left, the right or the winch channel, which
    [begin] has set up with 12 bits, and fits these 12 bits; and
    [update] makes three writes, [updateRightLeft] two. *)
Theorem calls_after_begin {D : Type} `{Double D} (mc : MotorControl)
  (leftPinFront rightPinFront leftPinBack rightPinBack winchPin : Z)
  (cs : list (Command D)) :
  let hw0 := begin mc leftPinFront rightPinFront leftPinBack rightPinBack
                   winchPin [] in
  let hw := run mc cs hw0 in
  well_ordered [] hw = true
  /\ setups hw = setups hw0
  /\ attachments hw = attachments hw0
  /\ (forall ch d, In (ledcWrite ch d) hw ->
        In (ch, PWM_BASE_FREQ, PWM_TIMER_12_BIT) (setups hw)
        /\ 0 <= d < 2 ^ PWM_TIMER_12_BIT)
  /\ length (duties hw) = list_sum (List.map writes cs).
Proof.
  intros hw0 hw.
  destruct (run_invariant mc cs hw0) as (Hs & Ha & Hl & Hin & Hw).
  fold hw in Hs, Ha, Hl, Hin, Hw.
  assert (E0 : setups hw0 = [(uint8_t (PWM_LEFT_CHANNEL mc), 333, 12);
                             (uint8_t (PWM_RIGHT_CHANNEL mc), 333, 12);
                             (uint8_t (WINCH_CHANNEL mc), 333, 12)]).
  { unfold hw0. rewrite begin_calls. reflexivity. }
  split.
  { apply Hw; [apply well_ordered_begin |].
    intros ch Hch. exists 333, 12. rewrite E0.
    destruct Hch as [-> | [-> | ->]]; cbn; auto. }
  split; [exact Hs | split; [exact Ha |]].
  split.
  - intros ch d Hx. destruct (Hin _ Hx) as [Hx' | (ch' & d' & E & Hch & Hd)].
    + unfold hw0 in Hx'. rewrite begin_calls in Hx'. cbn in Hx'.
      repeat (destruct Hx' as [Hx' | Hx']; [discriminate Hx' |]).
      destruct Hx'.
    + injection E as -> ->. rewrite Hs, E0.
      change PWM_BASE_FREQ with 333. change PWM_TIMER_12_BIT with 12.
      change (2 ^ 12) with 4096.
      split; [| lia]. destruct Hch as [-> | [-> | ->]]; cbn; auto.
  - rewrite Hl. unfold hw0. rewrite begin_calls. reflexivity.
Qed.

(** *** The duty a channel holds *)

Lemma lastDuty_write (hw : Ledc) (ch d chan : Z) :
  lastDuty (hw ++ [ledcWrite ch d]) chan
  = if ch =? chan then Some d else lastDuty hw chan.
Proof. unfold lastDuty. rewrite fold_left_app. reflexivity. Qed.

Lemma lastDuty_write_same (hw : Ledc) (ch d : Z) :
  lastDuty (hw ++ [ledcWrite ch d]) ch = Some d.
Proof. now rewrite lastDuty_write, Z.eqb_refl. Qed.

Lemma lastDuty_write_other (hw : Ledc) (ch d chan : Z) :
  ch <> chan -> lastDuty (hw ++ [ledcWrite ch d]) chan = lastDuty hw chan.
Proof.
  intros Hne. rewrite lastDuty_write.
  destruct (Z.eqb_spec ch chan); [contradiction | reflexivity].
Qed.

Section ChannelState.
Context {D : Type} `{Double D}.

Lemma update_writes (mc : MotorControl) (f s w : D) (hw : Ledc) :
  update mc f s w hw
  = ((hw ++ [ledcWrite (uint8_t (PWM_LEFT_CHANNEL mc))
                       (channelDuty (normalizedLeft f s))])
        ++ [ledcWrite (uint8_t (PWM_RIGHT_CHANNEL mc))
                      (channelDuty (normalizedRight f s))])
     ++ [ledcWrite (uint8_t (WINCH_CHANNEL mc)) (channelDuty w)].
Proof. rewrite update_steps, <- !app_assoc. reflexivity. Qed.

Lemma updateRightLeft_writes (mc : MotorControl) (l r : D) (hw : Ledc) :
  updateRightLeft mc l r hw
  = (hw ++ [ledcWrite (uint8_t (PWM_LEFT_CHANNEL mc)) (channelDuty l)])
     ++ [ledcWrite (uint8_t (PWM_RIGHT_CHANNEL mc)) (channelDuty r)].
Proof. rewrite updateRightLeft_steps, <- !app_assoc. reflexivity. Qed.

End ChannelState.

(** X3. When the three channels are different (as [uint8_t], the type of
    the driver's parameter), after [update] each channel holds the duty
    of its own command; a following [updateRightLeft] replaces the left
    and the right duty and leaves the winch duty as it was; a channel
    that is none of the three keeps what it held. *)
Theorem update_channel_state {D : Type} `{Double D} (mc : MotorControl)
  (f s w l r : D) (hw : Ledc)
  (Hlr : uint8_t (PWM_LEFT_CHANNEL mc) <> uint8_t (PWM_RIGHT_CHANNEL mc))
  (Hlw : uint8_t (PWM_LEFT_CHANNEL mc) <> uint8_t (WINCH_CHANNEL mc))
  (Hrw : uint8_t (PWM_RIGHT_CHANNEL mc) <> uint8_t (WINCH_CHANNEL mc)) :
  (lastDuty (update mc f s w hw) (uint8_t (PWM_LEFT_CHANNEL mc))
   = Some (channelDuty (normalizedLeft f s))
   /\ lastDuty (update mc f s w hw) (uint8_t (PWM_RIGHT_CHANNEL mc))
      = Some (channelDuty (normalizedRight f s))
   /\ lastDuty (update mc f s w hw) (uint8_t (WINCH_CHANNEL mc))
      = Some (channelDuty w))
  /\ (lastDuty (updateRightLeft mc l r (update mc f s w hw))
               (uint8_t (PWM_LEFT_CHANNEL mc)) = Some (channelDuty l)
      /\ lastDuty (updateRightLeft mc l r (update mc f s w hw))
                  (uint8_t (PWM_RIGHT_CHANNEL mc)) = Some (channelDuty r)
      /\ lastDuty (updateRightLeft mc l r (update mc f s w hw))
                  (uint8_t (WINCH_CHANNEL mc)) = Some (channelDuty w))
  /\ (forall ch : Z,
        ch <> uint8_t (PWM_LEFT_CHANNEL mc) ->
        ch <> uint8_t (PWM_RIGHT_CHANNEL mc) ->
        ch <> uint8_t (WINCH_CHANNEL mc) ->
        lastDuty (update mc f s w hw) ch = lastDuty hw ch
        /\ lastDuty (updateRightLeft mc l r hw) ch = lastDuty hw ch).
Proof.
  rewrite (updateRightLeft_writes mc l r (update mc f s w hw)).
  rewrite (updateRightLeft_writes mc l r hw).
  rewrite (update_writes mc f s w hw).
  split; [| split].
  - split; [| split].
    + rewrite !lastDuty_write_other by congruence. apply lastDuty_write_same.
    + rewrite lastDuty_write_other by congruence. apply lastDuty_write_same.
    + apply lastDuty_write_same.
  - split; [| split].
    + rewrite lastDuty_write_other by congruence. apply lastDuty_write_same.
    + apply lastDuty_write_same.
    + rewrite !lastDuty_write_other by congruence. apply lastDuty_write_same.
  - intros ch H1 H2 H3.
    split; rewrite !lastDuty_write_other by congruence; reflexivity.
Qed.

Lemma update_channel_state_witness :
  let mc := MotorControl_init 0 1 2 3 4 in
  (lastDuty (update mc 0.25%float 0.5%float 1%float [])
            (uint8_t (PWM_LEFT_CHANNEL mc))
   = Some (channelDuty (normalizedLeft 0.25%float 0.5%float))
   /\ lastDuty (update mc 0.25%float 0.5%float 1%float [])
               (uint8_t (PWM_RIGHT_CHANNEL mc))
      = Some (channelDuty (normalizedRight 0.25%float 0.5%float))
   /\ lastDuty (update mc 0.25%float 0.5%float 1%float [])
               (uint8_t (WINCH_CHANNEL mc))
      = Some (channelDuty 1%float))
  /\ (lastDuty (updateRightLeft mc (-1)%float 0%float
                  (update mc 0.25%float 0.5%float 1%float []))
               (uint8_t (PWM_LEFT_CHANNEL mc)) = Some (channelDuty (-1)%float)
      /\ lastDuty (updateRightLeft mc (-1)%float 0%float
                     (update mc 0.25%float 0.5%float 1%float []))
                  (uint8_t (PWM_RIGHT_CHANNEL mc)) = Some (channelDuty 0%float)
      /\ lastDuty (updateRightLeft mc (-1)%float 0%float
                     (update mc 0.25%float 0.5%float 1%float []))
                  (uint8_t (WINCH_CHANNEL mc)) = Some (channelDuty 1%float))
  /\ (forall ch : Z,
        ch <> uint8_t (PWM_LEFT_CHANNEL mc) ->
        ch <> uint8_t (PWM_RIGHT_CHANNEL mc) ->
        ch <> uint8_t (WINCH_CHANNEL mc) ->
        lastDuty (update mc 0.25%float 0.5%float 1%float []) ch
        = lastDuty [] ch
        /\ lastDuty (updateRightLeft mc (-1)%float 0%float []) ch
           = lastDuty [] ch).
Proof.
  intros mc.
  apply (update_channel_state mc 0.25%float 0.5%float 1%float (-1)%float
           0%float []); vm_compute; discriminate.
Defined.

(** X4. The writes of [update] go out in the order left, right, winch,
    and the driver takes the channel as [uint8_t]: whatever the channel
    numbers, the winch channel ends with the winch duty; and when the
    left channel, or the right channel, is the same channel as the winch
    modulo 256, the duty it holds after [update] is the winch duty,
    whatever the forward and steering commands. *)
Theorem update_shared_channel {D : Type} `{Double D} (mc : MotorControl)
  (f s w : D) (hw : Ledc) :
  lastDuty (update mc f s w hw) (uint8_t (WINCH_CHANNEL mc))
  = Some (channelDuty w)
  /\ (uint8_t (PWM_LEFT_CHANNEL mc) = uint8_t (WINCH_CHANNEL mc) ->
      lastDuty (update mc f s w hw) (uint8_t (PWM_LEFT_CHANNEL mc))
      = Some (channelDuty w))
  /\ (uint8_t (PWM_RIGHT_CHANNEL mc) = uint8_t (WINCH_CHANNEL mc) ->
      lastDuty (update mc f s w hw) (uint8_t (PWM_RIGHT_CHANNEL mc))
      = Some (channelDuty w)).
Proof.
  rewrite (update_writes mc f s w hw).
  split; [apply lastDuty_write_same |].
  split; intros Hsame; rewrite Hsame; apply lastDuty_write_same.
Qed.

Lemma update_shared_channel_witness :
  lastDuty (update (MotorControl_init 1 2 3 4 257) 1%float 0%float 0%float [])
           (uint8_t (PWM_LEFT_CHANNEL (MotorControl_init 1 2 3 4 257)))
  = Some (channelDuty 0%float).
Proof.
  apply (proj1 (proj2 (update_shared_channel (MotorControl_init 1 2 3 4 257)
                         1%float 0%float 0%float []))).
  vm_compute. reflexivity.
Defined.

(** ** One channel, outside the normalized range *)

(** [map] from pulse width to duty for a negative pulse width: the
    quotient is truncated toward zero. *)
Lemma map_duty_neg (pulse : Z) :
  -524287 <= pulse <= 0 ->
  Arduino.map pulse 0 3003 0 4095 = - (- pulse * 4095 / 3003).
Proof.
  intros Hp.
  assert (Hq : Z.quot ((pulse - 0) * (4095 - 0)) (3003 - 0)
               = - (- pulse * 4095 / 3003)).
  { rewrite Z.sub_0_r. change (4095 - 0) with 4095. change (3003 - 0) with 3003.
    replace (pulse * 4095) with (- (- pulse * 4095)) by ring.
    rewrite Z.quot_opp_l by lia. f_equal. apply Z.quot_div_nonneg; lia. }
  assert (Hb : 0 <= - pulse * 4095 / 3003 <= - pulse * 4095).
  { split; [apply Z.div_pos; lia |].
    apply Z.div_le_upper_bound; lia. }
  rewrite map_no_overflow; rewrite ?Hq; widths; lia.
Qed.

Section OneChannel.
Context {D : Type} `{Double D}.
Hypothesis period_3003 : period_us = 3003.

Lemma channelDuty_in_range (c : D) :
  -1500 <= long_of_double (c * double_of_int 1000)%dbl <= 46559 ->
  pulsewidth c = long_of_double (c * double_of_int 1000)%dbl + 1500
  /\ channelDuty c
     = Z.min 4095 (pulsewidth c * 4095 / 3003).
Proof.
  intros Hx. unfold channelDuty.
  assert (Ep : pulsewidth c
               = long_of_double (c * double_of_int 1000)%dbl + 1500)
    by (unfold pulsewidth; apply map_pulse; lia).
  split; [exact Ep |]. rewrite Ep.
  set (p := long_of_double (c * double_of_int 1000)%dbl + 1500) in *.
  rewrite (dutyCycle_of_period p period_3003) by lia.
  assert (0 <= p * 4095 / 3003) by (apply Z.div_pos; lia).
  assert (p * 4095 / 3003 < 65536) by (apply Z.div_lt_upper_bound; lia).
  rewrite ledcDuty_4095, uint32_small by lia. lia.
Qed.

Lemma channelDuty_below (c : D) :
  -46557 <= long_of_double (c * double_of_int 1000)%dbl <= -1501 ->
  pulsewidth c = long_of_double (c * double_of_int 1000)%dbl + 1500
  /\ dutyCycle (pulsewidth c) = 65536 - (- pulsewidth c * 4095 / 3003)
  /\ channelDuty c = 4095.
Proof.
  intros Hx. unfold channelDuty.
  assert (Ep : pulsewidth c
               = long_of_double (c * double_of_int 1000)%dbl + 1500)
    by (unfold pulsewidth; apply map_pulse; lia).
  split; [exact Ep |]. rewrite Ep.
  set (p := long_of_double (c * double_of_int 1000)%dbl + 1500) in *.
  assert (H1 : 1 <= - p * 4095 / 3003)
    by (apply Z.div_le_lower_bound; lia).
  assert (H2 : - p * 4095 / 3003 < 61442)
    by (apply Z.div_lt_upper_bound; lia).
  assert (Ed : dutyCycle p = 65536 - (- p * 4095 / 3003)).
  { unfold dutyCycle. rewrite period_3003, map_duty_neg by lia.
    set (k := - p * 4095 / 3003) in *. unfold uint16_t.
    change (2 ^ 16) with 65536. symmetry.
    apply (Z.mod_unique (- k) 65536 (-1) (65536 - k)); lia. }
  split; [exact Ed |].
  rewrite Ed, ledcDuty_4095, uint32_small by lia. lia.
Qed.

Lemma channelDuty_above (c : D) :
  46560 <= long_of_double (c * double_of_int 1000)%dbl <= 49562 ->
  pulsewidth c = long_of_double (c * double_of_int 1000)%dbl + 1500
  /\ channelDuty c = pulsewidth c * 4095 / 3003 - 65536
  /\ 0 <= channelDuty c < 4095.
Proof.
  intros Hx. unfold channelDuty.
  assert (Ep : pulsewidth c
               = long_of_double (c * double_of_int 1000)%dbl + 1500)
    by (unfold pulsewidth; apply map_pulse; lia).
  split; [exact Ep |]. rewrite Ep.
  set (p := long_of_double (c * double_of_int 1000)%dbl + 1500) in *.
  assert (H1 : 65536 <= p * 4095 / 3003)
    by (apply Z.div_le_lower_bound; lia).
  assert (H2 : p * 4095 / 3003 < 69631)
    by (apply Z.div_lt_upper_bound; lia).
  assert (Ed : dutyCycle p = p * 4095 / 3003 - 65536).
  { unfold dutyCycle. rewrite period_3003, map_duty by lia.
    set (k := p * 4095 / 3003) in *. unfold uint16_t.
    change (2 ^ 16) with 65536. symmetry.
    apply (Z.mod_unique k 65536 1 (k - 65536)); lia. }
  rewrite Ed, ledcDuty_4095, uint32_small by lia. lia.
Qed.

End OneChannel.

(** ** The direct write *)

(** C3. [updateRightLeft] makes exactly two writes, to the left and to the
    right channel, each the steps of the code applied to the argument as
    given, without normalization; the winch channel is not among them.
    For the command 2.0 the duty written is 4095, the clamped image of
    2.0, and not 3409, which a command rescaled to 1.0 gives and which
    [update] writes for forward 2.0.  But the duty written is not always
    the clamped image of steps 4 to 7: the value of [map] is narrowed to
    [uint16_t] before [ledcAnalogWrite] clamps it.  [updateRightLeft(-2.0, r)]
    writes 4095 to the left channel where the clamped image is 0, and
    [updateRightLeft(l, 47.0)] writes 600 to the right channel where it
    is 4095.  In binary64 the duty written is the clamp of the value of
    [map] for the commands whose thousandths are from -1500 to 46559;
    for thousandths from -46557 to -1501 it is 4095 where the clamp is 0,
    and from 46560 to 49562 it is below 4095 where the clamp is 4095. *)
Theorem updateRightLeft_duty_wraps :
  (forall (D : Type) (A : Double D) (mc : MotorControl) (l r : D) (hw : Ledc),
     updateRightLeft mc l r hw
     = hw ++ [ledcWrite (uint8_t (PWM_LEFT_CHANNEL mc)) (channelDuty l);
              ledcWrite (uint8_t (PWM_RIGHT_CHANNEL mc)) (channelDuty r)]
     /\ channels (updateRightLeft mc l r [])
        = [uint8_t (PWM_LEFT_CHANNEL mc); uint8_t (PWM_RIGHT_CHANNEL mc)]
     /\ (uint8_t (WINCH_CHANNEL mc) <> uint8_t (PWM_LEFT_CHANNEL mc) ->
         uint8_t (WINCH_CHANNEL mc) <> uint8_t (PWM_RIGHT_CHANNEL mc) ->
         ~ In (uint8_t (WINCH_CHANNEL mc))
              (channels (updateRightLeft mc l r []))))
  /\ (forall (mc : MotorControl) (r : float) (hw : Ledc),
        updateRightLeft mc 2%float r hw
        = hw ++ [ledcWrite (uint8_t (PWM_LEFT_CHANNEL mc)) 4095;
                 ledcWrite (uint8_t (PWM_RIGHT_CHANNEL mc)) (channelDuty r)])
  /\ clampedDuty (1000000 # 333) 2 = 4095
  /\ channelDuty 1%float = 3409
  /\ (forall (mc : MotorControl) (w : float),
        leftDuty mc 2%float 0%float w = Some 3409)
  /\ (forall (mc : MotorControl) (r : float) (hw : Ledc),
        updateRightLeft mc (-2)%float r hw
        = hw ++ [ledcWrite (uint8_t (PWM_LEFT_CHANNEL mc)) 4095;
                 ledcWrite (uint8_t (PWM_RIGHT_CHANNEL mc)) (channelDuty r)])
  /\ clampedDuty (1000000 # 333) (-2) = 0
  /\ (forall (mc : MotorControl) (l : float) (hw : Ledc),
        updateRightLeft mc l 47%float hw
        = hw ++ [ledcWrite (uint8_t (PWM_LEFT_CHANNEL mc)) (channelDuty l);
                 ledcWrite (uint8_t (PWM_RIGHT_CHANNEL mc)) 600])
  /\ clampedDuty (1000000 # 333) 47 = 4095
  /\ (forall c : float,
        (-1500 <= long_of_double (c * double_of_int 1000)%dbl <= 46559 ->
         channelDuty c
         = clamp 0 4095 (Arduino.map (pulsewidth c) 0 3003 0 4095))
        /\ (-46557 <= long_of_double (c * double_of_int 1000)%dbl <= -1501 ->
            channelDuty c = 4095
            /\ clamp 0 4095 (Arduino.map (pulsewidth c) 0 3003 0 4095) = 0)
        /\ (46560 <= long_of_double (c * double_of_int 1000)%dbl <= 49562 ->
            channelDuty c < 4095
            /\ clamp 0 4095 (Arduino.map (pulsewidth c) 0 3003 0 4095)
               = 4095)).
Proof.
  split; [| split; [| split; [| split; [| split]]]].
  - intros D A mc l r hw. rewrite !updateRightLeft_steps.
    split; [reflexivity | split; [reflexivity |]].
    cbn. intros Hl Hr [E | [E | []]]; congruence.
  - intros mc r hw. run_trace.
  - vm_compute. reflexivity.
  - vm_compute. reflexivity.
  - intros mc w. rewrite leftDuty_steps. f_equal; vm_compute; reflexivity.
  - split; [| split; [| split; [| split]]].
    + intros mc r hw. run_trace.
    + vm_compute. reflexivity.
    + intros mc l hw. run_trace.
    + vm_compute. reflexivity.
    + intros c. split; [| split]; intros Hx.
      * destruct (channelDuty_in_range period_us_binary64 c Hx) as [Ep Ed].
        rewrite Ed, map_duty by lia.
        assert (0 <= pulsewidth c * 4095 / 3003) by (apply Z.div_pos; lia).
        unfold clamp. lia.
      * destruct (channelDuty_below period_us_binary64 c Hx) as (Ep & _ & Ed).
        split; [exact Ed |]. rewrite map_duty_neg by lia.
        assert (1 <= - pulsewidth c * 4095 / 3003)
          by (apply Z.div_le_lower_bound; lia).
        unfold clamp. lia.
      * destruct (channelDuty_above period_us_binary64 c Hx) as (Ep & Ed & Hd).
        split; [lia |]. rewrite map_duty by lia.
        assert (65536 <= pulsewidth c * 4095 / 3003)
          by (apply Z.div_le_lower_bound; lia).
        unfold clamp. lia.
Qed.

(** X5. One channel of [updateRightLeft], or the winch channel of
    [update], for a command whose thousandths, as [map] receives them,
    are between -1500 and 46559 (pulse width 0 to 48059): the pulse
    width is 1500 plus the thousandths and the duty written is the
    image [pulse * 4095 / 3003] cut at 4095.  The period is 3003 in
    binary64 and in exact arithmetic. *)
Theorem duty_clamped_in_range {D : Type} `{Double D} (mc : MotorControl)
  (c other f s : D)
  (Hper : period_us (D := D) = 3003)
  (Hx : -1500 <= long_of_double (c * double_of_int 1000)%dbl <= 46559) :
  pulsewidth c = long_of_double (c * double_of_int 1000)%dbl + 1500
  /\ winchDuty mc f s c = Some (Z.min 4095 (pulsewidth c * 4095 / 3003))
  /\ duties (updateRightLeft mc c other [])
     = [Z.min 4095 (pulsewidth c * 4095 / 3003); channelDuty other]
  /\ duties (updateRightLeft mc other c [])
     = [channelDuty other; Z.min 4095 (pulsewidth c * 4095 / 3003)].
Proof.
  destruct (channelDuty_in_range Hper c Hx) as [Ep Ed].
  split; [exact Ep |].
  rewrite (winchDuty_steps mc f s c), !updateRightLeft_steps, Ed.
  repeat split.
Qed.

Lemma duty_clamped_in_range_witness :
  pulsewidth 1.25%float
  = long_of_double (1.25%float * double_of_int 1000)%dbl + 1500
  /\ winchDuty (MotorControl_init 0 1 2 3 4) 0%float 0%float 1.25%float
     = Some (Z.min 4095 (pulsewidth 1.25%float * 4095 / 3003))
  /\ duties (updateRightLeft (MotorControl_init 0 1 2 3 4) 1.25%float
                             0%float [])
     = [Z.min 4095 (pulsewidth 1.25%float * 4095 / 3003);
        channelDuty 0%float]
  /\ duties (updateRightLeft (MotorControl_init 0 1 2 3 4) 0%float
                             1.25%float [])
     = [channelDuty 0%float;
        Z.min 4095 (pulsewidth 1.25%float * 4095 / 3003)].
Proof.
  apply (duty_clamped_in_range (MotorControl_init 0 1 2 3 4)
           1.25%float 0%float 0%float 0%float).
  - vm_compute. reflexivity.
  - vm_compute. split; discriminate.
Defined.

(** X6. For a command below the range, thousandths from -46557 to
    -1501, the pulse width is negative, the value of [map] is negative
    and its narrowing to [uint16_t] is 65536 minus its magnitude, at
    least 4095: the duty written is 4095, the full duty, by the winch
    channel of [update] and by both channels of [updateRightLeft]. *)
Theorem duty_below_range_is_full {D : Type} `{Double D} (mc : MotorControl)
  (c other f s : D)
  (Hper : period_us (D := D) = 3003)
  (Hx : -46557 <= long_of_double (c * double_of_int 1000)%dbl <= -1501) :
  pulsewidth c < 0
  /\ dutyCycle (pulsewidth c) = 65536 - (- pulsewidth c * 4095 / 3003)
  /\ winchDuty mc f s c = Some 4095
  /\ duties (updateRightLeft mc c other []) = [4095; channelDuty other]
  /\ duties (updateRightLeft mc other c []) = [channelDuty other; 4095].
Proof.
  destruct (channelDuty_below Hper c Hx) as (Ep & Ec & Ed).
  split; [lia | split; [exact Ec |]].
  rewrite (winchDuty_steps mc f s c), !updateRightLeft_steps, Ed.
  repeat split.
Qed.

Lemma duty_below_range_is_full_witness :
  pulsewidth (-2)%float < 0
  /\ dutyCycle (D := float) (pulsewidth (-2)%float)
     = 65536 - (- pulsewidth (-2)%float * 4095 / 3003)
  /\ winchDuty (MotorControl_init 0 1 2 3 4) 0%float 0%float (-2)%float
     = Some 4095
  /\ duties (updateRightLeft (MotorControl_init 0 1 2 3 4) (-2)%float
                             0%float [])
     = [4095; channelDuty 0%float]
  /\ duties (updateRightLeft (MotorControl_init 0 1 2 3 4) 0%float
                             (-2)%float [])
     = [channelDuty 0%float; 4095].
Proof.
  apply (duty_below_range_is_full (MotorControl_init 0 1 2 3 4)
           (-2)%float 0%float 0%float 0%float).
  - vm_compute. reflexivity.
  - vm_compute. split; discriminate.
Defined.

(** X7. For a command above the range, thousandths from 46560 to 49562,
    the value of [map] is 65536 or more and its narrowing to [uint16_t]
    drops the 65536: the duty written restarts from 0 and is below
    4095. *)
Theorem duty_above_range_wraps {D : Type} `{Double D} (mc : MotorControl)
  (c other f s : D)
  (Hper : period_us (D := D) = 3003)
  (Hx : 46560 <= long_of_double (c * double_of_int 1000)%dbl <= 49562) :
  65536 <= pulsewidth c * 4095 / 3003
  /\ winchDuty mc f s c = Some (pulsewidth c * 4095 / 3003 - 65536)
  /\ duties (updateRightLeft mc c other [])
     = [pulsewidth c * 4095 / 3003 - 65536; channelDuty other]
  /\ pulsewidth c * 4095 / 3003 - 65536 < 4095.
Proof.
  destruct (channelDuty_above Hper c Hx) as (Ep & Ed & Hd).
  rewrite (winchDuty_steps mc f s c), !updateRightLeft_steps, Ed.
  rewrite Ed in Hd. repeat split; lia.
Qed.

Lemma duty_above_range_wraps_witness :
  65536 <= pulsewidth 47%float * 4095 / 3003
  /\ winchDuty (MotorControl_init 0 1 2 3 4) 0%float 0%float 47%float
     = Some (pulsewidth 47%float * 4095 / 3003 - 65536)
  /\ duties (updateRightLeft (MotorControl_init 0 1 2 3 4) 47%float
                             0%float [])
     = [pulsewidth 47%float * 4095 / 3003 - 65536; channelDuty 0%float]
  /\ pulsewidth 47%float * 4095 / 3003 - 65536 < 4095.
Proof.
  apply (duty_above_range_wraps (MotorControl_init 0 1 2 3 4)
           47%float 0%float 0%float 0%float).
  - vm_compute. reflexivity.
  - vm_compute. split; discriminate.
Defined.

(** ** The write primitive, for any reference value *)

Lemma ledcDuty_small (value valueMax : Z) :
  1 <= valueMax < 2 ^ 32 ->
  ledcDuty value valueMax = 4095 / valueMax * Z.min (uint32_t value) valueMax.
Proof.
  intros Hmax. change (2 ^ 32) with 4294967296 in Hmax.
  pose proof (uint32_range value) as Hv.
  assert (Hq : 0 <= 4095 / valueMax) by (apply Z.div_pos; lia).
  assert (Hm : valueMax * (4095 / valueMax) <= 4095)
    by (apply Z.mul_div_le; lia).
  unfold ledcDuty. rewrite (uint32_small valueMax) by lia.
  rewrite min_spec. apply uint32_small. nia.
Qed.

(** X8. With a reference value above 4095 the quotient [4095 / valueMax]
    is 0 and [ledcAnalogWrite] writes the duty 0, whatever the value. *)
Theorem ledcAnalogWrite_large_reference (channel value valueMax : Z)
  (hw : Ledc) (Hmax : 4095 < valueMax < 2 ^ 32) :
  ledcAnalogWrite channel value valueMax hw
  = hw ++ [ledcWrite (uint8_t channel) 0].
Proof.
  rewrite ledcAnalogWrite_call, ledcDuty_small by lia.
  rewrite Z.div_small by lia. reflexivity.
Qed.

Lemma ledcAnalogWrite_large_reference_witness :
  ledcAnalogWrite 0 3000 65535 [] = [] ++ [ledcWrite (uint8_t 0) 0].
Proof.
  apply (ledcAnalogWrite_large_reference 0 3000 65535 []).
  vm_compute. split; reflexivity.
Defined.

(** X9. With a reference value from 1 to 4095 the duty [ledcAnalogWrite]
    writes does not decrease when the value grows, is a multiple of
    [4095 / valueMax], and is at most [4095 - 4095 mod valueMax], which
    it reaches exactly for the values from [valueMax] on: the full duty
    4095 is written only if [valueMax] divides 4095.  With the default
    255 of the declaration the largest duty is 4080. *)
Theorem ledcAnalogWrite_scale (channel value value' valueMax : Z) (hw : Ledc)
  (Hmax : 1 <= valueMax <= 4095)
  (Hv : 0 <= value <= value') (Hv' : value' < 2 ^ 32) :
  duties (ledcAnalogWrite channel value valueMax hw)
  = duties hw ++ [ledcDuty value valueMax]
  /\ ledcDuty value valueMax = 4095 / valueMax * Z.min value valueMax
  /\ ledcDuty value valueMax <= ledcDuty value' valueMax
  /\ ledcDuty value valueMax <= 4095 - 4095 mod valueMax
  /\ (ledcDuty value valueMax = 4095 - 4095 mod valueMax
      <-> valueMax <= value)
  /\ (ledcDuty value valueMax = 4095
      <-> valueMax <= value /\ 4095 mod valueMax = 0).
Proof.
  change (2 ^ 32) with 4294967296 in Hv'.
  rewrite ledcAnalogWrite_call, duties_app.
  rewrite !ledcDuty_small by (change (2 ^ 32) with 4294967296; lia).
  rewrite !uint32_small by lia.
  pose proof (Z.div_mod 4095 valueMax ltac:(lia)) as Hdm.
  pose proof (Z.mod_pos_bound 4095 valueMax ltac:(lia)) as Hmod.
  assert (Hq : 1 <= 4095 / valueMax)
    by (apply Z.div_le_lower_bound; lia).
  set (k := 4095 / valueMax) in *. set (r := 4095 mod valueMax) in *.
  split; [reflexivity | split; [reflexivity |]].
  split; [apply Z.mul_le_mono_nonneg_l; lia |].
  assert (Hle : k * Z.min value valueMax <= k * valueMax)
    by (apply Z.mul_le_mono_nonneg_l; lia).
  split; [lia |].
  assert (Heq : k * Z.min value valueMax = 4095 - r <-> valueMax <= value).
  { split.
    - intros E. destruct (Z_lt_le_dec value valueMax) as [Hlt | Hge];
        [| exact Hge].
      rewrite Z.min_l in E by lia. nia.
    - intros Hge. rewrite Z.min_r by lia. lia. }
  split; [exact Heq |].
  split.
  - intros E. assert (Er : r = 0) by lia.
    split; [| exact Er]. apply Heq. lia.
  - intros [Hge Er]. apply Heq in Hge. lia.
Qed.

Lemma ledcAnalogWrite_scale_witness :
  duties (ledcAnalogWrite 0 300 255 []) = duties [] ++ [ledcDuty 300 255]
  /\ ledcDuty 300 255 = 4095 / 255 * Z.min 300 255
  /\ ledcDuty 300 255 <= ledcDuty 1000 255
  /\ ledcDuty 300 255 <= 4095 - 4095 mod 255
  /\ (ledcDuty 300 255 = 4095 - 4095 mod 255 <-> 255 <= 300)
  /\ (ledcDuty 300 255 = 4095 <-> 255 <= 300 /\ 4095 mod 255 = 0).
Proof.
  apply (ledcAnalogWrite_scale 0 300 1000 255 []).
  - lia.
  - lia.
  - vm_compute. reflexivity.
Defined.

(** ** binary64: a command and its opposite *)

Lemma SFopp_bounds (x : spec_float) :
  SFleb SFminus_one x = true -> SFleb x SFone = true ->
  SFleb SFminus_one (SFopp x) = true /\ SFleb (SFopp x) SFone = true.
Proof.
  intros H1 H2. destruct x as [s | s | | s m e].
  - destruct s; split; reflexivity.
  - destruct s; [leb_false H1 | leb_false H2].
  - leb_false H1.
  - destruct s; cbn [SFopp negb].
    + split; [reflexivity |]. apply SFleb_neg_pair in H1.
      now apply pair_le_SFleb_nonneg.
    + split; [| reflexivity]. apply SFleb_nonneg_pair in H2.
      now apply pair_le_SFleb_neg.
Qed.

Lemma signed_negb (s : bool) (z : Z) : signed (negb s) z = - signed s z.
Proof. destruct s; cbn [signed negb]; lia. Qed.

Lemma SFmul_1000_truncate_opp (x : spec_float) :
  valid_binary x = true ->
  SFleb SFminus_one x = true -> SFleb x SFone = true ->
  SFtruncate (SF64mul (SFopp x) SF1000) = - SFtruncate (SF64mul x SF1000).
Proof.
  intros Vx H1 H2. unfold valid_binary in Vx.
  destruct x as [s | s | | s m e].
  - destruct s; reflexivity.
  - destruct s; [leb_false H1 | leb_false H2].
  - leb_false H1.
  - cbn [SpecFloat.valid_binary] in Vx. cbn [SFopp].
    assert (He : e <= -52).
    { destruct s.
      - apply SFleb_neg_pair in H1. destruct H1 as [? | [? _]]; lia.
      - apply SFleb_nonneg_pair in H2. destruct H2 as [? | [? _]]; lia. }
    rewrite !SFmul_1000_truncate by assumption. apply signed_negb.
Qed.

Lemma opp_bounds_binary64 (c : float) :
  PrimFloat.leb (-1) c = true -> PrimFloat.leb c 1 = true ->
  PrimFloat.leb (-1) (- c) = true /\ PrimFloat.leb (- c) 1 = true.
Proof.
  rewrite !FloatAxioms.leb_spec, FloatAxioms.opp_spec. apply SFopp_bounds.
Qed.

Lemma milli_opp_binary64 (c : float) :
  PrimFloat.leb (-1) c = true -> PrimFloat.leb c 1 = true ->
  long_of_double ((- c)%float * double_of_int 1000)%dbl
  = - long_of_double (c * double_of_int 1000)%dbl.
Proof.
  intros H1 H2. pose proof (milli_bounds_binary64 c H1 H2) as Hb.
  destruct (opp_bounds_binary64 c H1 H2) as [H1' H2'].
  pose proof (milli_bounds_binary64 (- c)%float H1' H2') as Hb'.
  rewrite !milli_binary64 in *. rewrite FloatAxioms.opp_spec in *.
  rewrite FloatAxioms.leb_spec in H1, H2.
  rewrite (SFmul_1000_truncate_opp _ (Prim2SF_valid c) H1 H2) in *.
  set (t := SFtruncate (SF64mul (Prim2SF c) SF1000)) in *.
  widths. lia.
Qed.

Lemma Qtruncate_opp (q : Q) : Qtruncate (- q) = - Qtruncate q.
Proof.
  destruct q as [n d]. unfold Qtruncate. cbn [Qopp Qnum Qden].
  apply Z.quot_opp_l. discriminate.
Qed.

(** X10. Truncation toward zero makes the pulse width symmetric about
    the neutral 1500: for a normalized command [c] in [-1, 1] the pulse
    widths of [c] and of [-c] add up to 3000, in binary64 and in exact
    arithmetic, and the two duties add up to 4089 or 4090. *)
Theorem pulsewidth_opposite (c : float) (q : Q)
  (Hc1 : PrimFloat.leb (-1) c = true) (Hc2 : PrimFloat.leb c 1 = true)
  (Hq1 : (-1 <= q)%Q) (Hq2 : (q <= 1)%Q) :
  (pulsewidth (- c)%float = 3000 - pulsewidth c
   /\ 4089 <= channelDuty (- c)%float + channelDuty c <= 4090)
  /\ (pulsewidth (- q)%Q = 3000 - pulsewidth q
      /\ 4089 <= channelDuty (- q)%Q + channelDuty q <= 4090).
Proof.
  assert (Hsum : forall p d d' : Z,
            500 <= p <= 2500 -> d = p * 4095 / 3003 ->
            d' = (3000 - p) * 4095 / 3003 -> 4089 <= d' + d <= 4090).
  { intros p d d' Hp -> ->.
    pose proof (Z.div_mod (p * 4095) 3003 ltac:(lia)).
    pose proof (Z.mod_pos_bound (p * 4095) 3003 ltac:(lia)).
    pose proof (Z.div_mod ((3000 - p) * 4095) 3003 ltac:(lia)).
    pose proof (Z.mod_pos_bound ((3000 - p) * 4095) 3003 ltac:(lia)).
    lia. }
  split.
  - destruct (opp_bounds_binary64 c Hc1 Hc2) as [H1' H2'].
    destruct (channelDuty_binary64 c Hc1 Hc2) as (Hp & Ed & _).
    destruct (channelDuty_binary64 (- c)%float H1' H2') as (Hp' & Ed' & _).
    assert (E : pulsewidth (- c)%float = 3000 - pulsewidth c).
    { rewrite !pulsewidth_binary64 by assumption.
      rewrite (milli_opp_binary64 c Hc1 Hc2). lia. }
    split; [exact E |]. rewrite E in Ed'.
    now apply (Hsum (pulsewidth c)).
  - assert (Hq1' : (-1 <= - q)%Q) by lra.
    assert (Hq2' : (- q <= 1)%Q) by lra.
    pose proof (milli_bounds q Hq1 Hq2) as Hb.
    assert (E : pulsewidth (- q)%Q = 3000 - pulsewidth q).
    { rewrite !pulsewidth_exact by assumption.
      rewrite (Qtruncate_comp (- q * inject_Z 1000) (- (q * inject_Z 1000)))
        by ring.
      rewrite Qtruncate_opp. lia. }
    split; [exact E |].
    pose proof (channelDuty_exact q Hq1 Hq2) as Ed.
    pose proof (channelDuty_exact (- q)%Q Hq1' Hq2') as Ed'.
    rewrite <- pulsewidth_exact in Ed, Ed' by assumption.
    rewrite E in Ed'. apply (Hsum (pulsewidth q)); try assumption.
    rewrite pulsewidth_exact by assumption. lia.
Qed.

Lemma pulsewidth_opposite_witness :
  (pulsewidth (- 0.75)%float = 3000 - pulsewidth 0.75%float
   /\ 4089 <= channelDuty (- 0.75)%float + channelDuty 0.75%float <= 4090)
  /\ (pulsewidth (- (3 # 4))%Q = 3000 - pulsewidth (3 # 4)%Q
      /\ 4089 <= channelDuty (- (3 # 4))%Q + channelDuty (3 # 4)%Q <= 4090).
Proof.
  apply (pulsewidth_opposite 0.75%float (3 # 4));
    vm_compute; reflexivity || discriminate.
Defined.

(** ** binary64: the normalized command, for all doubles *)

Lemma SFabs_macro_infinity (s : bool) :
  SFabs_macro (S754_infinity s) = S754_infinity false.
Proof. destruct s; reflexivity. Qed.

Lemma not_finite_nan_or_inf (x : spec_float) :
  SFltb (SFabs_macro x) (S754_infinity false) = false -> nan_or_inf x.
Proof.
  unfold nan_or_inf. destruct x as [s | s | | s m e].
  - destruct s; discriminate.
  - intros _. right. now exists s.
  - intros _. now left.
  - rewrite SFabs_macro_finite. discriminate.
Qed.

(** A mixed command that is not finite gives NaN. *)
Lemma SFdiv_maxValue_nan (x y : spec_float) :
  nan_or_inf x -> SF64div x (SFmaxValue x y) = S754_nan.
Proof.
  intros [-> | [s ->]]; [reflexivity |].
  unfold SFmaxValue. rewrite SFabs_macro_infinity.
  assert (E : SFmax_std (S754_infinity false) (SFabs_macro y)
              = S754_infinity false).
  { destruct y as [sy | sy | | sy my ey].
    - destruct sy; reflexivity.
    - rewrite SFabs_macro_infinity. reflexivity.
    - reflexivity.
    - rewrite SFabs_macro_finite. reflexivity. }
  rewrite E. destruct s; reflexivity.
Qed.

(** X11. In binary64, for all doubles: a normalized wheel command is
    never infinite and never outside [-1, 1].  It is between -1 and 1
    when the mixed command is finite, and NaN when the mixed command is
    NaN or infinite. *)
Theorem normalized_bounded_or_nan (f s : float) :
  ((PrimFloat.ltb (Arduino.abs (f + s)%float) infinity = true
    /\ PrimFloat.leb (-1) (normalizedLeft f s) = true
    /\ PrimFloat.leb (normalizedLeft f s) 1 = true)
   \/ (PrimFloat.ltb (Arduino.abs (f + s)%float) infinity = false
       /\ Prim2SF (normalizedLeft f s) = S754_nan))
  /\ ((PrimFloat.ltb (Arduino.abs (f - s)%float) infinity = true
       /\ PrimFloat.leb (-1) (normalizedRight f s) = true
       /\ PrimFloat.leb (normalizedRight f s) 1 = true)
      \/ (PrimFloat.ltb (Arduino.abs (f - s)%float) infinity = false
          /\ Prim2SF (normalizedRight f s) = S754_nan)).
Proof.
  destruct (normalized_bounds_binary64 f s) as [Bl Br].
  destruct (Prim2SF_normalized f s) as [El Er].
  split.
  - destruct (PrimFloat.ltb (Arduino.abs (f + s)%float) infinity) eqn:E.
    + left. split; [reflexivity | now apply Bl].
    + right. split; [reflexivity |]. rewrite El.
      apply SFdiv_maxValue_nan, not_finite_nan_or_inf.
      rewrite FloatAxioms.ltb_spec, Prim2SF_abs, FloatAxioms.add_spec in E.
      exact E.
  - destruct (PrimFloat.ltb (Arduino.abs (f - s)%float) infinity) eqn:E.
    + left. split; [reflexivity | now apply Br].
    + right. split; [reflexivity |]. rewrite Er.
      rewrite (SFdiv_maxValue_swap _ _ (SF64sub (Prim2SF f) (Prim2SF s)));
        [| apply SFsub_nan_SFadd | apply SFadd_nan_SFsub | right; reflexivity].
      apply SFdiv_maxValue_nan, not_finite_nan_or_inf.
      rewrite FloatAxioms.ltb_spec, Prim2SF_abs, FloatAxioms.sub_spec in E.
      exact E.
Qed.

(** ** binary64: zero steering *)

Lemma channelDuty_milli `{Double} (c1 c2 : D) :
  long_of_double (c1 * double_of_int 1000)%dbl
  = long_of_double (c2 * double_of_int 1000)%dbl ->
  channelDuty c1 = channelDuty c2.
Proof. intros E. unfold channelDuty, pulsewidth. now rewrite E. Qed.

Lemma SFdiv_zero_maxValue (sx : bool) (y : spec_float) :
  is_zero y ->
  is_zero (SF64div (S754_zero sx) (SFmaxValue (S754_zero sx) y))
  /\ is_zero (SF64div y (SFmaxValue (S754_zero sx) y)).
Proof.
  intros [sy ->]. unfold is_zero.
  destruct sx, sy; split; eexists; reflexivity.
Qed.

Lemma milli_zero (x : spec_float) :
  is_zero x -> SFtruncate (SF64mul x SF1000) = 0.
Proof. intros [s ->]. destruct s; reflexivity. Qed.

Lemma straight_mix (x z : spec_float) :
  is_zero z ->
  SF64add x z = SF64sub x z \/ (is_zero (SF64add x z) /\ is_zero (SF64sub x z)).
Proof.
  intros [sz ->]. unfold is_zero. destruct x as [s | s | | s m e].
  - right. destruct s, sz; split; eexists; reflexivity.
  - left. reflexivity.
  - left. reflexivity.
  - left. reflexivity.
Qed.

(** X12. In binary64, for every forward command (NaN and the infinities
    included) and every winch command: with steering 0.0, or -0.0, the
    two normalized commands are the same double or are both zero, and
    [update] writes the same duty to the left and to the right
    channel. *)
Theorem zero_steering_equal_duties (mc : MotorControl) (f w z : float) :
  PrimFloat.eqb z 0 = true ->
  leftDuty mc f z w = rightDuty mc f z w
  /\ (normalizedLeft f z = normalizedRight f z
      \/ (PrimFloat.eqb (normalizedLeft f z) 0 = true
          /\ PrimFloat.eqb (normalizedRight f z) 0 = true)).
Proof.
  intros Hz. rewrite (leftDuty_steps mc f z w), (rightDuty_steps mc f z w).
  assert (Zz : is_zero (Prim2SF z)).
  { rewrite FloatAxioms.eqb_spec in Hz.
    change (Prim2SF 0%float) with (S754_zero false) in Hz.
    unfold is_zero. destruct (Prim2SF z) as [sz | sz | | sz mz ez];
      [now exists sz | destruct sz; discriminate Hz | discriminate Hz
       | destruct sz; discriminate Hz]. }
  destruct (Prim2SF_normalized f z) as [El Er].
  destruct (straight_mix (Prim2SF f) (Prim2SF z) Zz) as [E | [[s1 E1] Z2]].
  - assert (En : normalizedLeft f z = normalizedRight f z)
      by (apply Prim2SF_inj; rewrite El, Er, E; reflexivity).
    rewrite En. split; [reflexivity | now left].
  - rewrite E1 in *.
    destruct (SFdiv_zero_maxValue s1 _ Z2) as [Zl Zr].
    rewrite <- El in Zl. rewrite <- Er in Zr. split.
    + f_equal. apply channelDuty_milli. rewrite !milli_binary64.
      now rewrite (milli_zero _ Zl), (milli_zero _ Zr).
    + right. rewrite !FloatAxioms.eqb_spec.
      change (Prim2SF 0%float) with (S754_zero false).
      destruct Zl as [sl ->], Zr as [sr ->]. split; reflexivity.
Qed.

Lemma zero_steering_equal_duties_witness :
  leftDuty (MotorControl_init 0 1 2 3 4) 0.5%float (-0)%float 1%float
  = rightDuty (MotorControl_init 0 1 2 3 4) 0.5%float (-0)%float 1%float
  /\ (normalizedLeft 0.5%float (-0)%float = normalizedRight 0.5%float (-0)%float
      \/ (PrimFloat.eqb (normalizedLeft 0.5%float (-0)%float) 0 = true
          /\ PrimFloat.eqb (normalizedRight 0.5%float (-0)%float) 0 = true)).
Proof.
  apply (zero_steering_equal_duties (MotorControl_init 0 1 2 3 4)
           0.5%float 1%float (-0)%float).
  vm_compute. reflexivity.
Defined.

(** ** binary64: the larger mixed command *)

Lemma SFdiv_self (s : bool) (m : positive) (e : Z) :
  SF64div (S754_finite s m e) (S754_finite false m e)
  = S754_finite s 4503599627370496 (-52).
Proof.
  unfold SF64div, SFdiv, SFdiv_core_binary.
  replace (Zdigits2 (Z.pos m) + e - (Zdigits2 (Z.pos m) + e)) with 0 by ring.
  rewrite Z.sub_diag.
  change (Z.min (fexp prec emax 0) 0) with (-53).
  change (0 - -53) with 53.
  rewrite Z.shiftl_mul_pow2 by lia.
  rewrite (Z.mul_comm (Z.pos m)), div_eucl_exact, new_location_0.
  rewrite xorb_false_r.
  change (2 ^ 53) with (Z.pos 4503599627370496~0).
  change (-53) with (-52 - 1).
  apply binary_round_aux_double, bounded_one.
Qed.

(** When the magnitude of a finite command is at least 1 and not less
    than that of the other command, the divisor is that magnitude and
    the normalized command is 1 or -1. *)
Lemma SFdiv_maxValue_dominant (x y : spec_float) :
  SFltb (SFabs_macro x) (S754_infinity false) = true ->
  SFltb (SFabs_macro x) (SFabs_macro y) = false ->
  SFltb (SFabs_macro x) SFone = false ->
  exists s m e,
    x = S754_finite s m e
    /\ SF64div x (SFmaxValue x y) = S754_finite s 4503599627370496 (-52).
Proof.
  intros Hfin Hxy H1. unfold SFmaxValue, SFmax_std. rewrite Hxy, H1.
  destruct x as [s | s | | s m e].
  - destruct s; discriminate H1.
  - destruct s; discriminate Hfin.
  - discriminate Hfin.
  - exists s, m, e. split; [reflexivity |].
    rewrite SFabs_macro_finite. apply SFdiv_self.
Qed.

Lemma channelDuty_one : channelDuty 1%float = 3409.
Proof. vm_compute. reflexivity. Qed.

Lemma channelDuty_minus_one : channelDuty (-1)%float = 681.
Proof. vm_compute. reflexivity. Qed.

(** X13. In binary64: when the left mixed command is finite, of
    magnitude at least 1 and not less than the magnitude of the right
    one, its normalized command is exactly 1.0 or -1.0, by its sign,
    and the left duty is 3409 or 681; the same for the right command
    when it is the larger one. *)
Theorem dominant_wheel_full_scale (mc : MotorControl) (f s w : float) :
  (PrimFloat.ltb (Arduino.abs (f + s)%float) infinity = true ->
   PrimFloat.ltb (Arduino.abs (f + s)%float) (Arduino.abs (f - s)%float)
   = false ->
   PrimFloat.ltb (Arduino.abs (f + s)%float) 1 = false ->
   (PrimFloat.ltb 0 (f + s) = true /\ normalizedLeft f s = 1%float
    /\ leftDuty mc f s w = Some 3409)
   \/ (PrimFloat.ltb (f + s) 0 = true /\ normalizedLeft f s = (-1)%float
       /\ leftDuty mc f s w = Some 681))
  /\ (PrimFloat.ltb (Arduino.abs (f - s)%float) infinity = true ->
      PrimFloat.ltb (Arduino.abs (f - s)%float) (Arduino.abs (f + s)%float)
      = false ->
      PrimFloat.ltb (Arduino.abs (f - s)%float) 1 = false ->
      (PrimFloat.ltb 0 (f - s) = true /\ normalizedRight f s = 1%float
       /\ rightDuty mc f s w = Some 3409)
      \/ (PrimFloat.ltb (f - s) 0 = true /\ normalizedRight f s = (-1)%float
          /\ rightDuty mc f s w = Some 681)).
Proof.
  destruct (Prim2SF_normalized f s) as [El Er].
  rewrite (leftDuty_steps mc f s w), (rightDuty_steps mc f s w).
  rewrite !FloatAxioms.ltb_spec, !Prim2SF_abs.
  rewrite FloatAxioms.add_spec, FloatAxioms.sub_spec.
  change (Prim2SF 1%float) with SFone.
  change (Prim2SF 0%float) with (S754_zero false).
  change (Prim2SF infinity) with (S754_infinity false).
  split; intros Hfin Hxy H1.
  - destruct (SFdiv_maxValue_dominant _ _ Hfin Hxy H1) as (sg & m & e & Ex & Ed).
    rewrite Ed in El. rewrite Ex. destruct sg.
    + right. assert (En : normalizedLeft f s = (-1)%float)
        by (apply Prim2SF_inj; rewrite El; reflexivity).
      rewrite En, channelDuty_minus_one. repeat split.
    + left. assert (En : normalizedLeft f s = 1%float)
        by (apply Prim2SF_inj; rewrite El; reflexivity).
      rewrite En, channelDuty_one. repeat split.
  - rewrite (SFdiv_maxValue_swap _ _ (SF64sub (Prim2SF f) (Prim2SF s)))
      in Er;
      [| apply SFsub_nan_SFadd | apply SFadd_nan_SFsub | right; reflexivity].
    destruct (SFdiv_maxValue_dominant _ _ Hfin Hxy H1) as (sg & m & e & Ex & Ed).
    rewrite Ed in Er. rewrite Ex. destruct sg.
    + right. assert (En : normalizedRight f s = (-1)%float)
        by (apply Prim2SF_inj; rewrite Er; reflexivity).
      rewrite En, channelDuty_minus_one. repeat split.
    + left. assert (En : normalizedRight f s = 1%float)
        by (apply Prim2SF_inj; rewrite Er; reflexivity).
      rewrite En, channelDuty_one. repeat split.
Qed.

Lemma dominant_wheel_full_scale_witness :
  (PrimFloat.ltb 0 (3 + 1) = true /\ normalizedLeft 3%float 1%float = 1%float
   /\ leftDuty (MotorControl_init 0 1 2 3 4) 3%float 1%float 0%float
      = Some 3409)
  \/ (PrimFloat.ltb (3 + 1) 0 = true
      /\ normalizedLeft 3%float 1%float = (-1)%float
      /\ leftDuty (MotorControl_init 0 1 2 3 4) 3%float 1%float 0%float
         = Some 681).
Proof.
  apply (proj1 (dominant_wheel_full_scale (MotorControl_init 0 1 2 3 4)
                  3%float 1%float 0%float));
    vm_compute; reflexivity.
Defined.

(** ** The range of the drive duties *)

Lemma normalized_exact_bounds (f s : Q) :
  (-1 <= normalizedLeft f s)%Q /\ (normalizedLeft f s <= 1)%Q
  /\ (-1 <= normalizedRight f s)%Q /\ (normalizedRight f s <= 1)%Q.
Proof.
  destruct (normalized_exact_unfold f s) as [El Er].
  pose proof (maxValue_bounds f s) as (Hm & Hl1 & Hl2 & Hr1 & Hr2).
  rewrite El, Er. set (m := maxValue f s) in *.
  assert (Hpos : (0 < m)%Q) by lra.
  repeat split.
  - apply Qle_shift_div_l; [exact Hpos | lra].
  - apply Qle_shift_div_r; [exact Hpos | lra].
  - apply Qle_shift_div_l; [exact Hpos | lra].
  - apply Qle_shift_div_r; [exact Hpos | lra].
Qed.

Lemma channelDuty_exact_range (c : Q) :
  (-1 <= c)%Q -> (c <= 1)%Q ->
  500 <= pulsewidth c <= 2500 /\ 681 <= channelDuty c <= 3409.
Proof.
  intros Hlo Hhi. pose proof (milli_bounds c Hlo Hhi) as Hb.
  rewrite channelDuty_exact, pulsewidth_exact by assumption.
  set (x := Qtruncate (c * inject_Z 1000)) in *.
  assert (H1 : 681 <= (x + 1500) * 4095 / 3003)
    by (apply Z.div_le_lower_bound; lia).
  assert (H2 : (x + 1500) * 4095 / 3003 < 3410)
    by (apply Z.div_lt_upper_bound; lia).
  lia.
Qed.

(** X14. The duties [update] writes to the two drive channels are
    between 681 and 3409, the duties of the pulse widths 500 and 2500:
    in exact arithmetic for all commands, and in binary64 for every
    channel whose mixed command is finite.  The winch duty is in that
    range when the winch command is within [-1, 1]. *)
Theorem nominal_duty_range (mc : MotorControl) :
  (forall (f s w : Q) (d : Z),
     leftDuty mc f s w = Some d \/ rightDuty mc f s w = Some d ->
     681 <= d <= 3409)
  /\ (forall (f s w : float) (d : Z),
        PrimFloat.ltb (Arduino.abs (f + s)%float) infinity = true ->
        leftDuty mc f s w = Some d -> 681 <= d <= 3409)
  /\ (forall (f s w : float) (d : Z),
        PrimFloat.ltb (Arduino.abs (f - s)%float) infinity = true ->
        rightDuty mc f s w = Some d -> 681 <= d <= 3409)
  /\ (forall (f s w : float) (d : Z),
        PrimFloat.leb (-1) w = true -> PrimFloat.leb w 1 = true ->
        winchDuty mc f s w = Some d -> 681 <= d <= 3409).
Proof.
  split; [| split; [| split]]; [| | | intros f s w d Hlo Hhi;
    rewrite (winchDuty_steps mc f s w); intros E; injection E as <-;
    now apply channelDuty_binary64].
  - intros f s w d.
    destruct (normalized_exact_bounds f s) as (L1 & L2 & R1 & R2).
    rewrite (leftDuty_steps mc f s w), (rightDuty_steps mc f s w).
    intros [E | E]; injection E as <-.
    + now apply channelDuty_exact_range.
    + now apply channelDuty_exact_range.
  - intros f s w d Hfin. rewrite (leftDuty_steps mc f s w).
    intros E. injection E as <-.
    destruct (normalized_bounds_binary64 f s) as [Hl _].
    destruct (Hl Hfin) as [Hlo Hhi].
    now apply channelDuty_binary64.
  - intros f s w d Hfin. rewrite (rightDuty_steps mc f s w).
    intros E. injection E as <-.
    destruct (normalized_bounds_binary64 f s) as [_ Hr].
    destruct (Hr Hfin) as [Hlo Hhi].
    now apply channelDuty_binary64.
Qed.

Lemma nominal_duty_range_witness :
  681 <= channelDuty (normalizedLeft 3%float 1%float) <= 3409.
Proof.
  apply (proj1 (proj2 (nominal_duty_range (MotorControl_init 0 1 2 3 4)))
           3%float 1%float 0%float).
  - vm_compute. reflexivity.
  - apply leftDuty_steps.
Defined.

(** ** [update] through [updateRightLeft] *)

(** X15. In any arithmetic [update] makes the calls of [updateRightLeft]
    on the two normalized commands, followed by the write of the winch
    channel.  In binary64, when both mixed commands are within [-1, 1],
    these are the calls of [updateRightLeft] on the mixed commands
    themselves. *)
Theorem update_through_updateRightLeft :
  (forall (D : Type) (A : Double D) (mc : MotorControl) (f s w : D)
          (hw : Ledc),
     update mc f s w hw
     = ledcAnalogWrite (WINCH_CHANNEL mc) (dutyCycle (pulsewidth w)) 4095
         (updateRightLeft mc (normalizedLeft f s) (normalizedRight f s) hw))
  /\ (forall (mc : MotorControl) (f s w : float) (hw : Ledc),
        PrimFloat.leb (Arduino.abs (f + s)%float) 1 = true ->
        PrimFloat.leb (Arduino.abs (f - s)%float) 1 = true ->
        update mc f s w hw
        = ledcAnalogWrite (WINCH_CHANNEL mc) (dutyCycle (pulsewidth w)) 4095
            (updateRightLeft mc (f + s)%float (f - s)%float hw)).
Proof.
  assert (G : forall (D : Type) (A : Double D) (mc : MotorControl)
                (f s w : D) (hw : Ledc),
            update mc f s w hw
            = ledcAnalogWrite (WINCH_CHANNEL mc) (dutyCycle (pulsewidth w))
                4095
                (updateRightLeft mc (normalizedLeft f s)
                                 (normalizedRight f s) hw)).
  { intros D A mc f s w hw.
    rewrite ledcAnalogWrite_call, updateRightLeft_steps, update_steps.
    rewrite <- app_assoc. reflexivity. }
  split; [exact G |].
  intros mc f s w hw Hl Hr. rewrite G.
  destruct (passthrough_binary64 f s Hl Hr) as (_ & -> & ->).
  reflexivity.
Qed.

Lemma update_through_updateRightLeft_witness :
  update (MotorControl_init 0 1 2 3 4) 0.5%float 0.25%float 1%float []
  = ledcAnalogWrite (WINCH_CHANNEL (MotorControl_init 0 1 2 3 4))
      (dutyCycle (D := float) (pulsewidth 1%float)) 4095
      (updateRightLeft (MotorControl_init 0 1 2 3 4)
                       (0.5 + 0.25)%float (0.5 - 0.25)%float []).
Proof.
  apply (proj2 update_through_updateRightLeft (MotorControl_init 0 1 2 3 4)
           0.5%float 0.25%float 1%float []); vm_compute; reflexivity.
Defined.

(** ** The second [map]: resolution *)

(** X16. From pulse width to duty no resolution is lost: over the pulse
    widths 0 to 48059 one microsecond more gives one or two counts more,
    so different pulse widths get different duty cycles; in binary64
    and in exact arithmetic (period 3003). *)
Theorem dutyCycle_strictly_increasing {D : Type} `{Double D} (p p' : Z)
  (Hper : period_us (D := D) = 3003)
  (Hp : 0 <= p) (Hlt : p < p') (Hp' : p' <= 48059) :
  1 <= dutyCycle (D := D) (p + 1) - dutyCycle (D := D) p <= 2
  /\ dutyCycle (D := D) p < dutyCycle (D := D) p'.
Proof.
  rewrite !(dutyCycle_of_period _ Hper) by lia.
  assert (Hstep : forall a, 0 <= a ->
            1 <= (a + 1) * 4095 / 3003 - a * 4095 / 3003 <= 2).
  { intros a Ha.
    pose proof (Z.div_mod (a * 4095) 3003 ltac:(lia)).
    pose proof (Z.mod_pos_bound (a * 4095) 3003 ltac:(lia)).
    pose proof (Z.div_mod ((a + 1) * 4095) 3003 ltac:(lia)).
    pose proof (Z.mod_pos_bound ((a + 1) * 4095) 3003 ltac:(lia)).
    lia. }
  split; [apply Hstep; lia |].
  apply Z.lt_le_trans with ((p + 1) * 4095 / 3003).
  - pose proof (Hstep p Hp). lia.
  - apply Z.div_le_mono; lia.
Qed.

Lemma dutyCycle_strictly_increasing_witness :
  1 <= dutyCycle (D := float) (1500 + 1) - dutyCycle (D := float) 1500 <= 2
  /\ dutyCycle (D := float) 1500 < dutyCycle (D := float) 1502.
Proof.
  apply (dutyCycle_strictly_increasing 1500 1502).
  - vm_compute. reflexivity.
  - lia.
  - lia.
  - lia.
Defined.

(** ** No state between calls *)

Lemma fold_lastDuty (hw : Ledc) (chan : Z) :
  forall acc : option Z,
    fold_left (fun acc c => match c with
                            | ledcWrite ch d =>
                                if ch =? chan then Some d else acc
                            | _ => acc
                            end) hw acc
    = match lastDuty hw chan with Some d => Some d | None => acc end.
Proof.
  unfold lastDuty. induction hw as [| c hw IH]; intros acc; [reflexivity |].
  cbn [fold_left]. rewrite IH.
  rewrite (IH (match c with
               | ledcWrite ch d => if ch =? chan then Some d else None
               | _ => None
               end)).
  destruct (fold_left _ hw None); [reflexivity |].
  destruct c as [? ? ? | ? ? | ch d]; try reflexivity.
  destruct (ch =? chan); reflexivity.
Qed.

Lemma lastDuty_app (a b : Ledc) (chan : Z) :
  lastDuty (a ++ b) chan
  = match lastDuty b chan with Some d => Some d | None => lastDuty a chan end.
Proof.
  unfold lastDuty at 1. rewrite fold_left_app. apply fold_lastDuty.
Qed.

Lemma lastDuty_none_writes (b : Ledc) (chan : Z) :
  (forall c, In c b -> exists ch d, c = ledcWrite ch d /\ ch <> chan) ->
  lastDuty b chan = None.
Proof.
  induction b as [| c b IH] using rev_ind; intros Hb; [reflexivity |].
  destruct (Hb c) as (ch & d & -> & Hne); [apply in_or_app; right; now left |].
  rewrite lastDuty_write_other by exact Hne.
  apply IH. intros c' Hc'. apply Hb, in_or_app. now left.
Qed.

Section Memoryless.
Context {D : Type} `{Double D}.

Lemma lastDuty_untouched (mc : MotorControl) (cs : list (Command D))
  (chan : Z) :
  chan <> uint8_t (PWM_LEFT_CHANNEL mc) ->
  chan <> uint8_t (PWM_RIGHT_CHANNEL mc) ->
  chan <> uint8_t (WINCH_CHANNEL mc) ->
  forall hw : Ledc, lastDuty (run mc cs hw) chan = lastDuty hw chan.
Proof.
  intros H1 H2 H3. induction cs as [| c cs IH]; intros hw; [reflexivity |].
  change (run mc (c :: cs) hw) with (run mc cs (step mc c hw)).
  rewrite IH, (step_calls mc c hw), lastDuty_app.
  rewrite lastDuty_none_writes; [reflexivity |].
  intros x Hx. destruct (step_writes mc c x Hx) as (ch & d & -> & Hch & _).
  exists ch, d. split; [reflexivity |].
  destruct Hch as [-> | [-> | ->]]; congruence.
Qed.

Lemma lastDuty_update_none (mc : MotorControl) (f s w : D) (chan : Z) :
  lastDuty (update mc f s w []) chan = None ->
  chan <> uint8_t (PWM_LEFT_CHANNEL mc)
  /\ chan <> uint8_t (PWM_RIGHT_CHANNEL mc)
  /\ chan <> uint8_t (WINCH_CHANNEL mc).
Proof.
  rewrite (update_writes mc f s w []). rewrite !lastDuty_write.
  destruct (Z.eqb_spec (uint8_t (WINCH_CHANNEL mc)) chan); [discriminate |].
  destruct (Z.eqb_spec (uint8_t (PWM_RIGHT_CHANNEL mc)) chan); [discriminate |].
  destruct (Z.eqb_spec (uint8_t (PWM_LEFT_CHANNEL mc)) chan); [discriminate |].
  intros _. repeat split; congruence.
Qed.

End Memoryless.

(** X17. [update] keeps no state between calls: the duty every channel
    holds after [update(f, s, w)] is the same whatever calls of [update]
    and [updateRightLeft] were made before it, whatever the channel
    numbers and the arithmetic. *)
Theorem update_memoryless {D : Type} `{Double D} (mc : MotorControl)
  (cs : list (Command D)) (f s w : D) (hw : Ledc) (chan : Z) :
  lastDuty (update mc f s w (run mc cs hw)) chan
  = lastDuty (update mc f s w hw) chan.
Proof.
  rewrite (update_steps mc f s w (run mc cs hw)), (update_steps mc f s w hw).
  rewrite !lastDuty_app.
  pose proof (lastDuty_update_none mc f s w chan) as Hn.
  rewrite (update_steps mc f s w []) in Hn. cbn [app] in Hn.
  destruct (lastDuty _ chan) as [d |]; [reflexivity |].
  destruct (Hn eq_refl) as (H1 & H2 & H3).
  now apply lastDuty_untouched.
Qed.

(** ** binary64: opposite commands *)

Lemma binary_round_aux_opp (s : bool) (m e : Z) (l : location) :
  binary_round_aux prec emax (negb s) m e l
  = SFopp (binary_round_aux prec emax s m e l).
Proof.
  unfold binary_round_aux.
  destruct (shr_fexp prec emax m e l) as [mrs e'].
  destruct (shr_fexp prec emax _ e' loc_Exact) as [mrs' e''].
  destruct (shr_m mrs'); try reflexivity.
  destruct (e'' <=? emax - prec); reflexivity.
Qed.

Lemma SFdiv_opp_l (x m : spec_float) :
  SF64div (SFopp x) m = SFopp (SF64div x m).
Proof.
  unfold SF64div, SFdiv.
  destruct x as [sx | sx | | sx mx ex], m as [sm | sm | | sm mm em];
    try reflexivity; try (destruct sx, sm; reflexivity).
  cbn [SFopp]. destruct (SFdiv_core_binary _ _ _ _ _ _) as [[mz ez] lz].
  replace (xorb (negb sx) sm) with (negb (xorb sx sm))
    by (destruct sx, sm; reflexivity).
  apply binary_round_aux_opp.
Qed.

Lemma opposite_SFopp (x : spec_float) : opposite x (SFopp x).
Proof. now left. Qed.

Lemma same_value_refl (x : spec_float) : same_value x x.
Proof. now left. Qed.

Lemma SFabs_macro_opposite (x x' : spec_float) :
  opposite x x' -> same_value (SFabs_macro x) (SFabs_macro x').
Proof.
  unfold opposite, same_value, is_zero.
  intros [-> | [[s ->] [s' ->]]].
  - destruct x as [s | s | | s m e].
    + right. destruct s; split; eexists; reflexivity.
    + left. destruct s; reflexivity.
    + left. reflexivity.
    + left. cbn [SFopp]. now rewrite !SFabs_macro_finite.
  - right. destruct s, s'; split; eexists; reflexivity.
Qed.

Lemma SFltb_same_value (a a' b b' : spec_float) :
  same_value a a' -> same_value b b' -> SFltb a b = SFltb a' b'.
Proof.
  unfold same_value, is_zero.
  intros [-> | [[sa ->] [sa' ->]]] [-> | [[sb ->] [sb' ->]]];
    reflexivity.
Qed.

Lemma SFmax_std_same_value (a a' b b' : spec_float) :
  same_value a a' -> same_value b b' ->
  same_value (SFmax_std a b) (SFmax_std a' b').
Proof.
  intros Ha Hb. unfold SFmax_std.
  rewrite (SFltb_same_value a a' b b' Ha Hb).
  destruct (SFltb a' b'); assumption.
Qed.

Lemma SFmaxValue_opposite (l l' r r' : spec_float) :
  opposite l l' -> opposite r r' -> SFmaxValue l r = SFmaxValue l' r'.
Proof.
  intros Hl Hr. unfold SFmaxValue.
  pose proof (SFmax_std_same_value _ _ _ _ (SFabs_macro_opposite _ _ Hl)
                (SFabs_macro_opposite _ _ Hr)) as [E | [Z1 Z2]].
  - now rewrite E.
  - now rewrite !SFmax_std_zero_one.
Qed.

Lemma SFmaxValue_not_zero (l r : spec_float) : ~ is_zero (SFmaxValue l r).
Proof.
  unfold SFmaxValue, SFmax_std at 1, is_zero.
  destruct (SFltb _ SFone) eqn:E.
  - intros [s Hs]. discriminate Hs.
  - intros [s Hs]. rewrite Hs in E. destruct s; discriminate E.
Qed.

Lemma SFdiv_opposite (x x' m : spec_float) :
  opposite x x' -> opposite (SF64div x m) (SF64div x' m).
Proof.
  unfold opposite. intros [-> | [[s ->] [s' ->]]].
  - left. apply SFdiv_opp_l.
  - destruct m as [sm | sm | | sm mm em].
    + left. reflexivity.
    + right. unfold is_zero. split; eexists; reflexivity.
    + left. reflexivity.
    + right. unfold is_zero. split; eexists; reflexivity.
Qed.

Lemma opposite_bounds (x x' : spec_float) :
  opposite x x' ->
  SFleb SFminus_one x = true -> SFleb x SFone = true ->
  SFleb SFminus_one x' = true /\ SFleb x' SFone = true.
Proof.
  intros [-> | [_ [s' ->]]] H1 H2.
  - now apply SFopp_bounds.
  - destruct s'; split; reflexivity.
Qed.

Lemma opposite_milli (x x' : spec_float) :
  valid_binary x = true -> opposite x x' ->
  SFleb SFminus_one x = true -> SFleb x SFone = true ->
  SFtruncate (SF64mul x' SF1000) = - SFtruncate (SF64mul x SF1000).
Proof.
  intros Vx [-> | [Zx Zx']] H1 H2.
  - now apply SFmul_1000_truncate_opp.
  - now rewrite (milli_zero _ Zx), (milli_zero _ Zx').
Qed.

(** Two commands in [-1, 1] that are opposite have pulse widths
    symmetric about 1500. *)
Lemma pulsewidth_mirror (c c' : float) :
  PrimFloat.leb (-1) c = true -> PrimFloat.leb c 1 = true ->
  opposite (Prim2SF c) (Prim2SF c') ->
  pulsewidth c' = 3000 - pulsewidth c
  /\ 4089 <= channelDuty c' + channelDuty c <= 4090.
Proof.
  intros H1 H2 Ho.
  assert (H1s := H1). assert (H2s := H2).
  rewrite FloatAxioms.leb_spec in H1s, H2s.
  destruct (opposite_bounds _ _ Ho H1s H2s) as [H1' H2'].
  change SFminus_one with (Prim2SF (-1)%float) in H1'.
  change SFone with (Prim2SF 1%float) in H2'.
  rewrite <- FloatAxioms.leb_spec in H1', H2'.
  pose proof (milli_bounds_binary64 c H1 H2) as Hb.
  pose proof (milli_bounds_binary64 c' H1' H2') as Hb'.
  destruct (channelDuty_binary64 c H1 H2) as (Hp & Ed & _).
  destruct (channelDuty_binary64 c' H1' H2') as (Hp' & Ed' & _).
  assert (E : pulsewidth c' = 3000 - pulsewidth c).
  { rewrite !pulsewidth_binary64 by assumption.
    rewrite !milli_binary64 in *.
    rewrite (opposite_milli _ _ (Prim2SF_valid c) Ho H1s H2s) in *.
    set (t := SFtruncate (SF64mul (Prim2SF c) SF1000)) in *.
    widths. lia. }
  split; [exact E |]. rewrite E in Ed'. rewrite Ed, Ed'.
  pose proof (Z.div_mod (pulsewidth c * 4095) 3003 ltac:(lia)).
  pose proof (Z.mod_pos_bound (pulsewidth c * 4095) 3003 ltac:(lia)).
  pose proof (Z.div_mod ((3000 - pulsewidth c) * 4095) 3003 ltac:(lia)).
  pose proof (Z.mod_pos_bound ((3000 - pulsewidth c) * 4095) 3003 ltac:(lia)).
  lia.
Qed.

Lemma cond_Zopp_negb (s : bool) (z : Z) :
  cond_Zopp (negb s) z = - cond_Zopp s z.
Proof. destruct s; cbn [cond_Zopp negb]; lia. Qed.

Lemma binary_round_opp (s : bool) (m : positive) (e : Z) :
  binary_round prec emax (negb s) m e = SFopp (binary_round prec emax s m e).
Proof.
  unfold binary_round. destruct (shl_align m e _) as [mz ez].
  apply binary_round_aux_opp.
Qed.

Lemma binary_normalize_opposite (m e : Z) :
  opposite (binary_normalize prec emax m e false)
           (binary_normalize prec emax (- m) e false).
Proof.
  unfold opposite, is_zero. destruct m as [| p | p]; cbn [Z.opp binary_normalize].
  - right. split; eexists; reflexivity.
  - left. apply (binary_round_opp false).
  - left. apply (binary_round_opp true).
Qed.

Lemma SFadd_opposite (x y : spec_float) :
  opposite (SF64add x y) (SF64add (SFopp x) (SFopp y)).
Proof.
  unfold SF64add.
  destruct x as [sx | sx | | sx mx ex], y as [sy | sy | | sy my ey];
    try (left; reflexivity);
    try (destruct sx, sy; (left; reflexivity)
                          || (right; split; eexists; reflexivity)).
  cbn [SFopp SFadd]. rewrite !cond_Zopp_negb, <- Z.opp_add_distr.
  apply binary_normalize_opposite.
Qed.

Lemma SFsub_opposite (x y : spec_float) :
  opposite (SF64sub x y) (SF64sub (SFopp x) (SFopp y)).
Proof. rewrite <- !SFadd_opp_r. apply SFadd_opposite. Qed.

Lemma pivot_mix (z x : spec_float) :
  is_zero z -> opposite (SF64add z x) (SF64sub z x).
Proof.
  intros [sz ->]. unfold opposite, is_zero.
  destruct x as [s | s | | s m e].
  - right. destruct sz, s; split; eexists; reflexivity.
  - left. reflexivity.
  - left. reflexivity.
  - left. reflexivity.
Qed.

(** X18. In binary64, when the left mixed command is finite: reversing
    the forward and the steering command mirrors the left pulse width
    about the neutral 1500, and the two left duties add up to 4089 or
    4090; the same for the right channel. *)
Theorem reversed_commands_mirror (mc : MotorControl) (f s w : float) :
  (PrimFloat.ltb (Arduino.abs (f + s)%float) infinity = true ->
   pulsewidth (normalizedLeft (- f) (- s))%float
   = 3000 - pulsewidth (normalizedLeft f s)
   /\ exists d d' : Z,
        leftDuty mc f s w = Some d
        /\ leftDuty mc (- f)%float (- s)%float w = Some d'
        /\ 4089 <= d' + d <= 4090)
  /\ (PrimFloat.ltb (Arduino.abs (f - s)%float) infinity = true ->
      pulsewidth (normalizedRight (- f) (- s))%float
      = 3000 - pulsewidth (normalizedRight f s)
      /\ exists d d' : Z,
           rightDuty mc f s w = Some d
           /\ rightDuty mc (- f)%float (- s)%float w = Some d'
           /\ 4089 <= d' + d <= 4090).
Proof.
  destruct (Prim2SF_normalized f s) as [El Er].
  destruct (Prim2SF_normalized (- f)%float (- s)%float) as [El' Er'].
  rewrite !FloatAxioms.opp_spec in El', Er'.
  pose proof (SFadd_opposite (Prim2SF f) (Prim2SF s)) as Ol.
  pose proof (SFsub_opposite (Prim2SF f) (Prim2SF s)) as Or.
  rewrite <- (SFmaxValue_opposite _ _ _ _ Ol Or) in El', Er'.
  destruct (normalized_bounds_binary64 f s) as [Bl Br].
  split; intros Hfin.
  - destruct (Bl Hfin) as [H1 H2].
    assert (Ho : opposite (Prim2SF (normalizedLeft f s))
                          (Prim2SF (normalizedLeft (- f) (- s))%float))
      by (rewrite El, El'; now apply SFdiv_opposite).
    destruct (pulsewidth_mirror _ _ H1 H2 Ho) as [Ep Hd].
    split; [exact Ep |].
    exists (channelDuty (normalizedLeft f s)),
           (channelDuty (normalizedLeft (- f) (- s))%float).
    rewrite !leftDuty_steps. repeat split; lia.
  - destruct (Br Hfin) as [H1 H2].
    assert (Ho : opposite (Prim2SF (normalizedRight f s))
                          (Prim2SF (normalizedRight (- f) (- s))%float))
      by (rewrite Er, Er'; now apply SFdiv_opposite).
    destruct (pulsewidth_mirror _ _ H1 H2 Ho) as [Ep Hd].
    split; [exact Ep |].
    exists (channelDuty (normalizedRight f s)),
           (channelDuty (normalizedRight (- f) (- s))%float).
    rewrite !rightDuty_steps. repeat split; lia.
Qed.

Lemma reversed_commands_mirror_witness :
  pulsewidth (normalizedLeft (- 0.5) (- 0.25))%float
  = 3000 - pulsewidth (normalizedLeft 0.5%float 0.25%float)
  /\ exists d d' : Z,
       leftDuty (MotorControl_init 0 1 2 3 4) 0.5%float 0.25%float 0%float
       = Some d
       /\ leftDuty (MotorControl_init 0 1 2 3 4) (- 0.5)%float (- 0.25)%float
                   0%float = Some d'
       /\ 4089 <= d' + d <= 4090.
Proof.
  apply (proj1 (reversed_commands_mirror (MotorControl_init 0 1 2 3 4)
                  0.5%float 0.25%float 0%float)).
  vm_compute. reflexivity.
Defined.

(** X19. In binary64, turning on the spot: with forward command 0.0 or
    -0.0 and a finite steering command, the right pulse width is the
    mirror image of the left one about the neutral 1500, and the two
    duties add up to 4089 or 4090. *)
Theorem pivot_turn_mirror (mc : MotorControl) (z s w : float)
  (Hz : PrimFloat.eqb z 0 = true)
  (Hfin : PrimFloat.ltb (Arduino.abs (z + s)%float) infinity = true) :
  pulsewidth (normalizedRight z s) = 3000 - pulsewidth (normalizedLeft z s)
  /\ exists d d' : Z,
       leftDuty mc z s w = Some d /\ rightDuty mc z s w = Some d'
       /\ 4089 <= d' + d <= 4090.
Proof.
  destruct (Prim2SF_normalized z s) as [El Er].
  assert (Zz : is_zero (Prim2SF z)).
  { rewrite FloatAxioms.eqb_spec in Hz.
    change (Prim2SF 0%float) with (S754_zero false) in Hz.
    unfold is_zero. destruct (Prim2SF z) as [sz | sz | | sz mz ez];
      [now exists sz | destruct sz; discriminate Hz | discriminate Hz
       | destruct sz; discriminate Hz]. }
  destruct (normalized_bounds_binary64 z s) as [Bl _].
  destruct (Bl Hfin) as [H1 H2].
  assert (Ho : opposite (Prim2SF (normalizedLeft z s))
                        (Prim2SF (normalizedRight z s)))
    by (rewrite El, Er; now apply SFdiv_opposite, pivot_mix).
  destruct (pulsewidth_mirror _ _ H1 H2 Ho) as [Ep Hd].
  split; [exact Ep |].
  exists (channelDuty (normalizedLeft z s)),
         (channelDuty (normalizedRight z s)).
  rewrite leftDuty_steps, rightDuty_steps. repeat split; lia.
Qed.

Lemma pivot_turn_mirror_witness :
  pulsewidth (normalizedRight 0%float 0.5%float)
  = 3000 - pulsewidth (normalizedLeft 0%float 0.5%float)
  /\ exists d d' : Z,
       leftDuty (MotorControl_init 0 1 2 3 4) 0%float 0.5%float 0%float
       = Some d
       /\ rightDuty (MotorControl_init 0 1 2 3 4) 0%float 0.5%float 0%float
          = Some d'
       /\ 4089 <= d' + d <= 4090.
Proof.
  apply (pivot_turn_mirror (MotorControl_init 0 1 2 3 4)
           0%float 0.5%float 0%float); vm_compute; reflexivity.
Defined.

(** ** binary64: the direction of a wheel *)

Lemma binary_round_aux_nonneg (q e : Z) (l : location) :
  0 <= q ->
  SFleb (S754_zero false) (binary_round_aux prec emax false q e l) = true.
Proof.
  intros Hq. unfold binary_round_aux.
  pose proof (shr_fexp_nonneg q e l Hq) as H1.
  destruct (shr_fexp prec emax q e l) as [mrs1 e1]. simpl in H1.
  pose proof (shr_fexp_nonneg
                (round_nearest_even (shr_m mrs1) (loc_of_shr_record mrs1))
                e1 loc_Exact
                (round_nearest_even_nonneg _ _ H1)) as H2.
  destruct (shr_fexp prec emax _ e1 loc_Exact) as [mrs2 e2]. simpl in H2.
  destruct (shr_m mrs2) as [| m | m]; [reflexivity | | lia].
  destruct (e2 <=? emax - prec); reflexivity.
Qed.

Lemma SFdiv_nonneg (mx my : positive) (ex ey : Z) :
  SFleb (S754_zero false)
        (SF64div (S754_finite false mx ex) (S754_finite false my ey)) = true.
Proof.
  unfold SF64div, SFdiv, SFdiv_core_binary.
  set (e' := Z.min _ (ex - ey)).
  set (m' := match ex - ey - e' with
             | 0 => Zpos mx
             | Zpos _ => Z.shiftl (Zpos mx) (ex - ey - e')
             | Zneg _ => 0
             end).
  assert (Hm' : 0 <= m').
  { unfold m'. destruct (ex - ey - e') as [| p | p]; [lia | | lia].
    apply Z.shiftl_nonneg. lia. }
  pose proof (Z_div_mod m' (Zpos my) ltac:(lia)) as Hdm.
  destruct (Z.div_eucl m' (Zpos my)) as [q r]. destruct Hdm as [Eq Hr].
  cbn [xorb]. apply binary_round_aux_nonneg. nia.
Qed.

(** A finite command of a given sign, divided by the divisor, is zero
    or of that sign. *)
Lemma SFdiv_maxValue_nonneg (mx : positive) (ex : Z) (y : spec_float) :
  bounded prec emax mx ex = true -> valid_binary y = true ->
  SFleb (S754_zero false)
        (SF64div (S754_finite false mx ex)
                 (SFmaxValue (S754_finite false mx ex) y)) = true.
Proof.
  intros Bx Vy.
  destruct (SFmaxValue_finite false mx ex y Bx Vy)
    as [E | (my & ey & E & _ & _)]; rewrite E.
  - reflexivity.
  - apply SFdiv_nonneg.
Qed.

Lemma SFleb_opp_zero (x : spec_float) :
  SFleb (S754_zero false) x = true -> SFleb (SFopp x) (S754_zero false) = true.
Proof.
  destruct x as [s | s | | s m e]; try discriminate;
    destruct s; try discriminate; reflexivity.
Qed.

Lemma SFdiv_maxValue_nonpos (mx : positive) (ex : Z) (y : spec_float) :
  bounded prec emax mx ex = true -> valid_binary y = true ->
  SFleb (SF64div (S754_finite true mx ex)
                 (SFmaxValue (S754_finite true mx ex) y))
        (S754_zero false) = true.
Proof.
  intros Bx Vy.
  assert (Em : SFmaxValue (S754_finite true mx ex) y
               = SFmaxValue (S754_finite false mx ex) y)
    by (unfold SFmaxValue; now rewrite !SFabs_macro_finite).
  rewrite Em.
  change (S754_finite true mx ex) with (SFopp (S754_finite false mx ex)).
  rewrite SFdiv_opp_l. apply SFleb_opp_zero.
  now apply SFdiv_maxValue_nonneg.
Qed.

Lemma channelDuty_zero : channelDuty 0%float = 2045.
Proof. vm_compute. reflexivity. Qed.

Lemma SFdiv_maxValue_of_zero (sx : bool) (y : spec_float) :
  is_zero (SF64div (S754_zero sx) (SFmaxValue (S754_zero sx) y)).
Proof.
  unfold is_zero.
  destruct (SFmaxValue_zero sx y) as [E | (my & ey & E)]; rewrite E;
    eexists; reflexivity.
Qed.

(** One normalized command, by the sign of the mixed command [x] it
    comes from: not negative for a positive one, not positive for a
    negative one, zero for zero. *)
Lemma SFdiv_maxValue_direction (x y : spec_float) :
  valid_binary x = true -> valid_binary y = true ->
  SFltb (SFabs_macro x) (S754_infinity false) = true ->
  (SFltb (S754_zero false) x = true ->
   SFleb (S754_zero false) (SF64div x (SFmaxValue x y)) = true)
  /\ (SFltb x (S754_zero false) = true ->
      SFleb (SF64div x (SFmaxValue x y)) (S754_zero false) = true)
  /\ (SFeqb x (S754_zero false) = true ->
      is_zero (SF64div x (SFmaxValue x y))).
Proof.
  intros Vx Vy Hfin. unfold valid_binary in Vx.
  destruct x as [sx | sx | | sx mx ex].
  - split; [destruct sx; discriminate | split; [destruct sx; discriminate |]].
    intros _. apply SFdiv_maxValue_of_zero.
  - destruct sx; discriminate Hfin.
  - discriminate Hfin.
  - cbn [SpecFloat.valid_binary] in Vx. destruct sx.
    + split; [discriminate | split; [| discriminate]].
      intros _. now apply SFdiv_maxValue_nonpos.
    + split; [| split; discriminate].
      intros _. now apply SFdiv_maxValue_nonneg.
Qed.

Lemma duty_by_direction (c : float) :
  PrimFloat.leb (-1) c = true -> PrimFloat.leb c 1 = true ->
  (PrimFloat.leb 0 c = true ->
   1500 <= pulsewidth c <= 2500 /\ 2045 <= channelDuty c <= 3409)
  /\ (PrimFloat.leb c 0 = true ->
      500 <= pulsewidth c <= 1500 /\ 681 <= channelDuty c <= 2045).
Proof.
  intros H1 H2.
  destruct (channelDuty_binary64 c H1 H2) as (Hp & _ & Hd).
  assert (P0 : pulsewidth 0%float = 1500) by (vm_compute; reflexivity).
  split; intros H0.
  - destruct (channelDuty_mono_binary64 0%float c) as (Mp & _ & Md);
      [vm_compute; reflexivity | exact H0 | exact H2 |].
    rewrite channelDuty_zero in Md. rewrite P0 in Mp. lia.
  - destruct (channelDuty_mono_binary64 c 0%float) as (Mp & _ & Md);
      [exact H1 | exact H0 | vm_compute; reflexivity |].
    rewrite channelDuty_zero in Md. rewrite P0 in Mp. lia.
Qed.

(** X20. In binary64, the normalization never reverses a wheel: when the
    left mixed command is finite, a positive one gives a pulse width of
    at least 1500 and a duty of at least 2045 (the neutral values), a
    negative one a pulse width of at most 1500 and a duty of at most
    2045, and a zero one exactly the neutral duty 2045; the same for
    the right wheel. *)
Theorem wheel_direction_preserved (mc : MotorControl) (f s w : float) :
  (PrimFloat.ltb (Arduino.abs (f + s)%float) infinity = true ->
   (PrimFloat.ltb 0 (f + s) = true ->
    1500 <= pulsewidth (normalizedLeft f s) <= 2500
    /\ 2045 <= channelDuty (normalizedLeft f s) <= 3409)
   /\ (PrimFloat.ltb (f + s) 0 = true ->
       500 <= pulsewidth (normalizedLeft f s) <= 1500
       /\ 681 <= channelDuty (normalizedLeft f s) <= 2045)
   /\ (PrimFloat.eqb (f + s) 0 = true ->
       channelDuty (normalizedLeft f s) = 2045)
   /\ leftDuty mc f s w = Some (channelDuty (normalizedLeft f s)))
  /\ (PrimFloat.ltb (Arduino.abs (f - s)%float) infinity = true ->
      (PrimFloat.ltb 0 (f - s) = true ->
       1500 <= pulsewidth (normalizedRight f s) <= 2500
       /\ 2045 <= channelDuty (normalizedRight f s) <= 3409)
      /\ (PrimFloat.ltb (f - s) 0 = true ->
          500 <= pulsewidth (normalizedRight f s) <= 1500
          /\ 681 <= channelDuty (normalizedRight f s) <= 2045)
      /\ (PrimFloat.eqb (f - s) 0 = true ->
          channelDuty (normalizedRight f s) = 2045)
      /\ rightDuty mc f s w = Some (channelDuty (normalizedRight f s))).
Proof.
  destruct (Prim2SF_normalized f s) as [El Er].
  destruct (normalized_bounds_binary64 f s) as [Bl Br].
  pose proof (Prim2SF_valid (f + s)%float) as Vl.
  pose proof (Prim2SF_valid (f - s)%float) as Vr.
  rewrite FloatAxioms.add_spec in Vl. rewrite FloatAxioms.sub_spec in Vr.
  rewrite (SFdiv_maxValue_swap _ _ (SF64sub (Prim2SF f) (Prim2SF s))) in Er;
    [| apply SFsub_nan_SFadd | apply SFadd_nan_SFsub | right; reflexivity].
  assert (Z0 : forall c : float, is_zero (Prim2SF c) -> channelDuty c = 2045).
  { intros c Zc. rewrite <- channelDuty_zero. apply channelDuty_milli.
    rewrite !milli_binary64. rewrite (milli_zero _ Zc).
    vm_compute. reflexivity. }
  split; intros Hfin.
  - destruct (Bl Hfin) as [H1 H2].
    destruct (duty_by_direction _ H1 H2) as [Dp Dn].
    rewrite FloatAxioms.ltb_spec, Prim2SF_abs, FloatAxioms.add_spec in Hfin.
    change (Prim2SF infinity) with (S754_infinity false) in Hfin.
    destruct (SFdiv_maxValue_direction _ _ Vl Vr Hfin) as (Sp & Sn & Sz).
    rewrite <- El in Sp, Sn, Sz.
    rewrite !FloatAxioms.ltb_spec, FloatAxioms.eqb_spec, FloatAxioms.add_spec.
    change (Prim2SF 0%float) with (S754_zero false).
    split; [| split; [| split]].
    + intros Hs. apply Dp. rewrite FloatAxioms.leb_spec. now apply Sp.
    + intros Hs. apply Dn. rewrite FloatAxioms.leb_spec. now apply Sn.
    + intros Hs. now apply Z0, Sz.
    + apply leftDuty_steps.
  - destruct (Br Hfin) as [H1 H2].
    destruct (duty_by_direction _ H1 H2) as [Dp Dn].
    rewrite FloatAxioms.ltb_spec, Prim2SF_abs, FloatAxioms.sub_spec in Hfin.
    change (Prim2SF infinity) with (S754_infinity false) in Hfin.
    destruct (SFdiv_maxValue_direction _ _ Vr Vl Hfin) as (Sp & Sn & Sz).
    rewrite <- Er in Sp, Sn, Sz.
    rewrite !FloatAxioms.ltb_spec, FloatAxioms.eqb_spec, FloatAxioms.sub_spec.
    change (Prim2SF 0%float) with (S754_zero false).
    split; [| split; [| split]].
    + intros Hs. apply Dp. rewrite FloatAxioms.leb_spec. now apply Sp.
    + intros Hs. apply Dn. rewrite FloatAxioms.leb_spec. now apply Sn.
    + intros Hs. now apply Z0, Sz.
    + apply rightDuty_steps.
Qed.

Lemma wheel_direction_preserved_witness :
  1500 <= pulsewidth (normalizedLeft 0.25%float 3%float) <= 2500
  /\ 2045 <= channelDuty (normalizedLeft 0.25%float 3%float) <= 3409.
Proof.
  apply (proj1 (proj1 (wheel_direction_preserved
                         (MotorControl_init 0 1 2 3 4)
                         0.25%float 3%float 0%float)
                  ltac:(vm_compute; reflexivity))).
  vm_compute. reflexivity.
Defined.
